(** * chunker.py: the chunk encoder and decoder, embedded and verified

    The development follows [src/chunker.py].  The two session classes
    [_Chunker] and [_Dechunker] become the modules [Chunker] and
    [Dechunker]; every method is a computation in a small state-and-exception
    monad whose state pairs the object's fields with the file system.  The
    orchestrators [encode] and [decode] are total functions from a world to
    an outcome.

    Modelling conventions.
    - Python integers are [Z]; byte strings are [list Byte.byte].
    - A directory is a finite map from relative paths to binary contents,
      the set of its sub-directories, and its text file [header], kept as
      the value [json.load] returns for it.  The entry [header] of a
      directory that holds or receives chunks, or that [decode] writes
      to, is that text file or a sub-directory of this name, not both,
      and a data file named [header] that [decode] writes goes to
      the map like every other and is not reflected in that field; the
      properties about the header file of the directory that [decode]
      writes to exclude this name.
    - Every file that exists can be opened; memory and disk space are
      not exhausted.
    - [encode] starts after [collapse_tree]: it receives the enumerated
      names, and [indir] is the tree they are relative to.  The argument
      checks at the top of [encode] and [decode] (types and existence of
      the two directories) are taken as passed.
    - The input and output directories of one session are distinct.
    - JSON numbers with a fraction or an exponent are not represented.
    - [collapse_tree] is modelled on its own, from the path that
      [os.path.abspath] returned and from what the file system holds
      there.  A directory lists its entries in a fixed order; symbolic
      links are not modelled.
    - A name is a normalised relative path and is the key of a file in
      the directory it is opened in; [collapse_tree] returns such names
      for every directory but the root.
    - [file.read(n)] refuses the sizes that 64-bit CPython refuses, see
      [read_check]; for every other size it returns what the file
      has.
    - Console output is not modelled, except that an outcome keeps the
      exception the [except] clause printed.

    The file has three parts: the embedding, the vocabulary in which the
    properties are stated, and the properties with their proofs. *)

From stdpp Require Import gmap strings list pretty sorting.
From Equations Require Import Equations.
From Stdlib Require Import ZArith Lia Ascii.

Local Open Scope Z_scope.

Abbreviation bytes := (list Byte.byte).

(** ** Python values read from the header *)

#[warnings="-register-all"] Inductive json :=
| JNull
| JBool (b : bool)
| JInt (z : Z)
| JStr (s : string)
| JArr (l : list json)
| JObj (kvs : list (string * json)).

(** The content of a text file: either it is not a JSON document, or it
    is one and [json.load] yields [v]. *)
Inductive text :=
| Garbage
| JsonText (v : json).

(** A Python [dict] keeps insertion order and has unique keys. *)
Fixpoint dict_get {V} (k : string) (d : list (string * V)) : option V :=
  match d with
  | [] => None
  | (k', v) :: d' => if decide (k = k') then Some v else dict_get k d'
  end.

Definition dict_mem {V} (k : string) (d : list (string * V)) : bool :=
  match dict_get k d with Some _ => true | None => false end.

Fixpoint dict_set {V} (k : string) (v : V) (d : list (string * V))
  : list (string * V) :=
  match d with
  | [] => [(k, v)]
  | (k', v') :: d' =>
      if decide (k = k') then (k, v) :: d' else (k', v') :: dict_set k v d'
  end.

(** [bool] is a subclass of [int]. *)
Definition as_int (v : json) : option Z :=
  match v with
  | JInt z => Some z
  | JBool b => Some (if b then 1 else 0)
  | _ => None
  end.

(** [data[key]]: defined on a dict that has the key. *)
Definition getitem (data : json) (key : string) : option json :=
  match data with
  | JObj kvs => dict_get key kvs
  | _ => None
  end.

(** [a // b] and [a - b] on integers; [None] stands for [TypeError]. *)
Definition floordiv (a : json) (b : Z) : option Z :=
  z ← as_int a; Some (z `div` b).

Definition py_sub (a b : json) : option Z :=
  x ← as_int a; y ← as_int b; Some (x - y).

(** ** Exceptions *)

Inductive exn :=
| Exception (msg : string)
| KeyError (key : string)
| ValueError (msg : string)
| TypeError
| AttributeError
| FileNotFoundError (path : string)
| IsADirectoryError (path : string)
| NotADirectoryError (path : string)
| OverflowError.

(** ** The file system *)

Record dir := mkDir {
  files : gmap string bytes;
  subdirs : gset string;
  header_file : option text
}.

Definition empty_dir : dir := mkDir ∅ ∅ None.

Definition set_files (m : gmap string bytes) (d : dir) : dir :=
  mkDir m (subdirs d) (header_file d).

Definition set_header_file (h : option text) (d : dir) : dir :=
  mkDir (files d) (subdirs d) h.

(** A file object is identified by its mode and path. *)
Inductive handle :=
| Reading (path : string)
| Writing (path : string).

Global Instance handle_eq_dec : EqDecision handle.
Proof. solve_decision. Defined.

(** [handles] are the file objects currently open; [opened] logs every
    call of [open], most recent first. *)
Record world := mkWorld {
  indir : dir;
  outdir : dir;
  handles : list handle;
  opened : list handle
}.

Definition set_outdir (d : dir) (w : world) : world :=
  mkWorld (indir w) d (handles w) (opened w).

Definition set_handles (hs : list handle) (w : world) : world :=
  mkWorld (indir w) (outdir w) hs (opened w).

Definition opening (h : handle) (w : world) : world :=
  mkWorld (indir w) (outdir w) (h :: handles w) (h :: opened w).

Fixpoint remove_first (h : handle) (hs : list handle) : list handle :=
  match hs with
  | [] => []
  | h' :: hs' => if decide (h = h') then hs' else h' :: remove_first h hs'
  end.

Fixpoint has_slash (p : string) : bool :=
  match p with
  | EmptyString => false
  | String c rest => Ascii.eqb c "/"%char || has_slash rest
  end.

(** [os.path.dirname] on a normalised relative path. *)
Fixpoint dirname (p : string) : string :=
  match p with
  | EmptyString => EmptyString
  | String c rest => if has_slash rest then String c (dirname rest) else EmptyString
  end.

(** ** State and exceptions *)

Inductive res (S A : Type) :=
| Ok (a : A) (s : S)
| Raise (e : exn) (s : S).
Arguments Ok {S A} a s.
Arguments Raise {S A} e s.

Definition M (S A : Type) : Type := S → res S A.

Definition ret {S A} (a : A) : M S A := λ s, Ok a s.

Definition bind {S A B} (m : M S A) (k : A → M S B) : M S B :=
  λ s, match m s with
       | Ok a s' => k a s'
       | Raise e s' => Raise e s'
       end.

Definition raise {S A} (e : exn) : M S A := λ s, Raise e s.

Notation "x <- c1 ;; c2" := (bind c1 (λ x, c2))
  (at level 100, c1 at next level, right associativity).
Notation "c1 ;; c2" := (bind c1 (λ _, c2))
  (at level 100, right associativity).

(** [try: m finally: f] where [f] cannot raise. *)
Definition finally {S A} (m : M S A) (f : S → S) : M S A :=
  λ s, match m s with
       | Ok a s' => Ok a (f s')
       | Raise e s' => Raise e (f s')
       end.

Fixpoint for_each {S A} (f : A → M S unit) (l : list A) : M S unit :=
  match l with
  | [] => ret tt
  | x :: l' => f x ;; for_each f l'
  end.

(** Methods run on the pair of the object and the world. *)
Definition get_self {O} : M (O * world) O := λ s, Ok (fst s) s.

Definition update {O} (f : O → O) : M (O * world) unit :=
  λ s, Ok tt (f (fst s), snd s).

Definition sys {O A} (m : M world A) : M (O * world) A :=
  λ s, match m (snd s) with
       | Ok a w => Ok a (fst s, w)
       | Raise e w => Raise e (fst s, w)
       end.

(** ** System calls *)

(** The paths above [p]: what stands before each of its slashes. *)
Fixpoint ancestors_from (before p : string) : list string :=
  match p with
  | EmptyString => []
  | String c rest =>
      if Ascii.eqb c "/"%char
      then before :: ancestors_from (before +:+ "/") rest
      else ancestors_from (before +:+ String c EmptyString) rest
  end.

Definition ancestors (p : string) : list string := ancestors_from EmptyString p.

(** The error of [open] on a path that cannot be reached: a regular
    file stands where a directory is needed, or an entry is missing. *)
Definition missing_error (d : dir) (path : string) : exn :=
  if existsb (λ a, bool_decide (is_Some (files d !! a))) (ancestors path)
  then NotADirectoryError path
  else FileNotFoundError path.

(** [open(path, 'rb')] in the input directory; yields the content. *)
Definition open_rb (path : string) : M world bytes := λ w,
  if decide (path ∈ subdirs (indir w)) then Raise (IsADirectoryError path) w
  else match files (indir w) !! path with
       | Some data => Ok data (opening (Reading path) w)
       | None => Raise (missing_error (indir w) path) w
       end.

Definition parent_exists (d : dir) (path : string) : bool :=
  bool_decide (dirname path = EmptyString) || bool_decide (dirname path ∈ subdirs d).

(** [open(path, 'wb')] in the output directory: creates or truncates. *)
Definition open_wb (path : string) : M world unit := λ w,
  if decide (path ∈ subdirs (outdir w)) then Raise (IsADirectoryError path) w
  else if parent_exists (outdir w) path
  then Ok tt (opening (Writing path)
                (set_outdir (set_files (<[path := []]> (files (outdir w))) (outdir w)) w))
  else Raise (missing_error (outdir w) path) w.

(** [open(header_path, 'w')] in the output directory. *)
Definition open_header : M world unit := λ w,
  if decide ("header" ∈ subdirs (outdir w)) then Raise (IsADirectoryError "header") w
  else Ok tt (opening (Writing "header") w).

(** [file.write(b)] on a file opened by [open_wb]. *)
Definition file_write (path : string) (b : bytes) : M world unit := λ w,
  if bool_decide (Writing path ∈ handles w)
  then Ok tt (set_outdir
                (set_files (<[path := default [] (files (outdir w) !! path) ++ b]>
                              (files (outdir w))) (outdir w)) w)
  else Raise (ValueError "I/O operation on closed file.") w.

(** [file.close()]: closing a closed file does nothing. *)
Definition file_close (h : handle) (w : world) : world :=
  set_handles (remove_first h (handles w)) w.

(** The sizes [file.read(n)] refuses, on 64-bit CPython: [n] has to fit
    a signed 64-bit integer, a bytes object of [n] bytes has to be
    representable (its header takes 33 bytes), and below zero only -1 is
    accepted. *)
Definition read_check (n : Z) : option exn :=
  if (n <? - 2 ^ 63) || (2 ^ 63 - 33 <=? n) then Some OverflowError
  else if n <? -1 then Some (ValueError "read length must be non-negative or -1")
  else None.

(** [file.read(n)], for a size that passes [read_check], on the unread
    part of a file: the bytes read and the bytes left.  The size -1
    reads to the end. *)
Definition file_read (n : Z) (data : bytes) : bytes * bytes :=
  if n <? 0 then (data, []) else (take (Z.to_nat n) data, drop (Z.to_nat n) data).

Definition chunk_name (i : Z) : string := "chunk-" +:+ pretty i.

Definition inspect {A} (a : A) : {b | a = b} := exist _ a eq_refl.

(** ** The encoder: class [_Chunker] *)

Module Chunker.

Record chunker := mkChunker {
  bytes_per_chunk : Z;
  chunk_index : Z;
  byte_index : Z;
  file_positions : list (string * Z);
  can_write : bool;
  chunk : option string;
  this_chunk_bytes : Z
}.

Definition state : Type := chunker * world.

Definition set_chunk_index (v : Z) (c : chunker) : chunker :=
  mkChunker (bytes_per_chunk c) v (byte_index c) (file_positions c)
    (can_write c) (chunk c) (this_chunk_bytes c).

Definition set_byte_index (v : Z) (c : chunker) : chunker :=
  mkChunker (bytes_per_chunk c) (chunk_index c) v (file_positions c)
    (can_write c) (chunk c) (this_chunk_bytes c).

Definition set_file_positions (v : list (string * Z)) (c : chunker) : chunker :=
  mkChunker (bytes_per_chunk c) (chunk_index c) (byte_index c) v
    (can_write c) (chunk c) (this_chunk_bytes c).

Definition set_can_write (v : bool) (c : chunker) : chunker :=
  mkChunker (bytes_per_chunk c) (chunk_index c) (byte_index c) (file_positions c)
    v (chunk c) (this_chunk_bytes c).

Definition set_chunk (v : option string) (c : chunker) : chunker :=
  mkChunker (bytes_per_chunk c) (chunk_index c) (byte_index c) (file_positions c)
    (can_write c) v (this_chunk_bytes c).

Definition set_this_chunk_bytes (v : Z) (c : chunker) : chunker :=
  mkChunker (bytes_per_chunk c) (chunk_index c) (byte_index c) (file_positions c)
    (can_write c) (chunk c) v.

(** [__switch_to_next_chunk] *)
Definition switch_to_next_chunk : M state unit :=
  self <- get_self ;;
  match chunk self with
  | Some c => sys (λ w, Ok tt (file_close (Writing c) w))
  | None => ret tt
  end ;;
  update (λ self, set_chunk_index (chunk_index self + 1) self) ;;
  self <- get_self ;;
  let next_name := chunk_name (chunk_index self) in
  update (set_this_chunk_bytes 0) ;;
  sys (open_wb next_name) ;;
  update (set_chunk (Some next_name)).

(** [__init__]: the fields, then the first chunk file is opened. *)
Definition init (mb_per_chunk : Z) (w : world) : res state unit :=
  switch_to_next_chunk
    (mkChunker (mb_per_chunk * 1024 * 1024) (-1) 0 [] true None 0, w).

(** The body of the [while] loop of [read_from_path] for a block [b]
    just read; it yields the size of the next read. *)
Definition store_block (b : bytes) : M state Z :=
  update (λ self, set_this_chunk_bytes (this_chunk_bytes self + Z.of_nat (length b)) self) ;;
  update (λ self, set_byte_index (byte_index self + Z.of_nat (length b)) self) ;;
  self <- get_self ;;
  match chunk self with
  | Some c => sys (file_write c b)
  | None => raise AttributeError
  end ;;
  self <- get_self ;;
  let n := bytes_per_chunk self - this_chunk_bytes self in
  if n =? 0
  then switch_to_next_chunk ;; self <- get_self ;; ret (bytes_per_chunk self)
  else ret n.

(** [while (b := file.read(n)): ...] over the unread bytes [data]. *)
Equations? read_blocks (n : Z) (data : bytes) (s : state)
  : res state unit by wf (length data) lt :=
  read_blocks n data s with read_check n := {
    | Some e := Raise e s;
    | None with inspect (file_read n data) := {
        | exist _ ([], _) _ := Ok tt s;
        | exist _ (c :: b, rest) Hread with store_block (c :: b) s := {
            | Ok n' s' := read_blocks n' rest s';
            | Raise e s' := Raise e s' } } }.
Proof.
  unfold file_read in Hread. destruct (n <? 0).
  - inversion Hread; subst. simpl. lia.
  - inversion Hread as [[Hb Hr]].
    assert (Hl : length (take (Z.to_nat n) data) = S (length b)) by (rewrite Hb; done).
    rewrite length_take in Hl. rewrite length_drop. lia.
Qed.

(** [read_from_path(path, name)], with [path] the file [name] of the
    input tree. *)
Definition read_from_path (name : string) : M state unit :=
  self <- get_self ;;
  if negb (can_write self)
  then raise (Exception "Already closed! Cannot chunk more files.")
  else
    if dict_mem name (file_positions self)
    then raise (KeyError name)
    else
      update (λ self, set_file_positions
                        (dict_set name (byte_index self) (file_positions self)) self) ;;
      self <- get_self ;;
      let n := bytes_per_chunk self - this_chunk_bytes self in
      data <- sys (open_rb name) ;;
      finally (read_blocks n data)
        (λ s, (fst s, file_close (Reading name) (snd s))).

(** [close] *)
Definition close : M state unit :=
  update (set_can_write false) ;;
  self <- get_self ;;
  match chunk self with
  | Some c => sys (λ w, Ok tt (file_close (Writing c) w))
  | None => raise AttributeError
  end.

(** What [json.dump] writes for the header record. *)
Definition header_of (self : chunker) : json :=
  JObj [ ("bytes_per_chunk", JInt (bytes_per_chunk self));
         ("positions", JObj (map (λ kv, (fst kv, JInt (snd kv))) (file_positions self)));
         ("total_bytes", JInt (byte_index self)) ].

(** [write_header_file] *)
Definition write_header_file : M state unit :=
  self <- get_self ;;
  if can_write self
  then raise (Exception "Not closed! Cannot write headers.")
  else
    sys open_header ;;
    sys (λ w, Ok tt (set_outdir
                       (set_header_file (Some (JsonText (header_of self))) (outdir w)) w)) ;;
    sys (λ w, Ok tt (file_close (Writing "header") w)).

End Chunker.

(** ** Outcomes of the orchestrators *)

(** [Returned caught w]: the function returned.  [caught] is the exception
    its [except] clause printed, if any; the value returned, [errored], is
    [True] exactly when there is one.  [Raised e w]: the exception [e]
    left the function.  [Unmodelled]: the run depends on comparing header
    offsets that are not integers. *)
Inductive outcome :=
| Returned (caught : option exn) (w : world)
| Raised (e : exn) (w : world)
| Unmodelled.

Definition errored (o : outcome) : option bool :=
  match o with
  | Returned (Some _) _ => Some true
  | Returned None _ => Some false
  | _ => None
  end.

(** [encode], from the construction of the chunker on; [infiles] is the
    enumeration [collapse_tree] returned.  The chunker is constructed
    outside the [try]; the [except] clause catches what the loop raises;
    an exception raised by the [finally] block itself, before its
    [return], leaves [encode]. *)
Definition encode (mb_per_chunk : Z) (infiles : list string) (w : world) : outcome :=
  match Chunker.init mb_per_chunk w with
  | Raise e s => Raised e (snd s)
  | Ok _ s =>
      let '(caught, s1) :=
        match for_each Chunker.read_from_path infiles s with
        | Ok _ s' => (None, s')
        | Raise e s' => (Some e, s')
        end in
      match Chunker.close s1 with
      | Raise e s2 => Raised e (snd s2)
      | Ok _ s2 =>
          match caught with
          | Some _ => Returned caught (snd s2)
          | None =>
              match Chunker.write_header_file s2 with
              | Ok _ s3 => Returned None (snd s3)
              | Raise e s3 => Raised e (snd s3)
              end
          end
      end
  end.

(** ** Two facts the termination of the decoder rests on *)

Lemma chunk_name_inj i j : chunk_name i = chunk_name j → i = j.
Proof.
  unfold chunk_name. intros H. simpl in H.
  injection H as H. by apply pretty_Z_inj in H.
Qed.

Lemma file_read_shorter n data c b rest :
  file_read n data = (c :: b, rest) → (length rest < length data)%nat.
Proof.
  unfold file_read. destruct (n <? 0); intros H.
  - inversion H; subst. simpl. lia.
  - inversion H as [[Hb Hr]].
    assert (Hl : length (take (Z.to_nat n) data) = S (length b)) by (by rewrite Hb).
    rewrite length_take in Hl. rewrite length_drop. lia.
Qed.

(** ** The decoder: class [_Dechunker] *)

Module Dechunker.

(** [unread] is the cursor of the file object [chunk]: the bytes of the
    current chunk file that [read] has not returned yet. *)
Record dechunker := mkDechunker {
  bytes_per_chunk : Z;
  chunk_index : Z;
  can_read : bool;
  chunk : option string;
  unread : bytes
}.

Definition state : Type := dechunker * world.

Definition set_chunk_index (v : Z) (d : dechunker) : dechunker :=
  mkDechunker (bytes_per_chunk d) v (can_read d) (chunk d) (unread d).

Definition set_can_read (v : bool) (d : dechunker) : dechunker :=
  mkDechunker (bytes_per_chunk d) (chunk_index d) v (chunk d) (unread d).

Definition set_chunk (c : string) (data : bytes) (d : dechunker) : dechunker :=
  mkDechunker (bytes_per_chunk d) (chunk_index d) (can_read d) (Some c) data.

Definition set_unread (data : bytes) (d : dechunker) : dechunker :=
  mkDechunker (bytes_per_chunk d) (chunk_index d) (can_read d) (chunk d) data.

(** [__switch_to_next_chunk] *)
Definition switch_to_next_chunk : M state unit :=
  self <- get_self ;;
  match chunk self with
  | Some c => sys (λ w, Ok tt (file_close (Reading c) w))
  | None => ret tt
  end ;;
  update (λ self, set_chunk_index (chunk_index self + 1) self) ;;
  self <- get_self ;;
  let next_name := chunk_name (chunk_index self) in
  data <- sys (open_rb next_name) ;;
  update (set_chunk next_name data).

(** [__init__] *)
Definition init (mb_per_chunk : Z) (w : world) : res state unit :=
  switch_to_next_chunk (mkDechunker (mb_per_chunk * 1024 * 1024) (-1) true None [], w).

(** [self.__chunk.read(n)] *)
Definition chunk_read (n : Z) : M state bytes :=
  self <- get_self ;;
  match chunk self with
  | None => raise AttributeError
  | Some c =>
      λ s, match read_check n with
           | Some e => Raise e s
           | None =>
               if bool_decide (Reading c ∈ handles (snd s))
               then let '(b, rest) := file_read n (unread self) in
                    Ok b (set_unread rest (fst s), snd s)
               else Raise (ValueError "I/O operation on closed file.") s
           end
  end.

(** The body of the [while n > 0] loop of [write_n_bytes]; it yields the
    new value of [n]. *)
Definition drain_step (n : Z) (file : string) : M state Z :=
  b <- chunk_read n ;;
  match b with
  | [] => switch_to_next_chunk ;; ret n
  | _ => sys (file_write file b) ;; ret (n - Z.of_nat (length b))
  end.

(** One iteration either moves on to an existing next chunk file or
    shortens the unread part of the current one. *)
Definition later (s' s : state) : Prop :=
  indir (snd s') = indir (snd s) ∧
  ((chunk_index (fst s') = chunk_index (fst s) + 1 ∧
    is_Some (files (indir (snd s)) !! chunk_name (chunk_index (fst s'))))
   ∨ (chunk_index (fst s') = chunk_index (fst s) ∧
      (length (unread (fst s')) < length (unread (fst s)))%nat)).

Lemma drain_step_later n file s n' s' :
  drain_step n file s = Ok n' s' → later s' s.
Proof.
  destruct s as [[bpc idx cr ch un] w].
  unfold drain_step, chunk_read, bind, get_self. simpl.
  destruct ch as [c|]; [|discriminate]. simpl.
  destruct (read_check n); [discriminate|].
  destruct (bool_decide (Reading c ∈ handles w)); [|discriminate].
  destruct (file_read n un) as [b rest] eqn:Hread.
  destruct b as [|x b]; simpl.
  - unfold switch_to_next_chunk, bind, get_self, update, sys, ret. simpl.
    unfold open_rb. simpl.
    destruct (decide _); [discriminate|].
    destruct (files (indir w) !! chunk_name (idx + 1)) as [data|] eqn:Hf; [|discriminate].
    intros [= <- <-]. split; [done|]. left. simpl. split; [done|]. by rewrite Hf.
  - unfold sys, file_write, ret. simpl.
    destruct (bool_decide _); [|discriminate].
    intros [= <- <-]. split; [done|]. right. simpl. split; [done|].
    eapply file_read_shorter; eauto.
Qed.

(** The relation is well founded because a directory is finite and the
    names of distinct chunk indices differ. *)
Lemma later_acc (k : nat) :
  ∀ (m : gmap string bytes) (s : state),
    (size m ≤ k)%nat →
    (∀ j, chunk_index (fst s) < j →
          is_Some (files (indir (snd s)) !! chunk_name j) → is_Some (m !! chunk_name j)) →
    Acc later s.
Proof.
  induction k as [|k IH]; intros m s Hk Hm.
  - assert (m = ∅) as -> by (apply map_size_empty_iff; lia).
    remember (length (unread (fst s))) as u eqn:Hu.
    revert s Hm Hu. induction (lt_wf u) as [u _ IHu]. intros s Hm ->.
    constructor. intros s' [Hi [[Hidx Hsome]|[Hidx Hlt]]].
    + exfalso. apply Hm in Hsome; [|lia].
      rewrite lookup_empty in Hsome. by destruct Hsome.
    + eapply IHu; [exact Hlt| |done].
      intros j Hj. rewrite Hi. apply Hm. lia.
  - remember (length (unread (fst s))) as u eqn:Hu.
    revert s Hm Hu. induction (lt_wf u) as [u _ IHu]. intros s Hm ->.
    constructor. intros s' [Hi [[Hidx Hsome]|[Hidx Hlt]]].
    + apply (IH (delete (chunk_name (chunk_index (fst s'))) m)).
      * apply Hm in Hsome; [|lia].
        rewrite map_size_delete_Some by done.
        destruct Hsome as [x Hx].
        assert (size m ≠ 0%nat) by (intros Hz; apply map_size_empty_iff in Hz;
                                    rewrite Hz, lookup_empty in Hx; done).
        lia.
      * intros j Hj. rewrite Hi. intros Hs. apply Hm in Hs; [|lia].
        rewrite lookup_delete_ne; [done|].
        intros Heq. apply chunk_name_inj in Heq. lia.
    + eapply IHu; [exact Hlt| |done].
      intros j Hj. rewrite Hi. apply Hm. lia.
Qed.

Lemma later_well_founded : well_founded later.
Proof.
  intros s. apply (later_acc (size (files (indir (snd s)))) (files (indir (snd s)))); auto.
Qed.

#[export] Instance later_wf : WellFounded later :=
  Acc_intro_generator 64 later_well_founded.

#[local] Opaque later_wf.

(** [while n > 0: ...] of [write_n_bytes], writing to [file]. *)
Equations? write_blocks (n : Z) (file : string) (s : state)
  : res state unit by wf s later :=
  write_blocks n file s with inspect (0 <? n) := {
    | exist _ false _ := Ok tt s;
    | exist _ true _ with inspect (drain_step n file s) := {
        | exist _ (Ok n' s') Hstep := write_blocks n' file s';
        | exist _ (Raise e s') _ := Raise e s' } }.
Proof. eapply drain_step_later; eauto. Qed.

#[local] Transparent later_wf.

(** [write_n_bytes(n, outpath)] *)
Definition write_n_bytes (n : Z) (outpath : string) : M state unit :=
  self <- get_self ;;
  if negb (can_read self)
  then raise (Exception "Already closed! Cannot chunk more files.")
  else
    sys (open_wb outpath) ;;
    finally (write_blocks n outpath)
      (λ s, (fst s, file_close (Writing outpath) (snd s))).

(** [close] *)
Definition close : M state unit :=
  update (set_can_read false) ;;
  self <- get_self ;;
  match chunk self with
  | Some c => sys (λ w, Ok tt (file_close (Reading c) w))
  | None => raise AttributeError
  end.

End Dechunker.

(** ** The decoder's orchestration *)

(** The [try] block that reads the header: every exception in it is
    replaced by one [ValueError], so [None] stands for all of them. *)
Definition read_header (t : text) : option (Z * json * json) :=
  match t with
  | Garbage => None
  | JsonText data =>
      b ← getitem data "bytes_per_chunk";
      mb_per_chunk ← floordiv b (1024 * 1024);
      file_positions ← getitem data "positions";
      total_bytes ← getitem data "total_bytes";
      Some (mb_per_chunk, file_positions, total_bytes)
  end.

(** [file_positions.items()]; [None] stands for [AttributeError]. *)
Definition items (file_positions : json) : option (list (string * json)) :=
  match file_positions with
  | JObj kvs => Some kvs
  | _ => None
  end.

Definition offset_of (kv : string * json) : Z := default 0 (as_int (snd kv)).

(** [sorted] is stable: an entry goes in front of the first later entry
    whose offset is not smaller. *)
Fixpoint insert_by_offset (x : string * json) (l : list (string * json))
  : list (string * json) :=
  match l with
  | [] => [x]
  | y :: l' =>
      if offset_of x <=? offset_of y then x :: y :: l' else y :: insert_by_offset x l'
  end.

Definition sort_by_offset (l : list (string * json)) : list (string * json) :=
  foldr insert_by_offset [] l.

(** [list(sorted(file_positions.items(), key=lambda i: i[1]))].  With at
    most one entry nothing is compared; otherwise the offsets have to be
    integers for the comparison to be the one on [Z]. *)
Definition sorted_items (kvs : list (string * json)) : option (list (string * json)) :=
  if (length kvs <=? 1)%nat then Some kvs
  else if forallb (λ kv, bool_decide (is_Some (as_int (snd kv)))) kvs
       then Some (sort_by_offset kvs)
       else None.

(** The [for i in range(len(file_positions))] loop, on the entries from
    index [i] on: [this] is the first of them and [file_positions[i+1]],
    when there is one, the second. *)
Fixpoint reconstruct (file_positions : list (string * json)) (total_bytes : json)
  : M Dechunker.state unit :=
  match file_positions with
  | [] => ret tt
  | this :: rest =>
      let ends := match rest with [] => total_bytes | next :: _ => snd next end in
      match py_sub ends (snd this) with
      | None => raise TypeError
      | Some length =>
          Dechunker.write_n_bytes length (fst this) ;;
          reconstruct rest total_bytes
      end
  end.

(** [decode], from the look-up of the header file on.  A directory
    named [header] passes the test of existence, and the [open] in the
    [try] block fails on it. *)
Definition decode (w : world) : outcome :=
  match header_file (indir w) with
  | None =>
      if decide ("header" ∈ subdirs (indir w))
      then Raised (ValueError "Header file corrupted or invalid") w
      else Raised (FileNotFoundError "header") w
  | Some t =>
      let w1 := file_close (Reading "header") (opening (Reading "header") w) in
      match read_header t with
      | None => Raised (ValueError "Header file corrupted or invalid") w1
      | Some (mb_per_chunk, file_positions, total_bytes) =>
          match items file_positions with
          | None => Raised AttributeError w1
          | Some kvs =>
              match sorted_items kvs with
              | None => Unmodelled
              | Some file_positions =>
                  match Dechunker.init mb_per_chunk w1 with
                  | Raise e s => Raised e (snd s)
                  | Ok _ s =>
                      match reconstruct file_positions total_bytes s with
                      | Ok _ s' => Returned None (snd s')
                      | Raise e s' => Returned (Some e) (snd s')
                      end
                  end
              end
          end
      end
  end.

(** ** Paths and directory trees: [collapse_tree] *)

Definition starts_with_slash (p : string) : bool :=
  match p with
  | String c _ => Ascii.eqb c "/"%char
  | EmptyString => false
  end.

Fixpoint ends_with_slash (p : string) : bool :=
  match p with
  | EmptyString => false
  | String c rest =>
      match rest with
      | EmptyString => Ascii.eqb c "/"%char
      | String _ _ => ends_with_slash rest
      end
  end.

(** [os.path.join(a, b)] *)
Definition os_path_join (a b : string) : string :=
  if starts_with_slash b then b
  else if bool_decide (a = EmptyString) || ends_with_slash a then a +:+ b
  else a +:+ "/" +:+ b.

(** [s.removeprefix(prefix)]: [strip_prefix] is [None] when [s] does not
    start with [prefix]. *)
Fixpoint strip_prefix (prefix s : string) : option string :=
  match prefix with
  | EmptyString => Some s
  | String a prefix' =>
      match s with
      | String b s' => if Ascii.eqb a b then strip_prefix prefix' s' else None
      | EmptyString => None
      end
  end.

Definition removeprefix (prefix s : string) : string :=
  default s (strip_prefix prefix s).

Fixpoint all_slashes (p : string) : bool :=
  match p with
  | EmptyString => true
  | String c rest => Ascii.eqb c "/"%char && all_slashes rest
  end.

(** [p.rstrip('/')] *)
Fixpoint rstrip_slashes (p : string) : string :=
  match p with
  | EmptyString => EmptyString
  | String c rest =>
      if Ascii.eqb c "/"%char && all_slashes rest then EmptyString
      else String c (rstrip_slashes rest)
  end.

(** [(p[:i], p[i:])] for [i = p.rfind('/') + 1] *)
Fixpoint cut_after_last_slash (p : string) : string * string :=
  match p with
  | EmptyString => (EmptyString, EmptyString)
  | String c rest =>
      if has_slash rest
      then (String c (fst (cut_after_last_slash rest)), snd (cut_after_last_slash rest))
      else if Ascii.eqb c "/"%char then (String c EmptyString, rest)
      else (EmptyString, String c rest)
  end.

(** [os.path.split(p)]: trailing slashes are stripped from the head
    unless it consists of slashes only. *)
Definition os_path_split (p : string) : string * string :=
  let head := fst (cut_after_last_slash p) in
  let tail := snd (cut_after_last_slash p) in
  (if negb (bool_decide (head = EmptyString)) && negb (all_slashes head)
   then rstrip_slashes head else head,
   tail).

(** What the file system holds at a path: a regular file or a directory
    with its entries, in the order in which [scandir] lists them. *)
#[warnings="-register-all"] Inductive node :=
| File (data : bytes)
| Folder (entries : list (string * node)).

(** The lists [dirs] and [nondirs] that [os.walk] fills from [scandir]. *)
Fixpoint dirs_of (entries : list (string * node)) : list string :=
  match entries with
  | [] => []
  | (name, Folder _) :: rest => name :: dirs_of rest
  | (_, File _) :: rest => dirs_of rest
  end.

Fixpoint nondirs_of (entries : list (string * node)) : list string :=
  match entries with
  | [] => []
  | (name, File _) :: rest => name :: nondirs_of rest
  | (_, Folder _) :: rest => nondirs_of rest
  end.

(** [os.walk(top)], top-down: the triple of [top] itself, then the walks
    of its sub-directories in the order of [dirs].  On a path that is no
    directory [scandir] fails and the walk yields nothing. *)
Fixpoint os_walk (top : string) (t : node) : list (string * list string * list string) :=
  match t with
  | File _ => []
  | Folder entries =>
      (top, dirs_of entries, nondirs_of entries)
        :: flat_map (λ e, match snd e with
                          | Folder _ => os_walk (os_path_join top (fst e)) (snd e)
                          | File _ => []
                          end) entries
  end.

(** [collapse_tree(dir)], from the path [dir] that [os.path.abspath]
    returned; [found] is what the file system holds there. *)
Definition collapse_tree (dir : string) (found : option node)
  : exn + string * list string :=
  match found with
  | None => inl (FileNotFoundError dir)
  | Some (File _) =>
      let parts := os_path_split dir in
      inr (fst parts, [snd parts])
  | Some (Folder entries) =>
      inr (dir,
           flat_map (λ step, map (λ file, removeprefix (dir +:+ "/")
                                            (os_path_join (fst (fst step)) file))
                                 (snd step))
                    (os_walk dir (Folder entries)))
  end.

(** * Vocabulary of the properties *)

(** ** Results and headers *)

(** [post r P]: the state in which [r] ends, normally or not, satisfies [P]. *)
Definition post {S A} (r : res S A) (P : S → Prop) : Prop :=
  match r with
  | Ok _ s' => P s'
  | Raise _ s' => P s'
  end.

Definition header_record (capacity : Z) (positions : list (string * json)) (total : Z)
  : option text :=
  Some (JsonText (JObj [ ("bytes_per_chunk", JInt capacity);
                         ("positions", JObj positions);
                         ("total_bytes", JInt total) ])).

(** Two modelled outcomes that agree on what was caught or raised and on
    everything in the final world but the input directory. *)
Definition same_result (o1 o2 : outcome) : Prop :=
  match o1, o2 with
  | Returned c1 w1, Returned c2 w2 =>
      c1 = c2 ∧ outdir w1 = outdir w2 ∧ handles w1 = handles w2 ∧ opened w1 = opened w2
  | Raised e1 w1, Raised e2 w2 =>
      e1 = e2 ∧ outdir w1 = outdir w2 ∧ handles w1 = handles w2 ∧ opened w1 = opened w2
  | _, _ => False
  end.

Definition with_header (h : option text) (w : world) : world :=
  mkWorld (set_header_file h (indir w)) (outdir w) (handles w) (opened w).

Definition json_positions (fps : list (string * Z)) : list (string * json) :=
  map (λ kv, (fst kv, JInt (snd kv))) fps.

(** The entries of [l] that have the offset [z], in the order of [l]. *)
Definition at_offset (z : Z) (l : list (string * json)) : list (string * json) :=
  filter (λ kv, offset_of kv = z) l.

(** The paths that a log shows as opened for writing, most recent first. *)
Definition written (log : list handle) : list string :=
  flat_map (λ h, match h with Writing p => [p] | Reading _ => [] end) log.

(** ** Encoder sessions *)

Section ChunkerVocabulary.
Import Chunker.

(** [stays s s']: what no method of the chunker other than [close] and
    [write_header_file] changes on the way from [s] to [s']: the
    capacity, the open flag, the input tree, the sub-directories of the
    output directory and its header file.  A chunk file object, once
    there, is never dropped, and no recorded name is forgotten. *)
Record stays (s s' : state) : Prop := mkStays {
  stays_capacity : bytes_per_chunk (fst s') = bytes_per_chunk (fst s);
  stays_can_write : can_write (fst s') = can_write (fst s);
  stays_chunk : is_Some (chunk (fst s)) → is_Some (chunk (fst s'));
  stays_names : ∀ k, dict_mem k (file_positions (fst s)) = true →
                     dict_mem k (file_positions (fst s')) = true;
  stays_indir : indir (snd s') = indir (snd s);
  stays_subdirs : subdirs (outdir (snd s')) = subdirs (outdir (snd s));
  stays_header : header_file (outdir (snd s')) = header_file (outdir (snd s))
}.

(** The chunk files of a session: [full] are the contents of the chunks
    already filled, each of [bpc] bytes, and [cur] is the content of the
    chunk being written, shorter than [bpc]. *)
Definition on_disk (bpc : Z) (m : gmap string bytes) (full : list bytes) (cur : bytes) : Prop :=
  Forall (λ c, Z.of_nat (length c) = bpc) full ∧
  Z.of_nat (length cur) < bpc ∧
  (∀ j c, full !! j = Some c → m !! chunk_name (Z.of_nat j) = Some c) ∧
  m !! chunk_name (Z.of_nat (length full)) = Some cur.

(** A session that is open, has recorded the positions [fp] and has
    written the stream [concat full ++ cur]. *)
Definition writing (bpc : Z) (fp : list (string * Z)) (full : list bytes) (cur : bytes)
    (s : state) : Prop :=
  fst s = mkChunker bpc (Z.of_nat (length full))
            (Z.of_nat (length (concat full ++ cur))) fp true
            (Some (chunk_name (Z.of_nat (length full)))) (Z.of_nat (length cur)) ∧
  on_disk bpc (files (outdir (snd s))) full cur ∧
  Writing (chunk_name (Z.of_nat (length full))) ∈ handles (snd s).

(** Some chunk name is taken by a sub-directory. *)
Definition blocked (d : dir) : Prop := ∃ j, chunk_name j ∈ subdirs d.

(** The names of the [k] chunk files after index [i], the last one first:
    [chunk-(i+k)], ..., [chunk-(i+1)]. *)
Fixpoint chunks_down (i : Z) (k : nat) : list string :=
  match k with
  | O => []
  | S k' => chunk_name (i + Z.of_nat (S k')) :: chunks_down i k'
  end.

(** [trace k s s']: on the way from [s] to [s'] the session moved on by
    [k] chunks; the files it opened for writing are these [k] chunk
    files, in the order of their indices; and of the files of the output
    directory it changed none but the chunk files from that of [s] to
    that of [s']. *)
Definition trace (k : nat) (s s' : state) : Prop :=
  chunk_index (fst s') = chunk_index (fst s) + Z.of_nat k ∧
  written (opened (snd s')) = chunks_down (chunk_index (fst s)) k ++ written (opened (snd s)) ∧
  ∀ p, (∀ j, chunk_index (fst s) ≤ j ≤ chunk_index (fst s') → p ≠ chunk_name j) →
       files (outdir (snd s')) !! p = files (outdir (snd s)) !! p.

(** [opens_chunks s s']: whatever happens on the way from [s] to [s'],
    the files opened for writing are chunk files. *)
Definition opens_chunks (s s' : state) : Prop :=
  ∃ log, opened (snd s') = log ++ opened (snd s) ∧
         Forall (λ p, ∃ j, p = chunk_name j) (written log).

(** The offsets the names of [entries] get when the stream is at [off]. *)
Fixpoint offsets_from (off : Z) (entries : list (string * bytes)) : list (string * Z) :=
  match entries with
  | [] => []
  | e :: rest => (fst e, off) :: offsets_from (off + Z.of_nat (length (snd e))) rest
  end.

End ChunkerVocabulary.

(** ** Decoder sessions *)

(** [chunk_run m i cs]: the chunk files [i], [i+1], ... of [m] exist and
    hold [cs], and the one after them does not exist. *)
Inductive chunk_run (m : gmap string bytes) : Z → list bytes → Prop :=
| run_end i : m !! chunk_name i = None → chunk_run m i []
| run_next i c cs :
    m !! chunk_name i = Some c → chunk_run m (i + 1) cs → chunk_run m i (c :: cs).

Section DechunkerVocabulary.
Import Dechunker.

(** Two decoder states that agree on everything but the stored capacity
    and the header file of the input directory. *)
Definition alike (s1 s2 : state) : Prop :=
  chunk_index (fst s1) = chunk_index (fst s2) ∧
  can_read (fst s1) = can_read (fst s2) ∧
  chunk (fst s1) = chunk (fst s2) ∧
  unread (fst s1) = unread (fst s2) ∧
  files (indir (snd s1)) = files (indir (snd s2)) ∧
  subdirs (indir (snd s1)) = subdirs (indir (snd s2)) ∧
  outdir (snd s1) = outdir (snd s2) ∧
  handles (snd s1) = handles (snd s2) ∧
  opened (snd s1) = opened (snd s2).

Definition alike_res {A} (r1 r2 : res state A) : Prop :=
  match r1, r2 with
  | Ok a1 s1, Ok a2 s2 => a1 = a2 ∧ alike s1 s2
  | Raise e1 s1, Raise e2 s2 => e1 = e2 ∧ alike s1 s2
  | _, _ => False
  end.

(** A session that can still read [avail]: what is left of the current
    chunk and the chunk files after it, up to the first index, [missing],
    that has no file. *)
Definition reading (D : dir) (avail : bytes) (missing : Z) (s : state) : Prop :=
  ∃ cs,
    can_read (fst s) = true ∧
    chunk (fst s) = Some (chunk_name (chunk_index (fst s))) ∧
    indir (snd s) = D ∧
    Reading (chunk_name (chunk_index (fst s))) ∈ handles (snd s) ∧
    chunk_run (files D) (chunk_index (fst s) + 1) cs ∧
    avail = unread (fst s) ++ concat cs ∧
    missing = chunk_index (fst s) + 1 + Z.of_nat (length cs).

(** The outcome of the [while] loop of [write_n_bytes] for a session that
    has [u] unread in its chunk and the chunks [cs] after it, and for a
    length that [read] accepts. *)
Definition run_spec (D : dir) (file : string) (cs : list bytes) (u : bytes) : Prop :=
  ∀ n bpc idx out hs op old missing,
    n < 2 ^ 63 - 33 →
    chunk_run (files D) (idx + 1) cs →
    missing = idx + 1 + Z.of_nat (length cs) →
    Reading (chunk_name idx) ∈ hs →
    Writing file ∈ hs →
    files out !! file = Some old →
    match write_blocks n file
            (mkDechunker bpc idx true (Some (chunk_name idx)) u, mkWorld D out hs op) with
    | Ok _ s' =>
        n ≤ Z.of_nat (length (u ++ concat cs)) ∧
        reading D (drop (Z.to_nat n) (u ++ concat cs)) missing s' ∧
        Writing file ∈ handles (snd s') ∧
        files (outdir (snd s')) =
          <[file := old ++ take (Z.to_nat n) (u ++ concat cs)]> (files out) ∧
        subdirs (outdir (snd s')) = subdirs out ∧
        header_file (outdir (snd s')) = header_file out
    | Raise e s' =>
        Z.of_nat (length (u ++ concat cs)) < n ∧
        e = FileNotFoundError (chunk_name missing) ∧
        files (outdir (snd s')) = <[file := old ++ u ++ concat cs]> (files out) ∧
        subdirs (outdir (snd s')) = subdirs out ∧
        header_file (outdir (snd s')) = header_file out
    end.

(** [open(path, 'wb')] succeeds. *)
Definition writable (d : dir) (path : string) : Prop :=
  (path ∉ subdirs d) ∧ parent_exists d path = true.

End DechunkerVocabulary.

(** The length [decode] computes for every entry: the next offset, or
    [total] for the last entry, minus its own. *)
Fixpoint file_lengths (fps : list (string * Z)) (total : Z) : list (string * Z) :=
  match fps with
  | [] => []
  | this :: rest =>
      (fst this, match rest with [] => total | next :: _ => snd next end - snd this)
        :: file_lengths rest total
  end.

(** How cutting the files out of the stream ends: all of them were cut
    out, the stream ran out, or a length is more than [read] accepts. *)
Inductive extraction := Complete | RanOut | TooLong.

(** The files cut out of the bytes [avail] for the entries, in order, into
    the directory content [m], and how this ends.  When [avail] does not
    suffice, the entry that runs short receives what is left; an entry
    whose length [read] refuses is left empty. *)
Fixpoint carve (entries : list (string * Z)) (avail : bytes) (m : gmap string bytes)
  : gmap string bytes * extraction :=
  match entries with
  | [] => (m, Complete)
  | e :: rest =>
      if 2 ^ 63 - 33 <=? snd e then (<[fst e := []]> m, TooLong)
      else if snd e <=? Z.of_nat (length avail)
      then carve rest (drop (Z.to_nat (snd e)) avail)
             (<[fst e := take (Z.to_nat (snd e)) avail]> m)
      else (<[fst e := avail]> m, RanOut)
  end.

(** The exception [decode] catches for each of these ends; [missing] is
    the index of the first chunk file that is not there. *)
Definition caught_for (end_ : extraction) (missing : Z) : option exn :=
  match end_ with
  | Complete => None
  | RanOut => Some (FileNotFoundError (chunk_name missing))
  | TooLong => Some OverflowError
  end.

(** The files [entries] written, one after the other, into [m]. *)
Definition restored (entries : list (string * bytes)) (m : gmap string bytes)
  : gmap string bytes :=
  foldl (λ m e, <[fst e := snd e]> m) m entries.

(** ** Sample directories *)

Definition header_without_total : dir :=
  mkDir {[ "chunk-0" := [Byte.x01] ]} ∅
    (Some (JsonText (JObj [ ("bytes_per_chunk", JInt 1048576);
                            ("positions", JObj [("a", JInt 0)]) ]))).

(** A tree with the single file [d/c], and its encoding. *)
Definition nested_tree : dir := mkDir {[ "d/c" := [Byte.x03] ]} {[ "d" ]} None.

Definition nested_chunks : dir :=
  mkDir {[ "chunk-0" := [Byte.x03] ]} ∅
        (header_record 1048576 [("d/c", JInt 0)] 1).

(** A chunk set with one flat file. *)
Definition flat_chunks : dir :=
  mkDir {[ "chunk-0" := [Byte.x01] ]} ∅ (header_record 1048576 [("a", JInt 0)] 1).

Definition two_files : dir :=
  mkDir {[ "a" := [Byte.x01; Byte.x02]; "b" := [Byte.x03] ]} ∅ None.

(** The same chunk files under two headers whose position mappings
    differ in the order of their entries only. *)
Definition shuffled_header : dir :=
  mkDir {[ "chunk-0" := [Byte.x01; Byte.x02] ]} ∅
        (header_record 1048576 [("c", JInt 1); ("b", JInt 0); ("a", JInt 0)] 2).

Definition ordered_header : dir :=
  mkDir {[ "chunk-0" := [Byte.x01; Byte.x02] ]} ∅
        (header_record 1048576 [("a", JInt 0); ("b", JInt 0); ("c", JInt 1)] 2).

(** A header in which the empty file [a] and its successor [b] have
    the same offset. *)
Definition tied_positions : list (string * json) :=
  [ ("bytes_per_chunk", JInt 1048576);
    ("positions", JObj [("a", JInt 0); ("b", JInt 0); ("c", JInt 1)]);
    ("total_bytes", JInt 2) ].

Definition tied_files : world :=
  mkWorld (mkDir {[ "chunk-0" := [Byte.x01; Byte.x02] ]} ∅
                 (Some (JsonText (JObj tied_positions))))
          empty_dir [] [].

(** A tree with one empty file. *)
Definition empty_file_tree : dir := mkDir {[ "b" := [] ]} ∅ None.

(** A session of capacity 2 that has taken the one byte of [b], before
    a file [a] of three bytes: [a] ends where the second chunk does. *)
Definition boundary_session : Chunker.state :=
  (Chunker.mkChunker 2 0 1 [("b", 0)] true (Some (chunk_name 0)) 1,
   mkWorld (mkDir {[ "a" := [Byte.x02; Byte.x03; Byte.x04] ]} ∅ None)
           (mkDir {[ chunk_name 0 := [Byte.x01] ]} ∅ None)
           [Writing (chunk_name 0)] [Reading "b"; Writing (chunk_name 0)]).

Definition one_mebibyte : bytes := replicate (Z.to_nat 1048576) Byte.x00.

Definition one_full_file : dir := mkDir {[ "a" := one_mebibyte ]} ∅ None.

(** Two files, [a] of one byte and [b] of two; the second chunk file,
    which held the last byte of [b], is gone. *)
Definition chunk_1_missing : world :=
  mkWorld (mkDir {[ "chunk-0" := [Byte.x01; Byte.x02] ]} ∅
                 (header_record 1048576 [("a", JInt 0); ("b", JInt 1)] 3))
          empty_dir [] [].


(** ** Frames, headers and open files *)

(** [keeps paths s s']: what no method of the dechunker changes on the
    way from [s] to [s']: the input directory, and the sub-directories
    and the header file of the output directory; of the files of the
    output directory only those named in [paths] may differ. *)
Definition keeps (paths : list string) (s s' : Dechunker.state) : Prop :=
  indir (snd s') = indir (snd s) ∧
  subdirs (outdir (snd s')) = subdirs (outdir (snd s)) ∧
  header_file (outdir (snd s')) = header_file (outdir (snd s)) ∧
  ∀ x, x ∉ paths → files (outdir (snd s')) !! x = files (outdir (snd s)) !! x.

(** The names under which a header records positions. *)
Definition header_names (d : dir) : list string :=
  match header_file d with
  | Some (JsonText (JObj kvs)) =>
      match dict_get "positions" kvs with
      | Some (JObj fp) => map fst fp
      | _ => []
      end
  | _ => []
  end.

(** A value on which [// (1024*1024)] raises [TypeError]. *)
Definition no_number (v : json) : Prop :=
  match v with
  | JNull | JStr _ | JArr _ | JObj _ => True
  | JBool _ | JInt _ => False
  end.

(** The header files on which the [try] block of [decode] raises, each
    for its reason: the file is not a JSON document; the document is not
    an object; [bytes_per_chunk] is missing or is not a number;
    [positions] is missing; [total_bytes] is missing. *)
Definition header_unreadable (t : text) : Prop :=
  match t with
  | Garbage => True
  | JsonText (JObj kvs) =>
      match dict_get "bytes_per_chunk" kvs with
      | None => True
      | Some b =>
          no_number b ∨ dict_get "positions" kvs = None ∨ dict_get "total_bytes" kvs = None
      end
  | JsonText _ => True
  end.

(** The session holds the file object of its chunk, and it is open. *)
Definition holds_chunk (s : Dechunker.state) : Prop :=
  ∃ i, Dechunker.chunk (fst s) = Some (chunk_name i) ∧
       Reading (chunk_name i) ∈ handles (snd s).

(** Every offset moved by [k]. *)
Definition shifted (k : Z) (fps : list (string * Z)) : list (string * Z) :=
  map (λ kv, (fst kv, snd kv + k)) fps.

Section ChunkerHandles.
Import Chunker.

(** Between two input files a session holds one open file, its chunk. *)
Definition neat (s : state) : Prop :=
  ∃ c, chunk (fst s) = Some c ∧ handles (snd s) = [Writing c].

(** After a failure the chunk may have been closed already. *)
Definition tidy (s : state) : Prop :=
  ∃ c, chunk (fst s) = Some c ∧ (handles (snd s) = [Writing c] ∨ handles (snd s) = []).

(** While the input file [name] is read, it and the chunk are open. *)
Definition busy (name : string) (s : state) : Prop :=
  ∃ c, chunk (fst s) = Some c ∧
       (handles (snd s) = [Reading name; Writing c] ∨
        handles (snd s) = [Writing c; Reading name]).

(** The next chunk could not be opened: the input file alone is open. *)
Definition stuck (name : string) (s : state) : Prop :=
  ∃ c, chunk (fst s) = Some c ∧ handles (snd s) = [Reading name].

End ChunkerHandles.

(** The same two-byte stream under the same header, in one chunk file
    and cut into two. *)
Definition stream_in_one_chunk : world :=
  mkWorld (mkDir {[ "chunk-0" := [Byte.x01; Byte.x02] ]} ∅
                 (header_record 1048576 [("a", JInt 0); ("b", JInt 1)] 2))
          empty_dir [] [].

Definition stream_in_two_chunks : world :=
  mkWorld (mkDir {[ "chunk-0" := [Byte.x01]; "chunk-1" := [Byte.x02] ]} ∅
                 (header_record 1048576 [("a", JInt 0); ("b", JInt 1)] 2))
          empty_dir [] [].

(** ** Directory trees *)

(** The components of a path, between its slashes. *)
Fixpoint components (p : string) : list string :=
  match p with
  | EmptyString => [EmptyString]
  | String c rest =>
      if Ascii.eqb c "/"%char then EmptyString :: components rest
      else match components rest with
           | first :: others => String c first :: others
           | [] => [String c EmptyString]
           end
  end.

(** A name a directory entry can have. *)
Definition plain (name : string) : bool :=
  negb (bool_decide (name = EmptyString)) && negb (has_slash name) &&
  negb (bool_decide (name = ".")) && negb (bool_decide (name = "..")).

(** A normalised relative path: every component is the name of an
    entry.  Such a path names a place below the directory it is joined
    to, and no other path names the same place. *)
Definition normal_path (p : string) : bool := forallb plain (components p).

(** A tree as a file system has it: in every directory the entries have
    plain names, no two the same. *)
Fixpoint well_named (t : node) : bool :=
  match t with
  | File _ => true
  | Folder entries =>
      bool_decide (NoDup (map fst entries)) &&
      forallb (λ e, plain (fst e) && well_named (snd e)) entries
  end.

(** The regular files below a directory, by their paths relative to it:
    the files of the directory itself, then those of its
    sub-directories. *)
Fixpoint contents (t : node) : list (string * bytes) :=
  match t with
  | File _ => []
  | Folder entries =>
      flat_map (λ e, match snd e with
                     | File data => [(fst e, data)]
                     | Folder _ => []
                     end) entries
      ++ flat_map (λ e, match snd e with
                        | Folder _ =>
                            map (λ kv, (fst e +:+ "/" +:+ fst kv, snd kv)) (contents (snd e))
                        | File _ => []
                        end) entries
  end.

(** The directories below a directory, by their relative paths. *)
Fixpoint folders (t : node) : list string :=
  match t with
  | File _ => []
  | Folder entries =>
      flat_map (λ e, match snd e with
                     | Folder _ =>
                         fst e :: map (λ p, fst e +:+ "/" +:+ p) (folders (snd e))
                     | File _ => []
                     end) entries
  end.

(** A tree in the representation of the sessions. *)
Definition tree_dir (t : node) : dir :=
  mkDir (list_to_map (contents t)) (list_to_set (folders t)) None.

(** The regular files of a tree. *)
Fixpoint count_files (t : node) : nat :=
  match t with
  | File _ => 1
  | Folder entries => foldr (λ e n, (count_files (snd e) + n)%nat) 0%nat entries
  end.

(** A directory with files at two levels and an empty sub-directory. *)
Definition sample_tree : node :=
  Folder [ ("x", File [Byte.x01]);
           ("d", Folder [ ("y", File [Byte.x02]); ("e", Folder []) ]);
           ("w", File []) ].

(** The directories of a tree, without its files. *)
Definition skeleton (t : node) : dir := mkDir ∅ (list_to_set (folders t)) None.

(** * Properties *)

(** ** The two loops, unfolded once *)

Lemma read_blocks_step n data s :
  Chunker.read_blocks n data s =
  match read_check n with
  | Some e => Raise e s
  | None =>
      match file_read n data with
      | ([], _) => Ok tt s
      | (b, rest) =>
          match Chunker.store_block b s with
          | Ok n' s' => Chunker.read_blocks n' rest s'
          | Raise e s' => Raise e s'
          end
      end
  end.
Proof.
  rewrite Chunker.read_blocks_equation_1.
  destruct (read_check n) as [e|]; [reflexivity|].
  unfold Chunker.read_blocks_unfold_clause_1.
  destruct (inspect (file_read n data)) as [[b rest] Hread].
  etransitivity; [|by rewrite Hread].
  destruct b as [|c b]; simpl; [done|].
  by destruct (Chunker.store_block (c :: b) s).
Qed.

(** The sizes between zero and the limit pass the check. *)
Lemma read_check_ok n : -1 ≤ n < 2 ^ 63 - 33 → read_check n = None.
Proof.
  intros Hn. unfold read_check.
  rewrite (proj2 (Z.ltb_ge n (- 2 ^ 63))) by lia.
  rewrite (proj2 (Z.leb_gt (2 ^ 63 - 33) n)) by lia.
  simpl. by rewrite (proj2 (Z.ltb_ge n (-1))) by lia.
Qed.

Lemma read_check_too_long n : 2 ^ 63 - 33 ≤ n → read_check n = Some OverflowError.
Proof.
  intros Hn. unfold read_check.
  rewrite (proj2 (Z.leb_le (2 ^ 63 - 33) n)) by lia. by rewrite orb_true_r.
Qed.

Lemma read_check_positive n e : 0 ≤ n → read_check n = Some e → 2 ^ 63 - 33 ≤ n ∧ e = OverflowError.
Proof.
  intros Hn. unfold read_check.
  rewrite (proj2 (Z.ltb_ge n (- 2 ^ 63))) by lia. simpl.
  destruct (Z.leb_spec (2 ^ 63 - 33) n); [by intros [= <-]|].
  by rewrite (proj2 (Z.ltb_ge n (-1))) by lia.
Qed.

Lemma write_blocks_step n file s :
  Dechunker.write_blocks n file s =
  if 0 <? n
  then match Dechunker.drain_step n file s with
       | Ok n' s' => Dechunker.write_blocks n' file s'
       | Raise e s' => Raise e s'
       end
  else Ok tt s.
Proof.
  rewrite Dechunker.write_blocks_equation_1.
  destruct (inspect (0 <? n)) as [b Hn].
  etransitivity; [|by rewrite Hn].
  destruct b; simpl; [|done].
  by destruct (Dechunker.drain_step n file s).
Qed.

(** ** Reading the header *)

Lemma read_header_needs_total_bytes kvs :
  dict_get "total_bytes" kvs = None → read_header (JsonText (JObj kvs)) = None.
Proof.
  intros Hnone. unfold read_header, getitem.
  destruct (dict_get "bytes_per_chunk" kvs) as [b|]; simpl; [|done].
  destruct (floordiv b (1024 * 1024)); simpl; [|done].
  destruct (dict_get "positions" kvs); simpl; [|done].
  by rewrite Hnone.
Qed.

(** C7: a header that parses as a record but has no [total_bytes] field
    makes [decode] raise the header-corrupt [ValueError]; the only file
    opened by then is the header itself, so no chunk file has been
    opened, and nothing else in the world has changed. *)
Theorem decode_header_without_total_bytes w kvs :
  header_file (indir w) = Some (JsonText (JObj kvs)) →
  dict_get "total_bytes" kvs = None →
  decode w = Raised (ValueError "Header file corrupted or invalid")
               (mkWorld (indir w) (outdir w) (handles w)
                        (Reading "header" :: opened w)).
Proof.
  intros Hh Hnone. unfold decode. rewrite Hh.
  rewrite (read_header_needs_total_bytes _ Hnone).
  reflexivity.
Qed.

Lemma decode_header_without_total_bytes_witness :
  decode (mkWorld header_without_total empty_dir [] [])
  = Raised (ValueError "Header file corrupted or invalid")
      (mkWorld header_without_total empty_dir [] [Reading "header"]).
Proof.
  apply (decode_header_without_total_bytes
           (mkWorld header_without_total empty_dir [] [])
           [ ("bytes_per_chunk", JInt 1048576); ("positions", JObj [("a", JInt 0)]) ]);
    reflexivity.
Defined.

(** ** Directory trees and open handles: runs of the code *)

(** C5: [decode] opens [outdir/d/c] without creating [outdir/d] first.
    On the chunk set of a tree with the file [d/c] and an output
    directory without [d], the [open] fails, [decode] returns [True],
    and the output directory is left as it was: no directory made, no
    file written. *)
Theorem decode_creates_no_parent_directory :
  decode (mkWorld nested_chunks empty_dir [] [])
  = Returned (Some (FileNotFoundError "d/c"))
      (mkWorld nested_chunks empty_dir
               [Reading "chunk-0"] [Reading "chunk-0"; Reading "header"]).
Proof. vm_compute. reflexivity. Qed.

(** C1: the round trip fails on that tree: [encode] succeeds and writes
    [nested_chunks], and [decode] of it into an empty directory
    reports an error and reconstructs nothing. *)
Theorem round_trip_fails_on_nested_tree :
  ∃ w1 w2,
    encode 1 ["d/c"] (mkWorld nested_tree empty_dir [] []) = Returned None w1 ∧
    outdir w1 = nested_chunks ∧
    decode (mkWorld (outdir w1) empty_dir [] [])
    = Returned (Some (FileNotFoundError "d/c")) w2 ∧
    files (outdir w2) = ∅ ∧
    files (outdir w2) ≠ files nested_tree.
Proof.
  eexists _, _. split; [vm_compute; reflexivity|].
  split; [vm_compute; reflexivity|].
  split; [vm_compute; reflexivity|].
  split; [reflexivity|].
  intros Heq. apply (f_equal (λ m, m !! "d/c")) in Heq.
  vm_compute in Heq. discriminate.
Qed.

(** C8: [decode] never calls [_Dechunker.close].  A successful run
    returns with the file object of the chunk it read last still open. *)
Theorem decode_returns_with_chunk_open :
  decode (mkWorld flat_chunks empty_dir [] [])
  = Returned None
      (mkWorld flat_chunks (mkDir {[ "a" := [Byte.x01] ]} ∅ None)
               [Reading "chunk-0"]
               [Writing "a"; Reading "chunk-0"; Reading "header"]).
Proof. vm_compute. reflexivity. Qed.

(** ** What the encoder leaves alone *)

Section ChunkerFrame.
Import Chunker.

Lemma stays_refl s : stays s s.
Proof. by constructor. Qed.

Lemma stays_trans s1 s2 s3 : stays s1 s2 → stays s2 s3 → stays s1 s3.
Proof.
  intros [] []. constructor; try congruence; auto.
Qed.

Lemma post_stays_step {A B} (r : res state A) (k : A → M state B) s :
  post r (stays s) →
  (∀ a s', post (k a s') (stays s')) →
  post (match r with Ok a s' => k a s' | Raise e s' => Raise e s' end) (stays s).
Proof.
  destruct r as [a s'|e s']; simpl; intros H Hk; [|done].
  specialize (Hk a s'). destruct (k a s'); simpl in *; eauto using stays_trans.
Qed.

Lemma switch_to_next_chunk_stays s : post (switch_to_next_chunk s) (stays s).
Proof.
  destruct s as [[bpc idx bi fp cw ch tcb] w].
  unfold switch_to_next_chunk, bind, get_self, update, sys, ret, open_wb; simpl.
  destruct ch as [c|]; simpl.
  all: destruct (decide _); simpl; [by constructor|].
  all: destruct (parent_exists _ _); simpl; by constructor.
Qed.

Lemma store_block_stays b s : post (store_block b s) (stays s).
Proof.
  destruct s as [[bpc idx bi fp cw ch tcb] w].
  unfold store_block, bind, get_self, update, sys, ret, raise, file_write; simpl.
  destruct ch as [c|]; simpl; [|by constructor].
  destruct (bool_decide (Writing c ∈ handles w)); simpl; [|by constructor].
  destruct (bpc - (tcb + Z.of_nat (length b)) =? 0); simpl; [|by constructor].
  match goal with |- context [switch_to_next_chunk ?s0] =>
    pose proof (switch_to_next_chunk_stays s0) as Hsw;
    destruct (switch_to_next_chunk s0) as [[] s1|e s1] end; simpl in *.
  - destruct Hsw. by constructor.
  - destruct Hsw. by constructor.
Qed.

Lemma read_blocks_stays data : ∀ n s, post (read_blocks n data s) (stays s).
Proof.
  remember (length data) as len eqn:Hlen. revert data Hlen.
  induction (lt_wf len) as [len _ IH]. intros data -> n s.
  rewrite read_blocks_step. destruct (read_check n); [apply stays_refl|].
  destruct (file_read n data) as [[|c b] rest] eqn:Hread; [apply stays_refl|].
  apply post_stays_step; [apply store_block_stays|].
  intros n' s'. eapply IH; [|done]. eapply file_read_shorter; eauto.
Qed.

(** [read_from_path] past its two guards. *)
Lemma read_from_path_fresh name s :
  can_write (fst s) = true →
  dict_mem name (file_positions (fst s)) = false →
  read_from_path name s =
  let self := set_file_positions
                (dict_set name (byte_index (fst s)) (file_positions (fst s))) (fst s) in
  match open_rb name (snd s) with
  | Ok data w' =>
      finally (read_blocks (bytes_per_chunk self - this_chunk_bytes self) data)
        (λ s, (fst s, file_close (Reading name) (snd s))) (self, w')
  | Raise e w' => Raise e (self, w')
  end.
Proof.
  destruct s as [self w]. simpl. intros Hcw Hmem.
  unfold read_from_path, bind, get_self, update, sys; simpl.
  rewrite Hcw, Hmem; simpl.
  by destruct (open_rb name w).
Qed.

Lemma read_from_path_duplicate name s :
  can_write (fst s) = true →
  dict_mem name (file_positions (fst s)) = true →
  read_from_path name s = Raise (KeyError name) s.
Proof.
  destruct s as [self w]. simpl. intros Hcw Hmem.
  unfold read_from_path, bind, get_self, raise; simpl.
  by rewrite Hcw, Hmem.
Qed.

Lemma read_from_path_closed name s :
  can_write (fst s) = false →
  read_from_path name s = Raise (Exception "Already closed! Cannot chunk more files.") s.
Proof.
  destruct s as [self w]. simpl. intros Hcw.
  unfold read_from_path, bind, get_self, raise; simpl.
  by rewrite Hcw.
Qed.

Lemma dict_get_set_eq {V} k (v : V) d : dict_get k (dict_set k v d) = Some v.
Proof.
  induction d as [|[k' v'] d IH]; simpl.
  - by rewrite decide_True.
  - destruct (decide (k = k')) as [->|Hne]; simpl.
    + by rewrite decide_True.
    + by rewrite decide_False.
Qed.

Lemma dict_get_set_ne {V} k k' (v : V) d :
  k ≠ k' → dict_get k' (dict_set k v d) = dict_get k' d.
Proof.
  intros Hne. induction d as [|[k0 v0] d IH]; simpl.
  - by rewrite decide_False by congruence.
  - destruct (decide (k = k0)) as [->|Hne0]; simpl.
    + by rewrite !decide_False by congruence.
    + by rewrite IH.
Qed.

Lemma dict_set_fresh {V} k (v : V) d :
  dict_get k d = None → dict_set k v d = d ++ [(k, v)].
Proof.
  induction d as [|[k' v'] d IH]; simpl; [done|].
  destruct (decide (k = k')); [done|]. intros H. by rewrite IH.
Qed.

Lemma dict_mem_set {V} k k' (v : V) d :
  dict_mem k' d = true → dict_mem k' (dict_set k v d) = true.
Proof.
  unfold dict_mem. destruct (decide (k = k')) as [->|Hne].
  - by rewrite dict_get_set_eq.
  - by rewrite dict_get_set_ne.
Qed.

Lemma read_from_path_stays name s : post (read_from_path name s) (stays s).
Proof.
  destruct (can_write (fst s)) eqn:Hcw;
    [|rewrite read_from_path_closed by done; apply stays_refl].
  destruct (dict_mem name (file_positions (fst s))) eqn:Hmem;
    [rewrite read_from_path_duplicate by done; apply stays_refl|].
  rewrite read_from_path_fresh by done. simpl.
  destruct s as [[bpc idx bi fp cw ch tcb] w]. simpl in *.
  unfold open_rb. destruct (decide _); simpl.
  { constructor; simpl; auto using dict_mem_set. }
  destruct (files (indir w) !! name) as [data|]; simpl.
  2: { constructor; simpl; auto using dict_mem_set. }
  unfold finally.
  match goal with |- context [read_blocks ?n ?d ?s0] =>
    pose proof (read_blocks_stays d n s0) as Hrb;
    destruct (read_blocks n d s0) as [[] s1|e s1] end; simpl in *.
  all: destruct Hrb; simpl in *; constructor; simpl; auto using dict_mem_set.
Qed.

Lemma read_from_path_records name s s' :
  read_from_path name s = Ok tt s' → dict_mem name (file_positions (fst s')) = true.
Proof.
  destruct (can_write (fst s)) eqn:Hcw;
    [|by rewrite read_from_path_closed].
  destruct (dict_mem name (file_positions (fst s))) eqn:Hmem;
    [by rewrite read_from_path_duplicate|].
  rewrite read_from_path_fresh by done. simpl.
  destruct (open_rb name (snd s)) as [data w'|]; [|done].
  unfold finally.
  match goal with |- context [read_blocks ?n ?d ?s0] =>
    pose proof (read_blocks_stays d n s0) as Hrb;
    destruct (read_blocks n d s0) as [[] s1|e s1] end; [|done].
  simpl in Hrb. intros [= <-]. simpl.
  apply Hrb. simpl. unfold dict_mem. by rewrite dict_get_set_eq.
Qed.

Lemma for_each_app {S A} (f : A → M S unit) l1 l2 s :
  for_each f (l1 ++ l2) s =
  match for_each f l1 s with
  | Ok _ s' => for_each f l2 s'
  | Raise e s' => Raise e s'
  end.
Proof.
  revert s. induction l1 as [|x l1 IH]; intros s; simpl; [done|].
  unfold bind. destruct (f x s) as [[] s'|e s']; [|done]. apply IH.
Qed.

Lemma for_each_stays names : ∀ s, post (for_each read_from_path names s) (stays s).
Proof.
  induction names as [|name names IH]; intros s; simpl; [apply stays_refl|].
  unfold bind. apply post_stays_step; [apply read_from_path_stays|].
  intros _ s'. apply IH.
Qed.

(** A name consumed without error is on record from then on. *)
Lemma for_each_records names name s s' :
  for_each read_from_path names s = Ok tt s' → name ∈ names →
  dict_mem name (file_positions (fst s')) = true.
Proof.
  revert s. induction names as [|x names IH]; intros s Hrun Hin.
  { by apply elem_of_nil in Hin. }
  simpl in Hrun. unfold bind in Hrun.
  destruct (read_from_path x s) as [[] s1|] eqn:Hx; [|done].
  apply elem_of_cons in Hin as [->|Hin]; [|by eapply IH].
  pose proof (for_each_stays names s1) as Hst. rewrite Hrun in Hst. simpl in Hst.
  apply Hst. by eapply read_from_path_records.
Qed.

End ChunkerFrame.

(** ** Duplicate names *)

Lemma init_has_chunk mb w s0 :
  Chunker.init mb w = Ok tt s0 → is_Some (Chunker.chunk (fst s0)).
Proof.
  unfold Chunker.init, Chunker.switch_to_next_chunk, bind, get_self, update, sys, ret; simpl.
  destruct (open_wb _ _); [|done]. intros [= <-]. by eexists.
Qed.

Lemma init_stays mb w s0 :
  Chunker.init mb w = Ok tt s0 →
  Chunker.can_write (fst s0) = true ∧
  Chunker.bytes_per_chunk (fst s0) = mb * 1024 * 1024 ∧
  indir (snd s0) = indir w ∧
  subdirs (outdir (snd s0)) = subdirs (outdir w) ∧
  header_file (outdir (snd s0)) = header_file (outdir w).
Proof.
  unfold Chunker.init. intros Hinit.
  match type of Hinit with Chunker.switch_to_next_chunk ?s = _ =>
    pose proof (switch_to_next_chunk_stays s) as Hst end.
  rewrite Hinit in Hst. by destruct Hst.
Qed.

Lemma close_keeps_outdir s :
  is_Some (Chunker.chunk (fst s)) →
  ∃ s', Chunker.close s = Ok tt s' ∧ outdir (snd s') = outdir (snd s).
Proof.
  destruct s as [[bpc idx bi fp cw ch tcb] w]. simpl. intros [c ->].
  unfold Chunker.close, bind, update, get_self, sys; simpl. by eexists.
Qed.

(** C4: in a session whose enumeration holds [name] twice, consuming the
    second entry raises [KeyError name] (when the entries before it were
    consumed without error; otherwise the session has already failed),
    [encode] returns [True], and the header file of the output directory
    is what it was before the session: none is written. *)
Theorem encode_rejects_duplicate_name mb w pre name mid rest s0 :
  Chunker.init mb w = Ok tt s0 →
  ∃ e w',
    encode mb (pre ++ name :: mid ++ name :: rest) w = Returned (Some e) w' ∧
    header_file (outdir w') = header_file (outdir w) ∧
    ∀ s1, for_each Chunker.read_from_path (pre ++ name :: mid) s0 = Ok tt s1 →
          Chunker.read_from_path name s1 = Raise (KeyError name) s1 ∧
          e = KeyError name.
Proof.
  intros Hinit. destruct (init_stays _ _ _ Hinit) as (Hcw & _ & _ & _ & Hhdr).
  pose proof (init_has_chunk _ _ _ Hinit) as Hchunk.
  unfold encode. rewrite Hinit.
  replace (pre ++ name :: mid ++ name :: rest)
    with ((pre ++ name :: mid) ++ name :: rest) by (by rewrite <- app_assoc).
  rewrite for_each_app.
  pose proof (for_each_stays (pre ++ name :: mid) s0) as Hst.
  destruct (for_each Chunker.read_from_path (pre ++ name :: mid) s0)
    as [[] s1|e s1] eqn:Hrun; simpl in Hst.
  - assert (Hdup : Chunker.read_from_path name s1 = Raise (KeyError name) s1).
    { apply read_from_path_duplicate.
      - by rewrite (stays_can_write _ _ Hst).
      - eapply for_each_records; [done|]. set_solver. }
    simpl. unfold bind at 1. rewrite Hdup.
    destruct (close_keeps_outdir s1) as (s2 & -> & Hcl); [by apply (stays_chunk _ _ Hst)|].
    eexists _, _. split; [done|]. split; [by rewrite Hcl, (stays_header _ _ Hst)|].
    by intros ? [= <-].
  - destruct (close_keeps_outdir s1) as (s2 & -> & Hcl); [by apply (stays_chunk _ _ Hst)|].
    eexists _, _. split; [done|]. split; [by rewrite Hcl, (stays_header _ _ Hst)|].
    done.
Qed.

Lemma encode_rejects_duplicate_name_witness :
  ∃ e w',
    encode 1 (["b"] ++ "a" :: [] ++ "a" :: []) (mkWorld two_files empty_dir [] [])
    = Returned (Some e) w' ∧
    header_file (outdir w') = None ∧
    ∀ s1, for_each Chunker.read_from_path (["b"] ++ "a" :: [])
            (Chunker.mkChunker 1048576 0 0 [] true (Some "chunk-0") 0,
             mkWorld two_files (mkDir {[ "chunk-0" := [] ]} ∅ None)
                     [Writing "chunk-0"] [Writing "chunk-0"]) = Ok tt s1 →
          Chunker.read_from_path "a" s1 = Raise (KeyError "a") s1 ∧
          e = KeyError "a".
Proof.
  apply (encode_rejects_duplicate_name 1 (mkWorld two_files empty_dir [] [])
           ["b"] "a" [] []).
  vm_compute. reflexivity.
Defined.

(** ** The decoder never reads its capacity *)

Section DechunkerAlike.
Import Dechunker.

Ltac open_alike H :=
  match type of H with
  | alike ?s1 ?s2 =>
      destruct s1 as [[bpc1 idx1 cr1 ch1 un1] [[f1 sd1 h1] o1 hs1 op1]];
      destruct s2 as [[bpc2 idx2 cr2 ch2 un2] [[f2 sd2 h2] o2 hs2 op2]];
      unfold alike in H; simpl in H;
      destruct H as (? & ? & ? & ? & ? & ? & ? & ? & ?); subst
  end.

Lemma switch_to_next_chunk_alike s1 s2 :
  alike s1 s2 → alike_res (switch_to_next_chunk s1) (switch_to_next_chunk s2).
Proof.
  intros H. open_alike H.
  unfold switch_to_next_chunk, bind, get_self, update, sys, ret, open_rb; simpl.
  destruct ch2 as [c|]; simpl.
  all: destruct (decide _); simpl; [by repeat split|].
  all: destruct (f2 !! chunk_name (idx2 + 1)); simpl; by repeat split.
Qed.

Lemma drain_step_alike n file s1 s2 :
  alike s1 s2 → alike_res (drain_step n file s1) (drain_step n file s2).
Proof.
  intros H.
  assert (Hread : alike_res (chunk_read n s1) (chunk_read n s2)).
  { open_alike H. unfold chunk_read, bind, get_self, raise; simpl.
    destruct ch2 as [c|]; simpl; [|by repeat split].
    destruct (read_check n); [by repeat split|].
    destruct (bool_decide _); [|by repeat split].
    destruct (file_read n un2); by repeat split. }
  unfold drain_step, bind.
  destruct (chunk_read n s1) as [b1 t1|e1 t1], (chunk_read n s2) as [b2 t2|e2 t2];
    simpl in Hread; try done.
  destruct Hread as [<- Ht]. destruct b1 as [|x b1].
  - pose proof (switch_to_next_chunk_alike _ _ Ht) as Hsw.
    destruct (switch_to_next_chunk t1) as [[] u1|], (switch_to_next_chunk t2) as [[] u2|];
      simpl in *; try done. by destruct Hsw.
  - open_alike Ht. unfold sys, file_write, ret; simpl.
    destruct (bool_decide _); simpl; by repeat split.
Qed.

Lemma write_blocks_alike file s1 : ∀ n s2,
  alike s1 s2 → alike_res (write_blocks n file s1) (write_blocks n file s2).
Proof.
  induction (later_well_founded s1) as [s1 _ IH]. intros n s2 H.
  rewrite !write_blocks_step. destruct (0 <? n); [|done].
  pose proof (drain_step_alike n file _ _ H) as Hstep.
  destruct (drain_step n file s1) as [n1 t1|e1 t1] eqn:H1,
           (drain_step n file s2) as [n2 t2|e2 t2]; simpl in Hstep; try done.
  destruct Hstep as [<- Ht]. apply IH; [|done].
  eapply drain_step_later; eauto.
Qed.

Lemma write_n_bytes_alike n path s1 s2 :
  alike s1 s2 → alike_res (write_n_bytes n path s1) (write_n_bytes n path s2).
Proof.
  intros H.
  assert (Hopen : alike_res (sys (open_wb path) s1) (sys (open_wb path) s2)).
  { open_alike H. unfold sys, open_wb; simpl.
    destruct (decide _); simpl; [by repeat split|].
    destruct (parent_exists _ _); simpl; by repeat split. }
  assert (Hcr : can_read (fst s1) = can_read (fst s2)) by apply H.
  unfold write_n_bytes, bind, get_self, raise. rewrite Hcr.
  destruct (negb (can_read (fst s2))); [done|].
  destruct (sys (open_wb path) s1) as [[] t1|], (sys (open_wb path) s2) as [[] t2|];
    simpl in Hopen; try done.
  destruct Hopen as [_ Ht]. unfold finally.
  pose proof (write_blocks_alike path t1 n t2 Ht) as Hwb.
  destruct (write_blocks n path t1) as [[] u1|], (write_blocks n path t2) as [[] u2|];
    simpl in Hwb; try done.
  all: destruct Hwb as [? Hu]; split; [done|].
  all: open_alike Hu; by repeat split.
Qed.

Lemma reconstruct_alike fps total : ∀ s1 s2,
  alike s1 s2 → alike_res (reconstruct fps total s1) (reconstruct fps total s2).
Proof.
  induction fps as [|this rest IH]; intros s1 s2 H; simpl; [done|].
  destruct (py_sub _ _) as [len|]; [|done].
  unfold bind. pose proof (write_n_bytes_alike len (fst this) _ _ H) as Hw.
  destruct (write_n_bytes len this.1 s1) as [[] t1|],
           (write_n_bytes len this.1 s2) as [[] t2|]; simpl in Hw; try done.
  apply IH. by destruct Hw.
Qed.

End DechunkerAlike.

(** C10: two runs of [decode] on the same chunk files whose headers
    differ only in the integer stored as [bytes_per_chunk] end alike:
    the same exception or return value, the same output directory with
    the same reconstructed files, the same open handles. *)
Theorem decode_ignores_bytes_per_chunk w kvs b b' :
  header_file (indir w) = Some (JsonText (JObj kvs)) →
  dict_get "bytes_per_chunk" kvs = Some (JInt b) →
  decode w ≠ Unmodelled →
  same_result
    (decode w)
    (decode (with_header
               (Some (JsonText (JObj (dict_set "bytes_per_chunk" (JInt b') kvs)))) w)).
Proof.
  intros Hh Hb. unfold decode. simpl. rewrite Hh.
  unfold read_header, getitem. rewrite Hb, dict_get_set_eq. simpl.
  rewrite !dict_get_set_ne by done.
  destruct (dict_get "positions" kvs) as [fp|]; simpl; [|by repeat split].
  destruct (dict_get "total_bytes" kvs) as [total|]; simpl; [|by repeat split].
  destruct (items fp) as [entries|]; [|by repeat split].
  destruct (sorted_items entries) as [fps|]; [|done].
  intros _. unfold Dechunker.init.
  match goal with |- context [same_result
      match Dechunker.switch_to_next_chunk ?s1 with _ => _ end
      match Dechunker.switch_to_next_chunk ?s2 with _ => _ end] =>
    assert (Hal : alike s1 s2) by (by repeat split);
    pose proof (switch_to_next_chunk_alike _ _ Hal) as Hsw;
    destruct (Dechunker.switch_to_next_chunk s1) as [[] t1|e1 t1],
             (Dechunker.switch_to_next_chunk s2) as [[] t2|e2 t2]
  end; simpl in Hsw; try done.
  - destruct Hsw as [_ Ht].
    pose proof (reconstruct_alike fps total _ _ Ht) as Hr.
    destruct (reconstruct fps total t1) as [[] u1|], (reconstruct fps total t2) as [[] u2|];
      simpl in Hr; try done.
    + destruct Hr as (_ & _ & _ & _ & _ & _ & _ & ? & ? & ?). by repeat split.
    + destruct Hr as (-> & _ & _ & _ & _ & _ & _ & ? & ? & ?). by repeat split.
  - destruct Hsw as (-> & _ & _ & _ & _ & _ & _ & ? & ? & ?). by repeat split.
Qed.

Lemma decode_ignores_bytes_per_chunk_witness :
  same_result
    (decode (mkWorld flat_chunks empty_dir [] []))
    (decode (with_header
               (Some (JsonText (JObj (dict_set "bytes_per_chunk" (JInt 7)
                  [ ("bytes_per_chunk", JInt 1048576);
                    ("positions", JObj [("a", JInt 0)]);
                    ("total_bytes", JInt 1) ]))))
               (mkWorld flat_chunks empty_dir [] []))).
Proof.
  apply (decode_ignores_bytes_per_chunk (mkWorld flat_chunks empty_dir [] [])
           [ ("bytes_per_chunk", JInt 1048576);
             ("positions", JObj [("a", JInt 0)]);
             ("total_bytes", JInt 1) ] 1048576 7); [reflexivity|reflexivity|].
  vm_compute. discriminate.
Defined.

(** ** The order in which the header stores the positions *)

(** The sort is stable: it leaves the entries of one offset in the
    order in which they were stored. *)
Lemma at_offset_insert z x l :
  at_offset z (insert_by_offset x l)
  = if decide (offset_of x = z) then x :: at_offset z l else at_offset z l.
Proof.
  unfold at_offset. induction l as [|y l IH]; simpl.
  - by rewrite filter_cons, filter_nil.
  - destruct (Z.leb_spec (offset_of x) (offset_of y)) as [Hle|Hgt].
    + by rewrite (filter_cons _ x).
    + rewrite !(filter_cons _ y), IH.
      destruct (decide (offset_of x = z)), (decide (offset_of y = z)); try done. lia.
Qed.

Lemma at_offset_sort z l : at_offset z (sort_by_offset l) = at_offset z l.
Proof.
  induction l as [|x l IH]; [done|].
  change (sort_by_offset (x :: l)) with (insert_by_offset x (sort_by_offset l)).
  rewrite at_offset_insert, IH. unfold at_offset. by rewrite filter_cons.
Qed.

(** What is sorted is sorted: the offsets ascend. *)
Lemma insert_by_offset_Sorted x l :
  Sorted (λ a b, offset_of a ≤ offset_of b) l →
  Sorted (λ a b, offset_of a ≤ offset_of b) (insert_by_offset x l).
Proof.
  induction 1 as [|y l Hs IH Hhd]; simpl; [by repeat constructor|].
  destruct (Z.leb_spec (offset_of x) (offset_of y)).
  - by repeat constructor.
  - constructor; [done|]. destruct Hhd as [|z l Hyz]; simpl.
    + constructor. lia.
    + destruct (offset_of x <=? offset_of z); constructor; lia.
Qed.

Lemma sort_by_offset_Sorted l :
  Sorted (λ a b, offset_of a ≤ offset_of b) (sort_by_offset l).
Proof.
  induction l as [|x l IH]; simpl; [constructor|].
  by apply insert_by_offset_Sorted.
Qed.

(** C9, as stated, fails when two entries share an offset, as the
    empty file [a] and its successor [b] do: stored as [c, b, a] the
    sort keeps [b] before [a], and [a] receives the byte of [b]. *)
Lemma decode_depends_on_order_of_equal_offsets :
  ∃ w1 w2,
    decode (mkWorld shuffled_header empty_dir [] []) = Returned None w1 ∧
    decode (mkWorld ordered_header empty_dir [] []) = Returned None w2 ∧
    files (outdir w1) = {[ "a" := [Byte.x01]; "b" := []; "c" := [Byte.x02] ]} ∧
    files (outdir w2) = {[ "a" := []; "b" := [Byte.x01]; "c" := [Byte.x02] ]} ∧
    files (outdir w1) ≠ files (outdir w2).
Proof.
  eexists _, _. split; [vm_compute; reflexivity|].
  split; [vm_compute; reflexivity|].
  split; [vm_compute; reflexivity|].
  split; [vm_compute; reflexivity|].
  intros Heq. apply (f_equal (λ m, m !! "a")) in Heq.
  vm_compute in Heq. discriminate.
Qed.

#[local] Instance offset_le_transitive :
  Transitive (λ a b : string * json, offset_of a ≤ offset_of b).
Proof. intros a b c. lia. Qed.

(** A sorted list is determined by the entries it has at every offset
    and their order. *)
Lemma Sorted_at_offset_eq l1 : ∀ l2,
  Sorted (λ a b, offset_of a ≤ offset_of b) l1 →
  Sorted (λ a b, offset_of a ≤ offset_of b) l2 →
  (∀ z, at_offset z l1 = at_offset z l2) → l1 = l2.
Proof.
  unfold at_offset.
  induction l1 as [|x l1 IH]; intros l2 Hs1 Hs2 Hz.
  { destruct l2 as [|y l2]; [done|]. specialize (Hz (offset_of y)).
    by rewrite filter_nil, filter_cons_True in Hz. }
  destruct l2 as [|y l2].
  { specialize (Hz (offset_of x)). by rewrite filter_nil, filter_cons_True in Hz. }
  apply Sorted_StronglySorted in Hs1, Hs2; try apply _.
  apply StronglySorted_inv in Hs1 as [Hs1 Hx], Hs2 as [Hs2 Hy].
  rewrite Forall_forall in Hx, Hy.
  assert (Hxy : offset_of x ≤ offset_of y).
  { assert (Hin : y ∈ x :: l1).
    { pose proof (Hz (offset_of y)) as H. rewrite (filter_cons_True _ y) in H by done.
      assert (Hy' : y ∈ filter (λ kv, offset_of kv = offset_of y) (x :: l1))
        by (rewrite H; by left).
      by apply list_elem_of_filter in Hy' as [_ ?]. }
    apply elem_of_cons in Hin as [->|Hin]; [lia|by apply Hx]. }
  assert (Hyx : offset_of y ≤ offset_of x).
  { assert (Hin : x ∈ y :: l2).
    { pose proof (Hz (offset_of x)) as H. rewrite (filter_cons_True _ x) in H by done.
      assert (Hx' : x ∈ filter (λ kv, offset_of kv = offset_of x) (y :: l2))
        by (rewrite <- H; by left).
      by apply list_elem_of_filter in Hx' as [_ ?]. }
    apply elem_of_cons in Hin as [->|Hin]; [lia|by apply Hy]. }
  assert (Heq : offset_of x = offset_of y) by lia.
  pose proof (Hz (offset_of x)) as H0.
  rewrite (filter_cons_True _ x), (filter_cons_True _ y) in H0 by done.
  injection H0 as -> H0. f_equal.
  apply IH; [by apply StronglySorted_Sorted|by apply StronglySorted_Sorted|].
  intros z. destruct (decide (offset_of y = z)) as [<-|Hne]; [done|].
  specialize (Hz z). by rewrite !filter_cons_False in Hz.
Qed.

(** Where the offsets are pairwise distinct, every permutation leaves
    the entries of one offset in their order: there is at most one. *)
Lemma at_offset_short z l : NoDup (map offset_of l) → (length (at_offset z l) ≤ 1)%nat.
Proof.
  unfold at_offset. induction l as [|x l IH]; simpl; [lia|].
  intros [Hx Hnd]%NoDup_cons. rewrite filter_cons.
  destruct (decide (offset_of x = z)) as [<-|Hne]; [|by apply IH].
  destruct (filter (λ kv, offset_of kv = offset_of x) l) as [|y r] eqn:Hf; [simpl; lia|].
  exfalso. apply Hx.
  assert (Hy : y ∈ filter (λ kv, offset_of kv = offset_of x) l) by (rewrite Hf; by left).
  apply list_elem_of_filter in Hy as [<- Hy]. apply list_elem_of_fmap. by exists y.
Qed.

Lemma at_offset_distinct l l' :
  NoDup (map offset_of l) → l ≡ₚ l' → ∀ z, at_offset z l = at_offset z l'.
Proof.
  intros Hnd Hp z. pose proof (at_offset_short z l Hnd) as Hlen.
  assert (Hperm : at_offset z l ≡ₚ at_offset z l') by (unfold at_offset; by rewrite Hp).
  destruct (at_offset z l) as [|x [|y r]]; simpl in Hlen; try lia.
  - apply Permutation_nil_l in Hperm. congruence.
  - apply Permutation_singleton_l in Hperm. congruence.
Qed.

Lemma sort_by_offset_tied l l' :
  (∀ z, at_offset z l = at_offset z l') → sort_by_offset l = sort_by_offset l'.
Proof.
  intros Hz. apply Sorted_at_offset_eq; try apply sort_by_offset_Sorted.
  intros z. by rewrite !at_offset_sort.
Qed.

Lemma sorted_items_tied l l' :
  l ≡ₚ l' → (∀ z, at_offset z l = at_offset z l') → sorted_items l = sorted_items l'.
Proof.
  intros Hp Hz. unfold sorted_items.
  rewrite <- (Permutation_length Hp).
  destruct (length l <=? 1)%nat eqn:Hlen.
  - apply Nat.leb_le in Hlen. f_equal.
    destruct l as [|x [|y l]]; simpl in Hlen; try lia.
    + by apply Permutation_nil_l in Hp.
    + by apply Permutation_singleton_l in Hp.
  - assert (Hall : forallb (λ kv, bool_decide (is_Some (as_int kv.2))) l
                 = forallb (λ kv, bool_decide (is_Some (as_int kv.2))) l').
    { apply eq_true_iff_eq. rewrite !forallb_forall.
      split; intros H x Hx; apply H; revert Hx; rewrite <- !list_elem_of_In.
      - by rewrite Hp.
      - by rewrite <- Hp. }
    rewrite <- Hall. destruct (forallb _ l); [|done].
    f_equal. by apply sort_by_offset_tied.
Qed.

(** What [sorted_items] yields for integer offsets is sorted, and stable. *)
Lemma sorted_items_sorted l :
  Forall (λ kv, is_Some (as_int (snd kv))) l →
  ∃ sorted, sorted_items l = Some sorted ∧
            Sorted (λ a b, offset_of a ≤ offset_of b) sorted ∧
            ∀ z, at_offset z sorted = at_offset z l.
Proof.
  intros Hint. unfold sorted_items. destruct (length l <=? 1)%nat eqn:Hlen.
  - eexists; split; [done|]. split; [|done]. apply Nat.leb_le in Hlen.
    destruct l as [|x [|y l]]; simpl in Hlen; try lia; by repeat constructor.
  - assert (forallb (λ kv, bool_decide (is_Some (as_int kv.2))) l = true) as ->.
    { apply forallb_forall. intros x Hx. apply bool_decide_eq_true.
      rewrite Forall_forall in Hint. apply Hint. by apply list_elem_of_In. }
    eexists; split; [done|]. split; [apply sort_by_offset_Sorted|].
    intros z. apply at_offset_sort.
Qed.

(** *** The order in which the files are opened *)

Section DechunkerLog.
Import Dechunker.

Lemma switch_to_next_chunk_written s :
  post (switch_to_next_chunk s)
    (λ s', written (opened (snd s')) = written (opened (snd s))).
Proof.
  destruct s as [[bpc idx cr ch un] w].
  unfold switch_to_next_chunk, bind, get_self, update, sys, ret, open_rb; simpl.
  destruct ch as [c|]; simpl.
  all: destruct (decide _); simpl; [done|].
  all: by destruct (files (indir w) !! chunk_name (idx + 1)).
Qed.

Lemma drain_step_written n file s :
  post (drain_step n file s)
    (λ s', written (opened (snd s')) = written (opened (snd s))).
Proof.
  destruct s as [[bpc idx cr ch un] w].
  unfold drain_step, chunk_read, bind, get_self, raise; simpl.
  destruct ch as [c|]; simpl; [|done].
  destruct (read_check n); [done|].
  destruct (bool_decide _); [|done].
  destruct (file_read n un) as [b rest]. destruct b as [|x b].
  - match goal with |- context [switch_to_next_chunk ?t] =>
      pose proof (switch_to_next_chunk_written t) as Hsw;
      destruct (switch_to_next_chunk t) as [[] t'|e t'] end; exact Hsw.
  - unfold sys, file_write, ret; simpl. by destruct (bool_decide _).
Qed.

Lemma write_blocks_written file s : ∀ n,
  post (write_blocks n file s)
    (λ s', written (opened (snd s')) = written (opened (snd s))).
Proof.
  induction (later_well_founded s) as [s _ IH]. intros n.
  rewrite write_blocks_step. destruct (0 <? n); [|done].
  pose proof (drain_step_written n file s) as Hstep.
  destruct (drain_step n file s) as [n1 t|e t] eqn:H1; simpl in Hstep; [|done].
  specialize (IH t (drain_step_later _ _ _ _ _ H1) n1).
  destruct (write_blocks n1 file t); simpl in *; congruence.
Qed.

Lemma write_n_bytes_written n path s :
  match write_n_bytes n path s with
  | Ok _ s' => written (opened (snd s')) = path :: written (opened (snd s))
  | Raise _ s' =>
      written (opened (snd s')) = path :: written (opened (snd s)) ∨
      written (opened (snd s')) = written (opened (snd s))
  end.
Proof.
  unfold write_n_bytes, bind, get_self, raise.
  destruct (negb (can_read (fst s))); [by right|].
  destruct s as [self w]. unfold sys, open_wb; simpl.
  destruct (decide _); simpl; [by right|].
  destruct (parent_exists _ _); simpl; [|by right].
  unfold finally.
  match goal with |- context [write_blocks n path ?t] =>
    pose proof (write_blocks_written path t n) as Hwb;
    destruct (write_blocks n path t) as [[] u|e u] end; simpl in *; [done|by left].
Qed.

Lemma reconstruct_written total fps : ∀ s,
  match reconstruct fps total s with
  | Ok _ s' => written (opened (snd s')) = rev (map fst fps) ++ written (opened (snd s))
  | Raise _ s' =>
      ∃ k, written (opened (snd s')) = rev (map fst (take k fps)) ++ written (opened (snd s))
  end.
Proof.
  induction fps as [|this rest IH]; intros s; simpl; [done|].
  destruct (py_sub _ _) as [len|]; [|by exists 0%nat].
  unfold bind. pose proof (write_n_bytes_written len (fst this) s) as Hw.
  destruct (write_n_bytes len this.1 s) as [[] t|e t].
  - specialize (IH t).
    destruct (reconstruct rest total t) as [[] u|e u].
    + by rewrite IH, Hw, <- app_assoc.
    + destruct IH as [k Hk]. exists (S k). simpl. by rewrite Hk, Hw, <- app_assoc.
  - destruct Hw as [Hw|Hw]; [exists 1%nat; simpl; by rewrite Hw|by exists 0%nat].
Qed.

End DechunkerLog.

(** [decode] opens the files it writes in the order of the sorted
    entries, as far as it gets. *)
Lemma decode_extraction_order w t mb fp total kvs sorted :
  header_file (indir w) = Some t →
  read_header t = Some (mb, fp, total) →
  items fp = Some kvs →
  sorted_items kvs = Some sorted →
  match decode w with
  | Returned caught w' =>
      ∃ k, written (opened w') = rev (map fst (take k sorted)) ++ written (opened w) ∧
           (caught = None → k = length sorted)
  | Raised _ w' => written (opened w') = written (opened w)
  | Unmodelled => False
  end.
Proof.
  intros Hh Hread Hitems Hsorted. unfold decode. rewrite Hh, Hread, Hitems, Hsorted.
  unfold Dechunker.init.
  match goal with |- context [Dechunker.switch_to_next_chunk ?s0] =>
    pose proof (switch_to_next_chunk_written s0) as H0;
    destruct (Dechunker.switch_to_next_chunk s0) as [[] s|e s] end; simpl in H0; [|done].
  pose proof (reconstruct_written total sorted s) as Hrec.
  destruct (reconstruct sorted total s) as [[] s'|e s'].
  - exists (length sorted). by rewrite firstn_all, Hrec, H0.
  - destruct Hrec as [k Hk]. exists k. by rewrite Hk, H0.
Qed.

(** The two headers of C9: the same record, with the positions stored
    as [fp] and as [fp']. *)
Lemma decode_stored_order w kvs fp fp' :
  header_file (indir w) = Some (JsonText (JObj kvs)) →
  dict_get "positions" kvs = Some (JObj fp) →
  Forall (λ kv, is_Some (as_int (snd kv))) fp →
  fp ≡ₚ fp' →
  NoDup (map offset_of fp) ∨ (∀ z, at_offset z fp = at_offset z fp') →
  same_result
    (decode w)
    (decode (with_header
               (Some (JsonText (JObj (dict_set "positions" (JObj fp') kvs)))) w)) ∧
  ∃ sorted,
    sorted_items fp' = Some sorted ∧
    Sorted (λ a b, offset_of a ≤ offset_of b) sorted ∧
    (∀ z, at_offset z sorted = at_offset z fp') ∧
    (∀ b mb total,
       dict_get "bytes_per_chunk" kvs = Some b →
       floordiv b (1024 * 1024) = Some mb →
       dict_get "total_bytes" kvs = Some total →
       decode (with_header
                 (Some (JsonText (JObj (dict_set "positions" (JObj fp') kvs)))) w)
       = match Dechunker.init mb
                 (file_close (Reading "header") (opening (Reading "header")
                    (with_header
                       (Some (JsonText (JObj (dict_set "positions" (JObj fp') kvs)))) w)))
         with
         | Raise e s => Raised e (snd s)
         | Ok _ s =>
             match reconstruct sorted total s with
             | Ok _ s' => Returned None (snd s')
             | Raise e s' => Returned (Some e) (snd s')
             end
         end) ∧
    match decode (with_header
                    (Some (JsonText (JObj (dict_set "positions" (JObj fp') kvs)))) w) with
    | Returned caught w' =>
        ∃ k, written (opened w') = rev (map fst (take k sorted)) ++ written (opened w) ∧
             (caught = None → k = length sorted)
    | Raised _ w' => written (opened w') = written (opened w)
    | Unmodelled => False
    end.
Proof.
  intros Hh Hfp Hint Hp Hz.
  assert (Hz' : ∀ z, at_offset z fp = at_offset z fp').
  { destruct Hz as [Hnd|Hz]; [|done]. by apply at_offset_distinct. }
  clear Hz. rename Hz' into Hz.
  destruct (sorted_items_sorted fp Hint) as (fps & Hfps & Hsorted & Hstable).
  pose proof (sorted_items_tied _ _ Hp Hz) as Hsame. rewrite Hfps in Hsame.
  split; [|exists fps; split; [done|]; split; [done|]; split; [|split]].
  - unfold decode. simpl. rewrite Hh.
    unfold read_header, getitem. rewrite Hfp, dict_get_set_eq.
    rewrite !dict_get_set_ne by done.
    destruct (dict_get "bytes_per_chunk" kvs) as [b|]; simpl; [|by repeat split].
    destruct (floordiv b (1024 * 1024)) as [mb|]; simpl; [|by repeat split].
    destruct (dict_get "total_bytes" kvs) as [total|]; simpl; [|by repeat split].
    rewrite <- Hsame, Hfps.
    unfold Dechunker.init.
    match goal with |- context [same_result
        match Dechunker.switch_to_next_chunk ?s1 with _ => _ end
        match Dechunker.switch_to_next_chunk ?s2 with _ => _ end] =>
      assert (Hal : alike s1 s2) by (by repeat split);
      pose proof (switch_to_next_chunk_alike _ _ Hal) as Hsw;
      destruct (Dechunker.switch_to_next_chunk s1) as [[] t1|e1 t1],
               (Dechunker.switch_to_next_chunk s2) as [[] t2|e2 t2]
    end; simpl in Hsw; try done.
    + destruct Hsw as [_ Ht].
      pose proof (reconstruct_alike fps total _ _ Ht) as Hr.
      destruct (reconstruct fps total t1) as [[] u1|], (reconstruct fps total t2) as [[] u2|];
        simpl in Hr; try done.
      * destruct Hr as (_ & _ & _ & _ & _ & _ & _ & ? & ? & ?). by repeat split.
      * destruct Hr as (-> & _ & _ & _ & _ & _ & _ & ? & ? & ?). by repeat split.
    + destruct Hsw as (-> & _ & _ & _ & _ & _ & _ & ? & ? & ?). by repeat split.
  - intros z. by rewrite Hstable.
  - intros b mb total Hb Hmb Htotal. unfold decode at 1. simpl.
    unfold read_header, getitem. rewrite dict_get_set_eq.
    rewrite !dict_get_set_ne by done. rewrite Hb. simpl. rewrite Hmb. simpl.
    rewrite Htotal. simpl. by rewrite <- Hsame.
  - destruct (dict_get "bytes_per_chunk" kvs) as [b|] eqn:Hb.
    2: { unfold decode. simpl. unfold read_header, getitem.
         rewrite dict_get_set_eq, !dict_get_set_ne by done. by rewrite Hb. }
    destruct (floordiv b (1024 * 1024)) as [mb|] eqn:Hmb.
    2: { unfold decode. simpl. unfold read_header, getitem.
         rewrite dict_get_set_eq, !dict_get_set_ne by done. rewrite Hb. simpl.
         by rewrite Hmb. }
    destruct (dict_get "total_bytes" kvs) as [total|] eqn:Htotal.
    2: { unfold decode. simpl. unfold read_header, getitem.
         rewrite dict_get_set_eq, !dict_get_set_ne by done. rewrite Hb. simpl.
         rewrite Hmb. simpl. by rewrite Htotal. }
    apply (decode_extraction_order
             (with_header (Some (JsonText (JObj (dict_set "positions" (JObj fp') kvs)))) w)
             (JsonText (JObj (dict_set "positions" (JObj fp') kvs)))
             mb (JObj fp') total fp' fps); [done| |done|by rewrite <- Hsame].
    unfold read_header, getitem. rewrite dict_get_set_eq, !dict_get_set_ne by done.
    rewrite Hb. simpl. rewrite Hmb. simpl. by rewrite Htotal.
Qed.

(** C9, amended: for a header with integer offsets, [decode] ends alike
    for every stored order of the positions mapping when the offsets
    are pairwise distinct, and otherwise for every stored order that
    leaves the entries of one offset in their order.  The entries are sorted by
    offset ascending, those of one offset stay in stored order; on the
    sorted list [decode] runs its loop, which computes each length from
    an entry and its successor, and the files are opened for writing in
    the order of that list. *)
Theorem decode_ignores_stored_order w kvs fp fp' :
  header_file (indir w) = Some (JsonText (JObj kvs)) →
  dict_get "positions" kvs = Some (JObj fp) →
  Forall (λ kv, is_Some (as_int (snd kv))) fp →
  fp ≡ₚ fp' →
  NoDup (map offset_of fp) ∨ (∀ z, at_offset z fp = at_offset z fp') →
  same_result
    (decode w)
    (decode (with_header
               (Some (JsonText (JObj (dict_set "positions" (JObj fp') kvs)))) w)) ∧
  ∃ sorted,
    sorted_items fp' = Some sorted ∧
    Sorted (λ a b, offset_of a ≤ offset_of b) sorted ∧
    (∀ z, at_offset z sorted = at_offset z fp') ∧
    (∀ b mb total,
       dict_get "bytes_per_chunk" kvs = Some b →
       floordiv b (1024 * 1024) = Some mb →
       dict_get "total_bytes" kvs = Some total →
       decode (with_header
                 (Some (JsonText (JObj (dict_set "positions" (JObj fp') kvs)))) w)
       = match Dechunker.init mb
                 (file_close (Reading "header") (opening (Reading "header")
                    (with_header
                       (Some (JsonText (JObj (dict_set "positions" (JObj fp') kvs)))) w)))
         with
         | Raise e s => Raised e (snd s)
         | Ok _ s =>
             match reconstruct sorted total s with
             | Ok _ s' => Returned None (snd s')
             | Raise e s' => Returned (Some e) (snd s')
             end
         end) ∧
    match decode (with_header
                    (Some (JsonText (JObj (dict_set "positions" (JObj fp') kvs)))) w) with
    | Returned caught w' =>
        ∃ k, written (opened w') = rev (map fst (take k sorted)) ++ written (opened w) ∧
             (caught = None → k = length sorted)
    | Raised _ w' => written (opened w') = written (opened w)
    | Unmodelled => False
    end.
Proof. apply decode_stored_order. Qed.

Lemma decode_ignores_stored_order_witness :
  same_result
    (decode tied_files)
    (decode (with_header
               (Some (JsonText (JObj (dict_set "positions"
                  (JObj [("c", JInt 1); ("a", JInt 0); ("b", JInt 0)]) tied_positions))))
               tied_files)) ∧
  ∃ sorted,
    sorted_items [("c", JInt 1); ("a", JInt 0); ("b", JInt 0)] = Some sorted ∧
    Sorted (λ a b, offset_of a ≤ offset_of b) sorted ∧
    (∀ z, at_offset z sorted
          = at_offset z [("c", JInt 1); ("a", JInt 0); ("b", JInt 0)]) ∧
    (∀ b mb total,
       dict_get "bytes_per_chunk" tied_positions = Some b →
       floordiv b (1024 * 1024) = Some mb →
       dict_get "total_bytes" tied_positions = Some total →
       decode (with_header
                 (Some (JsonText (JObj (dict_set "positions"
                    (JObj [("c", JInt 1); ("a", JInt 0); ("b", JInt 0)]) tied_positions))))
                 tied_files)
       = match Dechunker.init mb
                 (file_close (Reading "header") (opening (Reading "header")
                    (with_header
                       (Some (JsonText (JObj (dict_set "positions"
                          (JObj [("c", JInt 1); ("a", JInt 0); ("b", JInt 0)])
                          tied_positions))))
                       tied_files)))
         with
         | Raise e s => Raised e (snd s)
         | Ok _ s =>
             match reconstruct sorted total s with
             | Ok _ s' => Returned None (snd s')
             | Raise e s' => Returned (Some e) (snd s')
             end
         end) ∧
    match decode (with_header
                    (Some (JsonText (JObj (dict_set "positions"
                       (JObj [("c", JInt 1); ("a", JInt 0); ("b", JInt 0)])
                       tied_positions))))
                    tied_files) with
    | Returned caught w' =>
        ∃ k, written (opened w') = rev (map fst (take k sorted)) ++ written (opened tied_files) ∧
             (caught = None → k = length sorted)
    | Raised _ w' => written (opened w') = written (opened tied_files)
    | Unmodelled => False
    end.
Proof.
  apply (decode_ignores_stored_order tied_files tied_positions
           [("a", JInt 0); ("b", JInt 0); ("c", JInt 1)]
           [("c", JInt 1); ("a", JInt 0); ("b", JInt 0)]).
  - reflexivity.
  - reflexivity.
  - repeat constructor; eexists; reflexivity.
  - symmetry. apply (Permutation_cons_append [_; _]).
  - right. intros z. unfold at_offset. rewrite !filter_cons, !filter_nil.
    unfold offset_of. simpl. repeat case_decide; try done; lia.
Defined.

(** ** Chunk names *)

Lemma has_slash_pretty_N_go x : ∀ s, has_slash (pretty_N_go x s) = has_slash s.
Proof.
  induction (N.lt_wf_0 x) as [x _ IH]; intros s.
  assert (x = 0 ∨ 0 < x)%N as [->|Hpos] by lia.
  - by rewrite pretty_N_go_0.
  - rewrite pretty_N_go_step by done. rewrite IH by (by apply N.div_lt).
    simpl. unfold pretty_N_char. by repeat case_match.
Qed.

Lemma has_slash_pretty_Z (i : Z) : has_slash (pretty i) = false.
Proof.
  assert (HN : ∀ n : N, has_slash (pretty n) = false).
  { intros n. unfold pretty, pretty_N. case_decide; [done|].
    by rewrite has_slash_pretty_N_go. }
  destruct i as [|p|p]; [done|apply HN|].
  unfold pretty, pretty_Z. simpl. apply HN.
Qed.

Lemma has_slash_app s t : has_slash (s +:+ t) = has_slash s || has_slash t.
Proof. induction s as [|c s IH]; simpl; [done|]. by rewrite IH, orb_assoc. Qed.

Lemma dirname_no_slash p : has_slash p = false → dirname p = EmptyString.
Proof.
  destruct p as [|c p]; simpl; [done|].
  intros H. apply orb_false_iff in H as [_ ->]. done.
Qed.

Example chunk_name_0 : chunk_name 0 = "chunk-0".
Proof. reflexivity. Qed.

Example chunk_name_12 : chunk_name 12 = "chunk-12".
Proof. reflexivity. Qed.

Example dirname_nested : dirname "a/b/c.txt" = "a/b".
Proof. reflexivity. Qed.

Example dirname_flat : dirname "c.txt" = "".
Proof. reflexivity. Qed.

(** A chunk file lies directly in its directory. *)
Lemma dirname_chunk_name i : dirname (chunk_name i) = EmptyString.
Proof.
  apply dirname_no_slash. unfold chunk_name.
  by rewrite has_slash_app, has_slash_pretty_Z.
Qed.

(** A path without a slash has nothing above it. *)
Lemma ancestors_from_no_slash p : ∀ before,
  has_slash p = false → ancestors_from before p = [].
Proof.
  induction p as [|c p IH]; intros before; simpl; [done|].
  intros [Hc Hp]%orb_false_iff. rewrite Hc. by apply IH.
Qed.

Lemma missing_error_no_slash d p :
  has_slash p = false → missing_error d p = FileNotFoundError p.
Proof.
  intros Hp. unfold missing_error, ancestors. by rewrite ancestors_from_no_slash.
Qed.

Lemma missing_error_chunk_name d i :
  missing_error d (chunk_name i) = FileNotFoundError (chunk_name i).
Proof.
  apply missing_error_no_slash. unfold chunk_name.
  by rewrite has_slash_app, has_slash_pretty_Z.
Qed.

Lemma open_wb_chunk i w :
  chunk_name i ∉ subdirs (outdir w) →
  open_wb (chunk_name i) w =
  Ok tt (opening (Writing (chunk_name i))
           (set_outdir (set_files (<[chunk_name i := []]> (files (outdir w))) (outdir w)) w)).
Proof.
  intros Hfree. unfold open_wb, parent_exists.
  rewrite decide_False by done.
  by rewrite dirname_chunk_name.
Qed.

Lemma elem_of_remove_first h h' hs :
  h ≠ h' → h ∈ hs → h ∈ remove_first h' hs.
Proof.
  intros Hne. induction hs as [|x hs IH]; simpl; [done|].
  intros Hin. apply elem_of_cons in Hin as [->|Hin].
  - rewrite decide_False by done. by left.
  - destruct (decide (h' = x)); [done|]. right. by apply IH.
Qed.

(** ** What the encoder writes *)

Section ChunkerSpec.
Import Chunker.

(** [store_block], computed: the block goes to the current chunk file;
    when that fills it, the next chunk file is opened on the spot. *)
Lemma store_block_eq bpc idx bi fp cw cn tcb D out hs op b :
  Writing cn ∈ hs →
  store_block b (mkChunker bpc idx bi fp cw (Some cn) tcb, mkWorld D out hs op) =
  let tcb' := tcb + Z.of_nat (length b) in
  let bi' := bi + Z.of_nat (length b) in
  let out1 := set_files (<[cn := default [] (files out !! cn) ++ b]> (files out)) out in
  if bpc - tcb' =? 0
  then match open_wb (chunk_name (idx + 1))
               (mkWorld D out1 (remove_first (Writing cn) hs) op) with
       | Ok _ w' => Ok bpc (mkChunker bpc (idx + 1) bi' fp cw (Some (chunk_name (idx + 1))) 0, w')
       | Raise e w' => Raise e (mkChunker bpc (idx + 1) bi' fp cw (Some cn) 0, w')
       end
  else Ok (bpc - tcb') (mkChunker bpc idx bi' fp cw (Some cn) tcb', mkWorld D out1 hs op).
Proof.
  intros Hopen.
  unfold store_block, bind, get_self, update, sys, ret, file_write; simpl.
  rewrite bool_decide_eq_true_2 by done. simpl.
  destruct (bpc - (tcb + Z.of_nat (length b)) =? 0); [|done].
  unfold switch_to_next_chunk, bind, get_self, update, sys, ret; simpl.
  unfold file_close, set_handles; simpl.
  by destruct (open_wb _ _).
Qed.

End ChunkerSpec.

(** ** The invariant of an encode session *)

Section ChunkerInvariant.
Import Chunker.

(** A block shorter than the room left stays in the current chunk. *)
Lemma store_block_fits bpc fp full cur b s :
  writing bpc fp full cur s →
  Z.of_nat (length b) < bpc - Z.of_nat (length cur) →
  ∃ s', store_block b s = Ok (bpc - Z.of_nat (length (cur ++ b))) s' ∧
        writing bpc fp full (cur ++ b) s' ∧
        opened (snd s') = opened (snd s).
Proof.
  destruct s as [self [D out hs op]].
  intros (Hself & (Hfull & Hcur & Hdisk & Hlast) & Hopen) Hlen.
  simpl in *. subst self.
  rewrite store_block_eq by done. simpl. rewrite Hlast. simpl.
  rewrite (proj2 (Z.eqb_neq _ _)) by lia.
  rewrite (length_app cur b), Nat2Z.inj_add.
  eexists. split; [done|].
  rewrite <- Nat2Z.inj_add, <- length_app.
  split; [|done]. split; [|split]; simpl.
  - rewrite !length_app. f_equal; lia.
  - split; [|split; [|split]]; [done|rewrite length_app; lia| |].
    + intros j c Hj. rewrite lookup_insert_ne; [by apply Hdisk|].
      intros Heq. apply chunk_name_inj in Heq. apply lookup_lt_Some in Hj. lia.
    + by rewrite lookup_insert_eq.
  - done.
Qed.

(** A block that takes all the room left closes the current chunk, and
    the next chunk file is opened, empty, at once. *)
Lemma store_block_fills bpc fp full cur b s :
  writing bpc fp full cur s →
  Z.of_nat (length b) = bpc - Z.of_nat (length cur) →
  chunk_name (Z.of_nat (length full) + 1) ∉ subdirs (outdir (snd s)) →
  ∃ s', store_block b s = Ok bpc s' ∧
        writing bpc fp (full ++ [cur ++ b]) [] s' ∧
        opened (snd s') = Writing (chunk_name (Z.of_nat (length full) + 1)) :: opened (snd s).
Proof.
  destruct s as [self [D out hs op]].
  intros (Hself & (Hfull & Hcur & Hdisk & Hlast) & Hopen) Hlen Hfree.
  simpl in *. subst self.
  rewrite store_block_eq by done. simpl. rewrite Hlast. simpl.
  rewrite (proj2 (Z.eqb_eq _ _)) by lia.
  rewrite open_wb_chunk by done. simpl.
  eexists. split; [done|]. split; [|done]. split; [|split]; simpl.
  - rewrite concat_app. simpl. rewrite ?app_nil_r, ?length_app. simpl.
    f_equal; try lia. do 2 f_equal. lia.
  - split; [|split; [|split]].
    + apply Forall_app. split; [done|]. repeat constructor. rewrite length_app. lia.
    + simpl. lia.
    + intros j c Hj. apply lookup_app_Some in Hj as [Hj|[Hge Hj]].
      * rewrite lookup_insert_ne, lookup_insert_ne.
        -- by apply Hdisk.
        -- intros Heq. apply chunk_name_inj in Heq. apply lookup_lt_Some in Hj. lia.
        -- intros Heq. apply chunk_name_inj in Heq. apply lookup_lt_Some in Hj. lia.
      * destruct (j - length full)%nat eqn:Hd; simpl in Hj; [|done].
        injection Hj as <-. assert (j = length full) as -> by lia.
        rewrite lookup_insert_ne, lookup_insert_eq; [done|].
        intros Heq. apply chunk_name_inj in Heq. lia.
    + rewrite length_app. simpl.
      replace (Z.of_nat (length full + 1)) with (Z.of_nat (length full) + 1) by lia.
      by rewrite lookup_insert_eq.
  - rewrite length_app. simpl.
    replace (Z.of_nat (length full + 1)) with (Z.of_nat (length full) + 1) by lia.
    by left.
Qed.

Lemma store_block_blocked bpc fp full cur b s :
  writing bpc fp full cur s →
  Z.of_nat (length b) = bpc - Z.of_nat (length cur) →
  chunk_name (Z.of_nat (length full) + 1) ∈ subdirs (outdir (snd s)) →
  ∃ e s', store_block b s = Raise e s'.
Proof.
  destruct s as [self [D out hs op]].
  intros (Hself & (Hfull & Hcur & Hdisk & Hlast) & Hopen) Hlen Hdir.
  simpl in *. subst self.
  rewrite store_block_eq by done. simpl.
  rewrite (proj2 (Z.eqb_eq _ _)) by lia.
  unfold open_wb. simpl. rewrite decide_True by done. by eexists _, _.
Qed.

Lemma store_block_writing bpc fp full cur b s :
  writing bpc fp full cur s →
  Z.of_nat (length b) ≤ bpc - Z.of_nat (length cur) →
  match store_block b s with
  | Ok n' s' =>
      ∃ full' cur', writing bpc fp full' cur' s' ∧
                    concat full' ++ cur' = (concat full ++ cur) ++ b ∧
                    n' = bpc - Z.of_nat (length cur')
  | Raise _ _ => blocked (outdir (snd s))
  end.
Proof.
  intros Hw Hlen.
  destruct (decide (Z.of_nat (length b) = bpc - Z.of_nat (length cur))) as [Hfill|Hroom].
  - destruct (decide (chunk_name (Z.of_nat (length full) + 1) ∈ subdirs (outdir (snd s))))
      as [Hdir|Hfree].
    + destruct (store_block_blocked _ _ _ _ _ _ Hw Hfill Hdir) as (e & s' & ->). by eexists.
    + destruct (store_block_fills _ _ _ _ _ _ Hw Hfill Hfree) as (s' & -> & Hw' & _).
      exists (full ++ [cur ++ b]), []. split; [done|]. split; [|simpl; lia].
      rewrite concat_app. simpl. by rewrite !app_nil_r, !app_assoc.
  - destruct (store_block_fits _ _ _ _ b _ Hw) as (s' & -> & Hw' & _); [lia|].
    exists full, (cur ++ b). split; [done|]. split; [by rewrite app_assoc|done].
Qed.

Lemma blocked_stays s s' : stays s s' → blocked (outdir (snd s')) → blocked (outdir (snd s)).
Proof. intros Hst [j Hj]. exists j. by rewrite <- (stays_subdirs _ _ Hst). Qed.

Lemma read_blocks_writing bpc fp data : ∀ full cur s,
  writing bpc fp full cur s →
  match read_blocks (bpc - Z.of_nat (length cur)) data s with
  | Ok _ s' =>
      ∃ full' cur', writing bpc fp full' cur' s' ∧
                    concat full' ++ cur' = (concat full ++ cur) ++ data
  | Raise _ _ => blocked (outdir (snd s)) ∨ 2 ^ 63 - 33 ≤ bpc
  end.
Proof.
  remember (length data) as len eqn:Hlen. revert data Hlen.
  induction (lt_wf len) as [len _ IH]. intros data -> full cur s Hw.
  assert (Hroom : 0 < bpc - Z.of_nat (length cur)) by (destruct Hw as (_ & (_ & ? & _) & _); lia).
  rewrite read_blocks_step.
  destruct (read_check (bpc - Z.of_nat (length cur))) as [e|] eqn:Hcheck.
  { apply read_check_positive in Hcheck; lia. }
  destruct (file_read (bpc - Z.of_nat (length cur)) data) as [[|c b] rest] eqn:Hread.
  - exists full, cur. split; [done|].
    unfold file_read in Hread. rewrite (proj2 (Z.ltb_ge _ _)) in Hread by lia.
    injection Hread as Htake _. destruct data; [by rewrite app_nil_r|].
    destruct (Z.to_nat (bpc - Z.of_nat (length cur))) eqn:Hn; [lia|done].
  - pose proof (file_read_shorter _ _ _ _ _ Hread) as Hshort.
    unfold file_read in Hread. rewrite (proj2 (Z.ltb_ge _ _)) in Hread by lia.
    injection Hread as Htake Hdrop.
    pose proof (store_block_writing bpc fp full cur (c :: b) s Hw) as Hsb.
    pose proof (store_block_stays (c :: b) s) as Hst.
    destruct (store_block (c :: b) s) as [n' s'|e s']; simpl in Hst.
    + destruct Hsb as (full' & cur' & Hw' & Hcat & ->).
      { rewrite <- Htake, length_take. lia. }
      specialize (IH _ Hshort rest eq_refl full' cur' s' Hw').
      destruct (read_blocks _ rest s') as [[] s''|e s''].
      * destruct IH as (full'' & cur'' & Hw'' & Hcat'').
        exists full'', cur''. split; [done|].
        rewrite Hcat'', Hcat, <- Htake, <- Hdrop, <- !app_assoc. by rewrite take_drop.
      * destruct IH as [Hb|Hbig]; [left; by eapply blocked_stays|by right].
    + left. apply Hsb. rewrite <- Htake, length_take. lia.
Qed.

Lemma read_from_path_writing bpc fp full cur name s :
  writing bpc fp full cur s →
  match read_from_path name s with
  | Ok _ s' =>
      ∃ data full' cur',
        dict_get name fp = None ∧
        files (indir (snd s)) !! name = Some data ∧
        writing bpc (fp ++ [(name, Z.of_nat (length (concat full ++ cur)))]) full' cur' s' ∧
        concat full' ++ cur' = (concat full ++ cur) ++ data
  | Raise _ _ =>
      (blocked (outdir (snd s)) ∨ 2 ^ 63 - 33 ≤ bpc) ∨ dict_mem name fp = true ∨
      files (indir (snd s)) !! name = None ∨ name ∈ subdirs (indir (snd s))
  end.
Proof.
  intros Hw. destruct s as [self [D out hs op]].
  pose proof Hw as (Hself & Hdisk & Hopen). simpl in *.
  destruct (dict_mem name fp) eqn:Hmem.
  { rewrite read_from_path_duplicate by (by subst self). auto. }
  rewrite read_from_path_fresh by (by subst self). simpl.
  unfold open_rb. simpl.
  destruct (decide (name ∈ subdirs D)); [auto|].
  destruct (files D !! name) as [data|] eqn:Hdata; [|auto].
  unfold finally. subst self. simpl.
  assert (Hfresh : dict_get name fp = None).
  { unfold dict_mem in Hmem. by destruct (dict_get name fp). }
  rewrite dict_set_fresh by done.
  match goal with |- context [read_blocks _ data ?s0] =>
    assert (Hw0 : writing bpc (fp ++ [(name, Z.of_nat (length (concat full ++ cur)))])
                    full cur s0) end.
  { split; [done|]. split; [done|]. simpl. by right. }
  pose proof (read_blocks_writing bpc _ data full cur _ Hw0) as Hrb.
  destruct (read_blocks _ data _) as [[] [self' w']|e s'].
  - destruct Hrb as (full' & cur' & Hw' & Hcat).
    exists data, full', cur'. split; [done|]. split; [done|]. split; [|done].
    split; [apply Hw'|]. split; [apply Hw'|].
    simpl. apply elem_of_remove_first; [done|apply Hw'].
  - by left.
Qed.

(** A file whose bytes are exactly the room left in the current chunk. *)
Lemma read_from_path_exact_fill bpc fp full cur name data s :
  writing bpc fp full cur s →
  dict_get name fp = None →
  files (indir (snd s)) !! name = Some data →
  name ∉ subdirs (indir (snd s)) →
  Z.of_nat (length data) = bpc - Z.of_nat (length cur) →
  chunk_name (Z.of_nat (length full) + 1) ∉ subdirs (outdir (snd s)) →
  bpc < 2 ^ 63 - 33 →
  ∃ s', read_from_path name s = Ok tt s' ∧
        writing bpc (fp ++ [(name, Z.of_nat (length (concat full ++ cur)))])
          (full ++ [cur ++ data]) [] s' ∧
        opened (snd s') =
          Writing (chunk_name (Z.of_nat (length full) + 1)) :: Reading name :: opened (snd s).
Proof.
  intros Hw Hfresh Hdata Hfile Hlen Hfree Hsmall. destruct s as [self [D out hs op]].
  pose proof Hw as (Hself & Hdisk & Hopen). simpl in *.
  assert (Hpos : 0 < Z.of_nat (length data)) by (destruct Hdisk as (_ & ? & _); lia).
  rewrite read_from_path_fresh; simpl.
  2: by subst self.
  2: { subst self. simpl. unfold dict_mem. by rewrite Hfresh. }
  unfold open_rb. simpl. rewrite decide_False by done. rewrite Hdata.
  unfold finally. subst self. simpl. rewrite dict_set_fresh by done.
  match goal with |- context [read_blocks _ data ?s0] =>
    assert (Hw0 : writing bpc (fp ++ [(name, Z.of_nat (length (concat full ++ cur)))])
                    full cur s0) by (split; [done|]; split; [done|]; simpl; by right);
    destruct (store_block_fills _ _ _ _ data s0 Hw0 Hlen Hfree) as (s1 & Hsb & Hw1 & Hlog)
  end.
  rewrite read_blocks_step, read_check_ok by lia. unfold file_read.
  rewrite (proj2 (Z.ltb_ge _ _)) by lia.
  rewrite <- Hlen, Nat2Z.id, firstn_all, skipn_all.
  destruct data as [|c data]; [simpl in Hpos; lia|].
  rewrite Hsb. rewrite read_blocks_step, read_check_ok by (simpl in Hlen; lia).
  unfold file_read.
  destruct (bpc <? 0); rewrite ?take_nil; simpl.
  all: eexists; split; [done|]; simpl; split; [|done].
  all: destruct s1 as [self1 w1]; destruct Hw1 as (? & ? & ?); split; [done|]; split; [done|].
  all: simpl; by apply elem_of_remove_first.
Qed.

Lemma dict_mem_app {V} k (d1 d2 : list (string * V)) :
  dict_mem k (d1 ++ d2) = dict_mem k d1 || dict_mem k d2.
Proof.
  unfold dict_mem. induction d1 as [|[k' v] d1 IH]; simpl; [done|].
  destruct (decide (k = k')); [done|]. apply IH.
Qed.

Lemma for_each_writing bpc names : ∀ fp full cur s,
  writing bpc fp full cur s →
  match for_each read_from_path names s with
  | Ok _ s' =>
      ∃ entries full' cur',
        map fst entries = names ∧
        Forall (λ e, files (indir (snd s)) !! fst e = Some (snd e)) entries ∧
        writing bpc (fp ++ offsets_from (Z.of_nat (length (concat full ++ cur))) entries)
          full' cur' s' ∧
        concat full' ++ cur' = (concat full ++ cur) ++ concat (map snd entries)
  | Raise _ _ =>
      (blocked (outdir (snd s)) ∨ 2 ^ 63 - 33 ≤ bpc) ∨ ¬ NoDup names ∨
      ∃ name, name ∈ names ∧
              (dict_mem name fp = true ∨ files (indir (snd s)) !! name = None ∨
               name ∈ subdirs (indir (snd s)))
  end.
Proof.
  induction names as [|name names IH]; intros fp full cur s Hw; simpl.
  { exists [], full, cur. by rewrite !app_nil_r. }
  unfold bind.
  pose proof (read_from_path_writing bpc fp full cur name s Hw) as Hone.
  pose proof (read_from_path_stays name s) as Hst.
  destruct (read_from_path name s) as [[] s1|e s1]; simpl in Hst.
  - destruct Hone as (data & full1 & cur1 & Hfresh & Hdata & Hw1 & Hcat1).
    specialize (IH _ full1 cur1 s1 Hw1).
    destruct (for_each read_from_path names s1) as [[] s2|e s2].
    + destruct IH as (entries & full2 & cur2 & Hnames & Hall & Hw2 & Hcat2).
      exists ((name, data) :: entries), full2, cur2. simpl.
      split; [by rewrite Hnames|]. split; [|split].
      * constructor; [done|]. by rewrite <- (stays_indir _ _ Hst).
      * rewrite Hcat1, <- app_assoc in Hw2.
        rewrite (length_app (concat full ++ cur) data), Nat2Z.inj_add in Hw2. exact Hw2.
      * by rewrite Hcat2, Hcat1, <- !app_assoc.
    + rewrite (stays_indir _ _ Hst) in IH.
      destruct IH as [[Hb|Hbig]|[Hnd|(x & Hx & [Hmem|Hmiss])]].
      * left; left. by eapply blocked_stays.
      * left; by right.
      * right; left. intros Hnd'. apply Hnd. by apply NoDup_cons in Hnd' as [_ ?].
      * rewrite dict_mem_app in Hmem. apply orb_true_iff in Hmem as [Hmem|Hmem].
        -- right; right. exists x. split; [by right|by left].
        -- right; left. intros Hnd'. apply NoDup_cons in Hnd' as [Hnin _].
           apply Hnin. unfold dict_mem in Hmem. simpl in Hmem.
           destruct (decide (x = name)) as [->|]; done.
      * right; right. exists x. split; [by right|by right].
  - destruct Hone as [Hb|[Hmem|Hmiss]].
    + by left.
    + right; right. exists name. split; [by left|by left].
    + right; right. exists name. split; [by left|by right].
Qed.

(** *** The files a session opens for writing *)

Lemma written_app l1 l2 : written (l1 ++ l2) = written l1 ++ written l2.
Proof. apply flat_map_app. Qed.

Lemma written_cons_Writing p l : written (Writing p :: l) = p :: written l.
Proof. reflexivity. Qed.

Lemma chunks_down_app i k1 k2 :
  chunks_down i (k1 + k2) = chunks_down (i + Z.of_nat k1) k2 ++ chunks_down i k1.
Proof.
  induction k2 as [|k2 IH].
  - by rewrite Nat.add_0_r.
  - rewrite Nat.add_succ_r. cbn [chunks_down app]. rewrite IH. do 2 f_equal. lia.
Qed.

Lemma trace_refl s : trace 0 s s.
Proof. split; [simpl; lia|]. by split. Qed.

Lemma trace_trans k1 k2 s s1 s2 :
  trace k1 s s1 → trace k2 s1 s2 → trace (k1 + k2) s s2.
Proof.
  intros (Hi1 & Hl1 & Hf1) (Hi2 & Hl2 & Hf2). split; [lia|]. split.
  - by rewrite Hl2, Hl1, chunks_down_app, Hi1, app_assoc.
  - intros p Hp. rewrite Hf2, Hf1; [done| |]; intros j Hj; apply Hp; lia.
Qed.

Lemma store_block_trace bpc fp full cur b s n' s' :
  writing bpc fp full cur s →
  store_block b s = Ok n' s' → ∃ k, trace k s s'.
Proof.
  destruct s as [self [D out hs op]].
  intros (Hself & _ & Hopen). simpl in *. subst self.
  rewrite store_block_eq by done. simpl. destruct (_ =? 0).
  - destruct (decide (chunk_name (Z.of_nat (length full) + 1) ∈ subdirs out)) as [Hdir|Hfree].
    { unfold open_wb. simpl. by rewrite decide_True. }
    rewrite open_wb_chunk by done. intros [= _ <-]. exists 1%nat.
    split; [simpl; lia|]. split; [done|]. simpl. intros p Hp.
    rewrite !lookup_insert_ne; [done| |]; intros Heq; refine (Hp _ _ (eq_sym Heq)); lia.
  - intros [= _ <-]. exists 0%nat. split; [simpl; lia|]. split; [done|]. simpl. intros p Hp.
    rewrite lookup_insert_ne; [done|]. intros Heq. refine (Hp _ _ (eq_sym Heq)). lia.
Qed.

Lemma read_blocks_trace bpc fp data : ∀ full cur s s',
  writing bpc fp full cur s →
  read_blocks (bpc - Z.of_nat (length cur)) data s = Ok tt s' → ∃ k, trace k s s'.
Proof.
  remember (length data) as len eqn:Hlen. revert data Hlen.
  induction (lt_wf len) as [len _ IH]. intros data -> full cur s s' Hw.
  assert (Hroom : 0 < bpc - Z.of_nat (length cur)) by (destruct Hw as (_ & (_ & ? & _) & _); lia).
  rewrite read_blocks_step.
  destruct (read_check (bpc - Z.of_nat (length cur))); [done|].
  destruct (file_read (bpc - Z.of_nat (length cur)) data) as [[|c b] rest] eqn:Hread.
  { intros [= <-]. exists 0%nat. apply trace_refl. }
  pose proof (file_read_shorter _ _ _ _ _ Hread) as Hshort.
  unfold file_read in Hread. rewrite (proj2 (Z.ltb_ge _ _)) in Hread by lia.
  injection Hread as Htake Hdrop.
  pose proof (store_block_writing bpc fp full cur (c :: b) s Hw) as Hsb.
  destruct (store_block (c :: b) s) as [n1 s1|e s1] eqn:Hstore; [|done].
  destruct Hsb as (full1 & cur1 & Hw1 & _ & ->).
  { rewrite <- Htake, length_take. lia. }
  destruct (store_block_trace _ _ _ _ _ _ _ _ Hw Hstore) as [k1 Hk1].
  intros Hrest. destruct (IH _ Hshort rest eq_refl full1 cur1 s1 s' Hw1 Hrest) as [k2 Hk2].
  exists (k1 + k2)%nat. by eapply trace_trans.
Qed.

Lemma read_from_path_trace bpc fp full cur name s s' :
  writing bpc fp full cur s →
  read_from_path name s = Ok tt s' → ∃ k, trace k s s'.
Proof.
  intros Hw. destruct s as [self [D out hs op]].
  pose proof Hw as (Hself & Hdisk & Hopen). simpl in *.
  destruct (dict_mem name fp) eqn:Hmem.
  { by rewrite read_from_path_duplicate by (by subst self). }
  rewrite read_from_path_fresh by (by subst self). simpl.
  unfold open_rb. simpl.
  destruct (decide (name ∈ subdirs D)); [done|].
  destruct (files D !! name) as [data|] eqn:Hdata; [|done].
  unfold finally. subst self. simpl.
  match goal with |- context [read_blocks _ data ?s0] =>
    assert (Hw0 : writing bpc (dict_set name (Z.of_nat (length (concat full ++ cur))) fp)
                    full cur s0) end.
  { split; [done|]. split; [done|]. simpl. by right. }
  destruct (read_blocks _ data _) as [[] s1|e s1] eqn:Hrb; [|done].
  destruct (read_blocks_trace _ _ _ _ _ _ _ Hw0 Hrb) as (k & Hi & Hl & Hf).
  intros [= <-]. exists k. by repeat split.
Qed.

Lemma for_each_trace bpc names : ∀ fp full cur s s',
  writing bpc fp full cur s →
  for_each read_from_path names s = Ok tt s' → ∃ k, trace k s s'.
Proof.
  induction names as [|name names IH]; intros fp full cur s s' Hw; simpl.
  { intros [= <-]. exists 0%nat. apply trace_refl. }
  unfold bind.
  pose proof (read_from_path_writing bpc fp full cur name s Hw) as Hone.
  destruct (read_from_path name s) as [[] s1|e s1] eqn:Hrun; [|done].
  destruct Hone as (data & full1 & cur1 & _ & _ & Hw1 & _).
  destruct (read_from_path_trace _ _ _ _ _ _ _ Hw Hrun) as [k1 Hk1].
  intros Hrest. destruct (IH _ _ _ _ _ Hw1 Hrest) as [k2 Hk2].
  exists (k1 + k2)%nat. by eapply trace_trans.
Qed.

(** Whatever happens, the files opened for writing are chunk files. *)
Lemma opens_chunks_refl s : opens_chunks s s.
Proof. exists []. by split; [|constructor]. Qed.

Lemma opens_chunks_trans s1 s2 s3 :
  opens_chunks s1 s2 → opens_chunks s2 s3 → opens_chunks s1 s3.
Proof.
  intros (l1 & H1 & Hc1) (l2 & H2 & Hc2). exists (l2 ++ l1).
  split; [by rewrite H2, H1, app_assoc|].
  rewrite written_app. by apply Forall_app.
Qed.

Lemma post_opens_chunks_step {A B} (r : res state A) (k : A → M state B) s :
  post r (opens_chunks s) →
  (∀ a s', post (k a s') (opens_chunks s')) →
  post (match r with Ok a s' => k a s' | Raise e s' => Raise e s' end) (opens_chunks s).
Proof.
  destruct r as [a s'|e s']; simpl; intros H Hk; [|done].
  specialize (Hk a s'). destruct (k a s'); simpl in *; eauto using opens_chunks_trans.
Qed.

Lemma switch_to_next_chunk_opens_chunks s :
  post (switch_to_next_chunk s) (opens_chunks s).
Proof.
  destruct s as [[bpc idx bi fp cw ch tcb] w].
  unfold switch_to_next_chunk, bind, get_self, update, sys, ret, open_wb; simpl.
  destruct ch as [c|]; simpl.
  all: destruct (decide _); simpl; [by (exists []; split; [|constructor])|].
  all: destruct (parent_exists _ _); simpl; [|by (exists []; split; [|constructor])].
  all: exists [Writing (chunk_name (idx + 1))]; split; [done|].
  all: constructor; [by eexists|constructor].
Qed.

Lemma store_block_opens_chunks b s : post (store_block b s) (opens_chunks s).
Proof.
  destruct s as [[bpc idx bi fp cw ch tcb] w].
  unfold store_block, bind, get_self, update, sys, ret, raise, file_write; simpl.
  destruct ch as [c|]; simpl; [|by (exists []; split; [|constructor])].
  destruct (bool_decide (Writing c ∈ handles w)); simpl; [|by (exists []; split; [|constructor])].
  destruct (bpc - (tcb + Z.of_nat (length b)) =? 0); simpl; [|by (exists []; split; [|constructor])].
  match goal with |- context [switch_to_next_chunk ?s0] =>
    pose proof (switch_to_next_chunk_opens_chunks s0) as Hsw;
    destruct (switch_to_next_chunk s0) as [[] s1|e s1] end; simpl in *; exact Hsw.
Qed.

Lemma read_blocks_opens_chunks data : ∀ n s, post (read_blocks n data s) (opens_chunks s).
Proof.
  remember (length data) as len eqn:Hlen. revert data Hlen.
  induction (lt_wf len) as [len _ IH]. intros data -> n s.
  rewrite read_blocks_step. destruct (read_check n); [by (exists []; split; [|constructor])|].
  destruct (file_read n data) as [[|c b] rest] eqn:Hread; [by (exists []; split; [|constructor])|].
  apply post_opens_chunks_step; [apply store_block_opens_chunks|].
  intros n' s'. eapply IH; [|done]. eapply file_read_shorter; eauto.
Qed.

Lemma read_from_path_opens_chunks name s : post (read_from_path name s) (opens_chunks s).
Proof.
  destruct (can_write (fst s)) eqn:Hcw;
    [|rewrite read_from_path_closed by done; by (exists []; split; [|constructor])].
  destruct (dict_mem name (file_positions (fst s))) eqn:Hmem;
    [rewrite read_from_path_duplicate by done; by (exists []; split; [|constructor])|].
  rewrite read_from_path_fresh by done. simpl.
  destruct s as [[bpc idx bi fp cw ch tcb] w]. simpl in *.
  unfold open_rb. destruct (decide _); simpl; [by (exists []; split; [|constructor])|].
  destruct (files (indir w) !! name) as [data|]; simpl; [|by (exists []; split; [|constructor])].
  unfold finally.
  match goal with |- context [read_blocks ?n ?d ?s0] =>
    pose proof (read_blocks_opens_chunks d n s0) as Hrb;
    destruct (read_blocks n d s0) as [[] s1|e s1] end; simpl in *.
  all: destruct Hrb as (log & Hlog & Hall); exists (log ++ [Reading name]).
  all: split; [simpl in *; by rewrite Hlog, <- app_assoc|].
  all: by rewrite written_app, app_nil_r.
Qed.

Lemma for_each_opens_chunks names : ∀ s,
  post (for_each read_from_path names s) (opens_chunks s).
Proof.
  induction names as [|name names IH]; intros s; simpl; [apply opens_chunks_refl|].
  unfold bind. apply post_opens_chunks_step; [apply read_from_path_opens_chunks|].
  intros _ s'. apply IH.
Qed.

Lemma init_eq mb w :
  chunk_name 0 ∉ subdirs (outdir w) →
  init mb w =
  Ok tt (mkChunker (mb * 1024 * 1024) 0 0 [] true (Some (chunk_name 0)) 0,
         opening (Writing (chunk_name 0))
           (set_outdir (set_files (<[chunk_name 0 := []]> (files (outdir w))) (outdir w)) w)).
Proof.
  intros Hfree. unfold init, switch_to_next_chunk, bind, get_self, update, sys, ret; simpl.
  by rewrite open_wb_chunk.
Qed.

Lemma init_writing mb w :
  0 < mb →
  match init mb w with
  | Ok _ s0 =>
      writing (mb * 1024 * 1024) [] [] [] s0 ∧
      opened (snd s0) = Writing (chunk_name 0) :: opened w ∧
      files (outdir (snd s0)) = <[chunk_name 0 := []]> (files (outdir w))
  | Raise _ _ => blocked (outdir w)
  end.
Proof.
  intros Hmb. destruct (decide (chunk_name 0 ∈ subdirs (outdir w))) as [Hdir|Hfree].
  - unfold init, switch_to_next_chunk, bind, get_self, update, sys, ret, open_wb; simpl.
    rewrite decide_True by done. by exists 0.
  - rewrite init_eq by done. split; [|by split]. split; [done|]. split; [|by left].
    split; [done|]. split; [simpl; lia|]. split; [done|]. simpl. by rewrite lookup_insert_eq.
Qed.

(** The [finally] block of [encode] after a run without error. *)
Lemma finish_eq bpc fp full cur s :
  writing bpc fp full cur s →
  "header" ∉ subdirs (outdir (snd s)) →
  ∃ s2 s3,
    close s = Ok tt s2 ∧ write_header_file s2 = Ok tt s3 ∧
    indir (snd s3) = indir (snd s) ∧
    outdir (snd s3) =
      set_header_file
        (Some (JsonText (JObj
           [ ("bytes_per_chunk", JInt bpc);
             ("positions", JObj (map (λ kv, (fst kv, JInt (snd kv))) fp));
             ("total_bytes", JInt (Z.of_nat (length (concat full ++ cur)))) ])))
        (outdir (snd s)) ∧
    handles (snd s3) = remove_first (Writing (chunk_name (Z.of_nat (length full)))) (handles (snd s)) ∧
    opened (snd s3) = Writing "header" :: opened (snd s).
Proof.
  destruct s as [self [D out hs op]]. intros (Hself & _ & _) Hfree. simpl in *. subst self.
  eexists _, _. split.
  { unfold close, bind, update, get_self, sys; simpl. reflexivity. }
  unfold write_header_file, bind, update, get_self, sys, open_header; simpl.
  rewrite decide_False by done. simpl.
  split; [done|]. split; [done|]. done.
Qed.

(** The same when [header] is a directory: the [open] of the header file
    raises, and the exception leaves [encode]. *)
Lemma finish_header_directory bpc fp full cur s :
  writing bpc fp full cur s →
  "header" ∈ subdirs (outdir (snd s)) →
  ∃ s2 s3,
    close s = Ok tt s2 ∧ write_header_file s2 = Raise (IsADirectoryError "header") s3.
Proof.
  destruct s as [self [D out hs op]]. intros (Hself & _ & _) Hdir. simpl in *. subst self.
  eexists _, _. split.
  { unfold close, bind, update, get_self, sys; simpl. reflexivity. }
  unfold write_header_file, bind, update, get_self, sys, open_header; simpl.
  by rewrite decide_True.
Qed.
End ChunkerInvariant.

(** [encode] without error: the chunk files hold the concatenation of the
    input files, cut every [bpc] bytes, and the header records where each
    file starts. *)
Lemma chunks_down_from_zero k :
  chunks_down (-1) (S k) = chunks_down 0 k ++ [chunk_name 0].
Proof. change (S k) with (1 + k)%nat. by rewrite chunks_down_app. Qed.

Lemma encode_spec mb names w w' :
  0 < mb →
  encode mb names w = Returned None w' →
  ∃ entries full cur,
    map fst entries = names ∧
    Forall (λ e, files (indir w) !! fst e = Some (snd e)) entries ∧
    on_disk (mb * 1024 * 1024) (files (outdir w')) full cur ∧
    concat full ++ cur = concat (map snd entries) ∧
    header_file (outdir w') =
      header_record (mb * 1024 * 1024)
        (map (λ kv, (fst kv, JInt (snd kv))) (offsets_from 0 entries))
        (Z.of_nat (length (concat full ++ cur))) ∧
    subdirs (outdir w') = subdirs (outdir w) ∧
    indir w' = indir w ∧
    written (opened w') =
      "header" :: chunks_down (-1) (S (length full)) ++ written (opened w) ∧
    ∀ p, (∀ j, 0 ≤ j ≤ Z.of_nat (length full) → p ≠ chunk_name j) →
         files (outdir w') !! p = files (outdir w) !! p.
Proof.
  intros Hmb. unfold encode.
  pose proof (init_writing mb w Hmb) as Hinit.
  pose proof (init_stays mb w) as Hist.
  destruct (Chunker.init mb w) as [[] s0|e s0]; [|done].
  destruct Hinit as (Hw0 & Hlog0 & Hfiles0).
  destruct (Hist s0 eq_refl) as (_ & _ & Hin0 & Hsub0 & _).
  pose proof (for_each_writing _ names _ _ _ _ Hw0) as Hrun.
  pose proof (for_each_stays names s0) as Hst.
  pose proof (for_each_trace (mb * 1024 * 1024) names [] [] [] s0) as Htr.
  destruct (for_each Chunker.read_from_path names s0) as [[] s1|e s1]; simpl in Hst.
  2: { destruct (Chunker.close s1); done. }
  destruct Hrun as (entries & full & cur & Hnames & Hall & Hw1 & Hcat).
  destruct (Htr s1 Hw0 eq_refl) as (k & Hidx & Hlog & Hframe).
  rewrite (proj1 Hw0), (proj1 Hw1) in Hidx, Hframe. rewrite (proj1 Hw0) in Hlog.
  simpl in Hidx, Hframe. cbn [Chunker.chunk_index length Z.of_nat] in Hlog.
  assert (k = length full) as -> by lia.
  destruct (decide ("header" ∈ subdirs (outdir (snd s1)))) as [Hdir|Hnodir].
  { destruct (finish_header_directory _ _ _ _ _ Hw1 Hdir) as (s2 & s3 & -> & ->). done. }
  destruct (finish_eq _ _ _ _ _ Hw1 Hnodir)
    as (s2 & s3 & Hclose & Hhdr & Hin & Hout & _ & Hlog3).
  rewrite Hclose, Hhdr. intros [= <-].
  exists entries, full, cur. split; [done|]. split; [by rewrite <- Hin0|].
  rewrite Hout. cbn [set_header_file files subdirs header_file].
  split; [apply Hw1|]. split; [done|].
  split; [done|]. split; [by rewrite (stays_subdirs _ _ Hst)|].
  split; [by rewrite Hin, (stays_indir _ _ Hst)|]. split.
  - rewrite chunks_down_from_zero, Hlog3, written_cons_Writing, Hlog, Hlog0.
    by rewrite written_cons_Writing, <- app_assoc.
  - intros p Hp. rewrite Hframe by done. rewrite Hfiles0.
    apply lookup_insert_ne. intros Heq. refine (Hp 0 _ (eq_sym Heq)). lia.
Qed.

(** [encode] cannot fail when the names are distinct files of the input
    tree and no chunk name is taken by a directory. *)
Lemma encode_succeeds mb names w :
  0 < mb < 2 ^ 43 →
  (∀ j, chunk_name j ∉ subdirs (outdir w)) →
  "header" ∉ subdirs (outdir w) →
  NoDup names →
  (∀ name, name ∈ names → is_Some (files (indir w) !! name) ∧ name ∉ subdirs (indir w)) →
  ∃ w', encode mb names w = Returned None w'.
Proof.
  intros [Hmb Hsmall] Hfree Hhdir Hnd Hpresent. unfold encode.
  pose proof (init_writing mb w Hmb) as Hinit.
  pose proof (init_stays mb w) as Hist.
  destruct (Chunker.init mb w) as [[] s0|e s0].
  2: { destruct Hinit as [j Hj]. by destruct (Hfree j). }
  destruct Hinit as [Hw0 _]. destruct (Hist s0 eq_refl) as (_ & _ & Hin0 & Hsub0 & _).
  pose proof (for_each_writing _ names _ _ _ _ Hw0) as Hrun.
  pose proof (for_each_stays names s0) as Hst.
  destruct (for_each Chunker.read_from_path names s0) as [[] s1|e s1]; simpl in Hst.
  - destruct Hrun as (entries & full & cur & Hnames & Hall & Hw1 & Hcat).
    destruct (finish_eq _ _ _ _ _ Hw1) as (s2 & s3 & Hclose & Hhdr & _).
    { by rewrite (stays_subdirs _ _ Hst), Hsub0. }
    rewrite Hclose, Hhdr. by eexists.
  - exfalso. destruct Hrun as [[[j Hj]|Hbig]|[Hdup|(x & Hx & [Hmem|[Hmiss|Hdir]])]].
    + rewrite Hsub0 in Hj. by destruct (Hfree j).
    + lia.
    + done.
    + done.
    + rewrite Hin0 in Hmiss. destruct (Hpresent x Hx) as [[? Hsome] _]. congruence.
    + rewrite Hin0 in Hdir. by destruct (Hpresent x Hx) as [_ ?].
Qed.

(** C3, amended: after an [encode] that returned without error (capacity
    positive), the chunk files it produced are [chunk-0] to [chunk-N],
    named [chunk_name j] for the consecutive indices from zero: these,
    in this order, and then [header] are the files the run opened for
    writing, and no other file of the output directory was changed.
    Every chunk file but the last has exactly the capacity; the last is
    strictly shorter than the capacity and may be empty: it holds the
    total modulo the capacity; together they have the [total_bytes] of
    the header. *)
Theorem encode_chunk_sizes mb infiles w w' :
  0 < mb →
  encode mb infiles w = Returned None w' →
  ∃ (full : list bytes) (last : bytes) positions,
    (∀ j c, full !! j = Some c →
            files (outdir w') !! chunk_name (Z.of_nat j) = Some c ∧
            Z.of_nat (length c) = mb * 1024 * 1024) ∧
    files (outdir w') !! chunk_name (Z.of_nat (length full)) = Some last ∧
    0 ≤ Z.of_nat (length last) < mb * 1024 * 1024 ∧
    header_file (outdir w') =
      header_record (mb * 1024 * 1024) positions
        (Z.of_nat (length full) * (mb * 1024 * 1024) + Z.of_nat (length last)) ∧
    Z.of_nat (length last) =
      (Z.of_nat (length full) * (mb * 1024 * 1024) + Z.of_nat (length last))
        `mod` (mb * 1024 * 1024) ∧
    written (opened w') =
      "header" :: chunks_down (-1) (S (length full)) ++ written (opened w) ∧
    ∀ p, (∀ j, 0 ≤ j ≤ Z.of_nat (length full) → p ≠ chunk_name j) →
         files (outdir w') !! p = files (outdir w) !! p.
Proof.
  intros Hmb Henc.
  destruct (encode_spec _ _ _ _ Hmb Henc)
    as (entries & full & cur & _ & _ & (Hfull & Hcur & Hdisk & Hlast) & _ & Hhdr & _ & _
        & Hlog & Hframe).
  exists full, cur, (map (λ kv, (fst kv, JInt (snd kv))) (offsets_from 0 entries)).
  split; [|split; [done|split; [lia|split; [|split; [|done]]]]].
  - intros j c Hj. split; [by apply Hdisk|].
    rewrite Forall_forall in Hfull. apply Hfull. by eapply list_elem_of_lookup_2.
  - rewrite Hhdr. do 2 f_equal. unfold header_record. do 6 f_equal.
    rewrite length_app, Nat2Z.inj_add. f_equal.
    clear -Hfull. induction Hfull as [|c full Hc _ IH]; simpl; [done|].
    rewrite length_app. lia.
  - rewrite Z.add_comm, Z_mod_plus_full. symmetry. apply Z.mod_small. lia.
Qed.

Lemma encode_chunk_sizes_witness :
  ∃ (full : list bytes) (last : bytes) positions,
    (∀ j c, full !! j = Some c →
            files (mkDir {[ "chunk-0" := [Byte.x03] ]} ∅
                     (header_record 1048576 [("d/c", JInt 0)] 1)) !! chunk_name (Z.of_nat j)
            = Some c ∧
            Z.of_nat (length c) = 1 * 1024 * 1024) ∧
    files (mkDir {[ "chunk-0" := [Byte.x03] ]} ∅
             (header_record 1048576 [("d/c", JInt 0)] 1))
      !! chunk_name (Z.of_nat (length full)) = Some last ∧
    0 ≤ Z.of_nat (length last) < 1 * 1024 * 1024 ∧
    header_record 1048576 [("d/c", JInt 0)] 1 =
      header_record (1 * 1024 * 1024) positions
        (Z.of_nat (length full) * (1 * 1024 * 1024) + Z.of_nat (length last)) ∧
    Z.of_nat (length last) =
      (Z.of_nat (length full) * (1 * 1024 * 1024) + Z.of_nat (length last))
        `mod` (1 * 1024 * 1024) ∧
    written [Writing "header"; Reading "d/c"; Writing "chunk-0"] =
      "header" :: chunks_down (-1) (S (length full)) ++ written [] ∧
    ∀ p, (∀ j, 0 ≤ j ≤ Z.of_nat (length full) → p ≠ chunk_name j) →
         files (mkDir {[ "chunk-0" := [Byte.x03] ]} ∅
                  (header_record 1048576 [("d/c", JInt 0)] 1)) !! p
         = files empty_dir !! p.
Proof.
  apply (encode_chunk_sizes 1 ["d/c"] (mkWorld nested_tree empty_dir [] [])
           (mkWorld nested_tree nested_chunks [] [Writing "header"; Reading "d/c"; Writing "chunk-0"])).
  - lia.
  - vm_compute. reflexivity.
Defined.

(** C3, as stated, fails: the last chunk file can be empty.  Here the
    only input file is empty, and [chunk-0], the only and last chunk,
    has no bytes. *)
Lemma last_chunk_can_be_empty :
  ∃ w', encode 1 ["b"] (mkWorld empty_file_tree empty_dir [] []) = Returned None w' ∧
        files (outdir w') = {[ "chunk-0" := [] ]}.
Proof. eexists. split; vm_compute; reflexivity. Qed.

(** ** The files a session holds open *)

Section ChunkerOpenFiles.
Import Chunker.

Lemma remove_first_head h hs : remove_first h (h :: hs) = hs.
Proof. simpl. by rewrite decide_True. Qed.

Lemma remove_first_second h h' hs :
  h ≠ h' → remove_first h (h' :: h :: hs) = h' :: hs.
Proof. intros Hne. simpl. by rewrite decide_False, decide_True. Qed.

Lemma store_block_busy name b s :
  busy name s →
  match store_block b s with
  | Ok _ s' => busy name s'
  | Raise _ s' => stuck name s'
  end.
Proof.
  destruct s as [[bpc idx bi fp cw ch tcb] [D out hs op]].
  intros (c & Hc & Hhs). simpl in Hc, Hhs. subst ch.
  rewrite store_block_eq by (destruct Hhs as [-> | ->]; set_solver).
  simpl. destruct (_ =? 0).
  - assert (Hrm : remove_first (Writing c) hs = [Reading name]).
    { destruct Hhs as [-> | ->];
        [by apply remove_first_second|by apply remove_first_head]. }
    rewrite Hrm. unfold open_wb. simpl.
    destruct (decide _); simpl; [by exists c|].
    destruct (parent_exists _ _); simpl; [|by exists c].
    eexists. split; [done|]. by right.
  - by exists c.
Qed.

Lemma read_blocks_busy name data : ∀ n s,
  busy name s →
  match read_blocks n data s with
  | Ok _ s' => busy name s'
  | Raise _ s' => stuck name s' ∨ busy name s'
  end.
Proof.
  remember (length data) as len eqn:Hlen. revert data Hlen.
  induction (lt_wf len) as [len _ IH]. intros data -> n s Hs.
  rewrite read_blocks_step. destruct (read_check n); [by right|].
  destruct (file_read n data) as [[|c b] rest] eqn:Hread; [done|].
  pose proof (store_block_busy name (c :: b) s Hs) as Hsb.
  destruct (store_block (c :: b) s) as [n' s'|e s']; [|by left].
  eapply IH; [|done|done]. eapply file_read_shorter; eauto.
Qed.

Lemma read_from_path_neat name s :
  neat s →
  match read_from_path name s with
  | Ok _ s' => neat s'
  | Raise _ s' => tidy s'
  end.
Proof.
  intros Hs.
  assert (Htidy : tidy s).
  { destruct Hs as (c & ? & ?). exists c. auto. }
  destruct (can_write (fst s)) eqn:Hcw;
    [|by rewrite read_from_path_closed].
  destruct (dict_mem name (file_positions (fst s))) eqn:Hmem;
    [by rewrite read_from_path_duplicate|].
  rewrite read_from_path_fresh by done. simpl.
  destruct s as [[bpc idx bi fp cw ch tcb] [D out hs op]]. simpl in *.
  unfold open_rb. simpl. destruct (decide _); simpl; [done|].
  destruct (files D !! name) as [data|]; simpl; [|done].
  unfold finally.
  match goal with |- context [read_blocks ?n ?d ?s0] =>
    assert (Hb : busy name s0);
    [|pose proof (read_blocks_busy name d n s0 Hb) as Hrb;
      destruct (read_blocks n d s0) as [[] s1|e s1]] end.
  - destruct Hs as (c & Hc & Hhs). simpl in *. subst. exists c. split; [done|]. by left.
  - destruct Hrb as (c & Hc & Hhs). exists c. split; [done|].
    cbn [snd fst file_close set_handles handles].
    destruct Hhs as [-> | ->];
      [by apply remove_first_head|by apply remove_first_second].
  - destruct Hrb as [(c & Hc & Hhs)|(c & Hc & Hhs)]; exists c; (split; [done|]).
    + right. cbn [snd fst file_close set_handles handles].
      rewrite Hhs. by apply remove_first_head.
    + left. cbn [snd fst file_close set_handles handles].
      destruct Hhs as [-> | ->];
        [by apply remove_first_head|by apply remove_first_second].
Qed.

Lemma for_each_neat names : ∀ s,
  neat s →
  match for_each read_from_path names s with
  | Ok _ s' => neat s'
  | Raise _ s' => tidy s'
  end.
Proof.
  induction names as [|name names IH]; intros s Hs; simpl; [done|].
  unfold bind. pose proof (read_from_path_neat name s Hs) as Hone.
  destruct (read_from_path name s) as [[] s1|e s1]; [|done].
  by apply IH.
Qed.

Lemma close_tidy s :
  tidy s → ∃ s', close s = Ok tt s' ∧ handles (snd s') = [] ∧ can_write (fst s') = false.
Proof.
  destruct s as [[bpc idx bi fp cw ch tcb] [D out hs op]].
  intros (c & Hc & Hhs). simpl in *. subst ch.
  unfold close, bind, update, get_self, sys; simpl. eexists. split; [done|].
  split; [|done]. cbn [snd fst file_close set_handles handles].
  destruct Hhs as [-> | ->]; [by apply remove_first_head|done].
Qed.

Lemma write_header_file_handles s s' :
  write_header_file s = Ok tt s' → handles (snd s') = handles (snd s).
Proof.
  destruct s as [self w].
  unfold write_header_file, bind, get_self, sys, raise, open_header; simpl.
  destruct (can_write self); [done|]. destruct (decide _); [done|]. intros [= <-].
  cbn [snd fst file_close set_handles handles opening set_outdir].
  by apply remove_first_head.
Qed.

End ChunkerOpenFiles.

Section ExactFill.
Import Chunker.

Lemma length_concat_blocks (n : Z) (l : list bytes) :
  Forall (λ c, Z.of_nat (length c) = n) l →
  Z.of_nat (length (concat l)) = Z.of_nat (length l) * n.
Proof.
  induction 1 as [|c l Hc _ IH]; simpl; [done|]. rewrite length_app. lia.
Qed.

(** Two lists of blocks of one size, the stream of one a prefix of the
    stream of the other: the blocks of the one come first in the other. *)
Lemma blocks_app_inv (n : Z) (l2 : list bytes) : ∀ l1 rest,
  0 < n →
  Forall (λ c, Z.of_nat (length c) = n) l1 →
  Forall (λ c, Z.of_nat (length c) = n) l2 →
  concat l1 = concat l2 ++ rest →
  ∃ l, l1 = l2 ++ l ∧ concat l = rest.
Proof.
  induction l2 as [|c l2 IH]; intros l1 rest Hn H1 H2 Hcat; simpl in *.
  - by exists l1.
  - apply Forall_cons in H2 as [Hc H2].
    destruct l1 as [|c1 l1]; simpl in Hcat.
    + destruct c; [simpl in Hc; lia|done].
    + apply Forall_cons in H1 as [Hc1 H1].
      rewrite <- app_assoc in Hcat.
      apply app_inj_1 in Hcat as [-> Hcat]; [|lia].
      destruct (IH l1 rest Hn H1 H2 Hcat) as (l & -> & Hl). by exists l.
Qed.

(** A file that ends on a chunk boundary: with the bytes already in the
    current chunk, its bytes fill [k] chunks exactly. *)
Lemma read_from_path_on_boundary bpc fp full cur name data s k :
  writing bpc fp full cur s →
  handles (snd s) = [Writing (chunk_name (chunk_index (fst s)))] →
  dict_get name fp = None →
  files (indir (snd s)) !! name = Some data →
  name ∉ subdirs (indir (snd s)) →
  (0 < k)%nat →
  Z.of_nat (length cur + length data) = Z.of_nat k * bpc →
  (∀ j, chunk_name j ∉ subdirs (outdir (snd s))) →
  bpc < 2 ^ 63 - 33 →
  ∃ s' filled,
    read_from_path name s = Ok tt s' ∧
    length filled = k ∧ concat filled = cur ++ data ∧
    (∀ j c, filled !! j = Some c →
            Z.of_nat (length c) = bpc ∧
            files (outdir (snd s')) !! chunk_name (chunk_index (fst s) + Z.of_nat j) = Some c) ∧
    chunk_index (fst s') = chunk_index (fst s) + Z.of_nat k ∧
    chunk (fst s') = Some (chunk_name (chunk_index (fst s) + Z.of_nat k)) ∧
    this_chunk_bytes (fst s') = 0 ∧
    files (outdir (snd s')) !! chunk_name (chunk_index (fst s) + Z.of_nat k) = Some [] ∧
    handles (snd s') = [Writing (chunk_name (chunk_index (fst s) + Z.of_nat k))] ∧
    written (opened (snd s')) = chunks_down (chunk_index (fst s)) k ++ written (opened (snd s)).
Proof.
  intros Hw Hhs Hfresh Hdata Hfile Hk Hlen Hfree Hsmall.
  pose proof (read_from_path_writing bpc fp full cur name s Hw) as Hone.
  pose proof (read_from_path_trace bpc fp full cur name s) as Htr.
  assert (Hneat : neat s).
  { exists (chunk_name (chunk_index (fst s))). split; [|done]. by rewrite (proj1 Hw). }
  pose proof (read_from_path_neat name s Hneat) as Hn.
  destruct (read_from_path name s) as [[] s'|e s'].
  2: { exfalso. destruct Hone as [[[j Hj]|Hbig]|[Hmem|[Hmiss|Hdir]]].
       - by destruct (Hfree j).
       - lia.
       - unfold dict_mem in Hmem. by rewrite Hfresh in Hmem.
       - congruence.
       - done. }
  destruct Hone as (data' & full' & cur' & _ & Hdata' & Hw' & Hcat).
  assert (data' = data) as -> by congruence.
  destruct (Htr s' Hw eq_refl) as (k' & Hidx & Hlog & _).
  pose proof Hw as (Hself & (Hfull & Hcur & _ & _) & _).
  pose proof Hw' as (Hself' & (Hfull' & Hcur' & Hdisk' & Hlast') & _).
  assert (Hlens : Z.of_nat (length full') * bpc + Z.of_nat (length cur')
                  = Z.of_nat (length full) * bpc + Z.of_nat k * bpc).
  { rewrite <- (length_concat_blocks _ _ Hfull'), <- (length_concat_blocks _ _ Hfull), <- Hlen.
    apply (f_equal length) in Hcat. rewrite !length_app in Hcat. lia. }
  assert (Hcount : Z.of_nat (length full') = Z.of_nat (length full) + Z.of_nat k).
  { destruct (Z.lt_trichotomy (Z.of_nat (length full'))
                (Z.of_nat (length full) + Z.of_nat k)) as [Hlt|[Heq|Hgt]]; [|done|]; nia. }
  assert (cur' = []) as ->.
  { destruct cur'; [done|]. simpl in Hlens. nia. }
  rewrite app_nil_r, <- app_assoc in Hcat.
  destruct (blocks_app_inv bpc full full' (cur ++ data)) as (filled & -> & Hfilled);
    [lia|done|done|done|].
  rewrite length_app in Hcount.
  exists s', filled.
  rewrite Hself in Hidx, Hlog |- *. rewrite Hself' in Hidx |- *.
  cbn [chunk_index chunk this_chunk_bytes fst length] in Hidx, Hlog |- *.
  replace (Z.of_nat (length (full ++ filled)))
    with (Z.of_nat (length full) + Z.of_nat k) in * by (rewrite length_app; lia).
  assert (k' = k) as -> by lia.
  split; [done|]. split; [lia|]. split; [done|]. split.
  { intros j c Hj. split.
    - apply Forall_app in Hfull' as [_ Hf]. by apply (Forall_lookup_1 _ _ _ _ Hf Hj).
    - replace (Z.of_nat (length full) + Z.of_nat j) with (Z.of_nat (length full + j)) by lia.
      apply Hdisk'. rewrite lookup_app_r by lia. by replace (length full + j - length full)%nat with j by lia. }
  split; [done|]. split; [done|]. split; [done|]. split; [done|]. split; [|done].
  destruct Hn as (c & Hc & Hhs'). rewrite Hself' in Hc. simpl in Hc.
  injection Hc as <-. by rewrite Hhs'.
Qed.

(** C2, amended: when the bytes of a file end on a chunk boundary (with
    what the current chunk already holds they fill [k] chunks exactly,
    [k] at least one), [read_from_path] closes every chunk it filled and
    has opened the chunk file after the last of them when it returns,
    although no byte is pending for it: the [k] chunk files after the
    current one were opened, in turn; the last of them exists, is empty,
    is the current chunk of the session and is the only file left open. *)
Theorem exact_fill_opens_next_chunk bpc fp full cur name data s k :
  writing bpc fp full cur s →
  handles (snd s) = [Writing (chunk_name (chunk_index (fst s)))] →
  dict_get name fp = None →
  files (indir (snd s)) !! name = Some data →
  name ∉ subdirs (indir (snd s)) →
  (0 < k)%nat →
  Z.of_nat (length cur + length data) = Z.of_nat k * bpc →
  (∀ j, chunk_name j ∉ subdirs (outdir (snd s))) →
  bpc < 2 ^ 63 - 33 →
  ∃ s' filled,
    read_from_path name s = Ok tt s' ∧
    length filled = k ∧ concat filled = cur ++ data ∧
    (∀ j c, filled !! j = Some c →
            Z.of_nat (length c) = bpc ∧
            files (outdir (snd s')) !! chunk_name (chunk_index (fst s) + Z.of_nat j) = Some c) ∧
    chunk_index (fst s') = chunk_index (fst s) + Z.of_nat k ∧
    chunk (fst s') = Some (chunk_name (chunk_index (fst s) + Z.of_nat k)) ∧
    this_chunk_bytes (fst s') = 0 ∧
    files (outdir (snd s')) !! chunk_name (chunk_index (fst s) + Z.of_nat k) = Some [] ∧
    handles (snd s') = [Writing (chunk_name (chunk_index (fst s) + Z.of_nat k))] ∧
    written (opened (snd s')) = chunks_down (chunk_index (fst s)) k ++ written (opened (snd s)).
Proof. apply read_from_path_on_boundary. Qed.

End ExactFill.

(** One input file of exactly one chunk. *)
Lemma encode_one_full_file mb name data w :
  0 < mb < 2 ^ 43 →
  chunk_name 0 ∉ subdirs (outdir w) →
  chunk_name 1 ∉ subdirs (outdir w) →
  "header" ∉ subdirs (outdir w) →
  files (indir w) !! name = Some data →
  name ∉ subdirs (indir w) →
  Z.of_nat (length data) = mb * 1024 * 1024 →
  ∃ w', encode mb [name] w = Returned None w' ∧
        files (outdir w') !! chunk_name 0 = Some data ∧
        files (outdir w') !! chunk_name 1 = Some [] ∧
        opened w' = Writing "header" :: Writing (chunk_name 1) :: Reading name
                      :: Writing (chunk_name 0) :: opened w.
Proof.
  intros [Hmb Hsmall] Hfree0 Hfree1 Hhdir Hdata Hfile Hlen. unfold encode.
  pose proof (init_writing mb w Hmb) as Hinit.
  rewrite init_eq in Hinit |- * by done. destruct Hinit as (Hw0 & Hlog0 & _).
  simpl for_each. unfold bind at 1.
  edestruct (read_from_path_exact_fill _ _ _ _ name data _ Hw0)
    as (s1 & Hrun & Hw1 & Hlog1); try done.
  { simpl. lia. }
  { lia. }
  match type of Hrun with Chunker.read_from_path _ ?s0 = _ =>
    pose proof (read_from_path_stays name s0) as Hst end.
  rewrite Hrun in Hst. simpl in Hst.
  rewrite Hrun. unfold ret.
  destruct (finish_eq _ _ _ _ _ Hw1) as (s2 & s3 & -> & -> & _ & Hout & _ & Hlog3).
  { by rewrite (stays_subdirs _ _ Hst). }
  eexists. split; [done|]. rewrite Hout, Hlog3, Hlog1. simpl.
  destruct Hw1 as (_ & (_ & _ & Hdisk & Hlast) & _).
  split; [|split; [|done]].
  - apply (Hdisk 0%nat). done.
  - apply Hlast.
Qed.

(** C2, as stated, fails: a file of exactly one chunk fills [chunk-0],
    nothing more is pending, and still [chunk-1] is opened and left
    behind empty. *)
Lemma full_file_leaves_empty_chunk :
  ∃ w', encode 1 ["a"] (mkWorld one_full_file empty_dir [] []) = Returned None w' ∧
        files (outdir w') !! "chunk-0" = Some one_mebibyte ∧
        files (outdir w') !! "chunk-1" = Some [] ∧
        opened w' = [Writing "header"; Writing "chunk-1"; Reading "a"; Writing "chunk-0"].
Proof.
  apply (encode_one_full_file 1 "a" one_mebibyte (mkWorld one_full_file empty_dir [] [])).
  - lia.
  - apply not_elem_of_empty.
  - apply not_elem_of_empty.
  - apply not_elem_of_empty.
  - apply lookup_singleton_eq.
  - apply not_elem_of_empty.
  - unfold one_mebibyte. rewrite length_replicate. lia.
Qed.

Lemma exact_fill_opens_next_chunk_witness :
  ∃ s' filled,
    Chunker.read_from_path "a" boundary_session = Ok tt s' ∧
    length filled = 2%nat ∧ concat filled = [Byte.x01] ++ [Byte.x02; Byte.x03; Byte.x04] ∧
    (∀ j c, filled !! j = Some c →
            Z.of_nat (length c) = 2 ∧
            files (outdir (snd s'))
              !! chunk_name (Chunker.chunk_index (fst boundary_session) + Z.of_nat j) = Some c) ∧
    Chunker.chunk_index (fst s') = Chunker.chunk_index (fst boundary_session) + Z.of_nat 2 ∧
    Chunker.chunk (fst s')
    = Some (chunk_name (Chunker.chunk_index (fst boundary_session) + Z.of_nat 2)) ∧
    Chunker.this_chunk_bytes (fst s') = 0 ∧
    files (outdir (snd s'))
      !! chunk_name (Chunker.chunk_index (fst boundary_session) + Z.of_nat 2) = Some [] ∧
    handles (snd s')
    = [Writing (chunk_name (Chunker.chunk_index (fst boundary_session) + Z.of_nat 2))] ∧
    written (opened (snd s'))
    = chunks_down (Chunker.chunk_index (fst boundary_session)) 2
        ++ written (opened (snd boundary_session)).
Proof.
  apply (exact_fill_opens_next_chunk 2 [("b", 0)] [] [Byte.x01] "a"
           [Byte.x02; Byte.x03; Byte.x04] boundary_session 2).
  - split; [reflexivity|]. split; [|by left].
    split; [constructor|]. split; [simpl; lia|]. split; [done|].
    apply lookup_singleton_eq.
  - reflexivity.
  - reflexivity.
  - apply lookup_singleton_eq.
  - apply not_elem_of_empty.
  - lia.
  - reflexivity.
  - intros j. apply not_elem_of_empty.
  - lia.
Defined.

(** ** What the decoder reads *)

Section DechunkerSpec.
Import Dechunker.

Lemma drain_step_eq bpc idx cr cn u D out hs op n file :
  Reading cn ∈ hs →
  read_check n = None →
  drain_step n file (mkDechunker bpc idx cr (Some cn) u, mkWorld D out hs op) =
  match fst (file_read n u) with
  | [] =>
      match open_rb (chunk_name (idx + 1))
              (mkWorld D out (remove_first (Reading cn) hs) op) with
      | Ok data w' =>
          Ok n (mkDechunker bpc (idx + 1) cr (Some (chunk_name (idx + 1))) data, w')
      | Raise e w' =>
          Raise e (mkDechunker bpc (idx + 1) cr (Some cn) (snd (file_read n u)), w')
      end
  | b =>
      match file_write file b (mkWorld D out hs op) with
      | Ok _ w' =>
          Ok (n - Z.of_nat (length b))
             (mkDechunker bpc idx cr (Some cn) (snd (file_read n u)), w')
      | Raise e w' =>
          Raise e (mkDechunker bpc idx cr (Some cn) (snd (file_read n u)), w')
      end
  end.
Proof.
  intros Hopen Hcheck.
  unfold drain_step, chunk_read, bind, get_self; simpl.
  rewrite Hcheck, bool_decide_eq_true_2 by done.
  destruct (file_read n u) as [[|x b] rest]; simpl.
  - unfold switch_to_next_chunk, bind, get_self, update, sys, ret; simpl.
    unfold file_close, set_handles; simpl.
    by destruct (open_rb _ _).
  - unfold sys, ret. simpl. by destruct (file_write _ _ _).
Qed.

Lemma run_spec_done D file cs u n bpc idx out hs op old missing :
  n ≤ 0 →
  chunk_run (files D) (idx + 1) cs →
  missing = idx + 1 + Z.of_nat (length cs) →
  Reading (chunk_name idx) ∈ hs →
  Writing file ∈ hs →
  files out !! file = Some old →
  match write_blocks n file
          (mkDechunker bpc idx true (Some (chunk_name idx)) u, mkWorld D out hs op) with
  | Ok _ s' =>
      n ≤ Z.of_nat (length (u ++ concat cs)) ∧
      reading D (drop (Z.to_nat n) (u ++ concat cs)) missing s' ∧
      Writing file ∈ handles (snd s') ∧
      files (outdir (snd s')) =
        <[file := old ++ take (Z.to_nat n) (u ++ concat cs)]> (files out) ∧
      subdirs (outdir (snd s')) = subdirs out ∧
      header_file (outdir (snd s')) = header_file out
  | Raise e s' => False
  end.
Proof.
  intros Hn Hrun Hmiss Hr Hw Hold.
  rewrite write_blocks_step. rewrite (proj2 (Z.ltb_ge _ _)) by lia.
  replace (Z.to_nat n) with 0%nat by lia. simpl.
  split; [lia|]. split; [by exists cs|]. split; [done|].
  rewrite app_nil_r. by rewrite insert_id.
Qed.

Section OneDirectory.
Variable D : dir.
Hypothesis chunk_names_free : ∀ j, chunk_name j ∉ subdirs D.
Variable file : string.

Lemma run_spec_end : run_spec D file [] [].
Proof.
  intros n bpc idx out hs op old missing Hsmall Hrun Hmiss Hr Hw Hold.
  destruct (Z.le_gt_cases n 0) as [Hn|Hn].
  { pose proof (run_spec_done D file [] [] n bpc idx out hs op old missing
                  Hn Hrun Hmiss Hr Hw Hold) as Hdone.
    by destruct (write_blocks _ _ _). }
  rewrite write_blocks_step. rewrite (proj2 (Z.ltb_lt _ _)) by lia.
  rewrite drain_step_eq; [|done|apply read_check_ok; lia].
  unfold file_read. rewrite (proj2 (Z.ltb_ge _ _)) by lia. rewrite take_nil. simpl.
  unfold open_rb. simpl. rewrite decide_False by apply chunk_names_free.
  inversion Hrun as [i Hnone|]; subst. rewrite Hnone, missing_error_chunk_name. simpl.
  split; [lia|]. split; [do 2 f_equal; lia|].
  rewrite app_nil_r. by rewrite insert_id.
Qed.

Lemma run_spec_next c cs :
  (∀ u, run_spec D file cs u) → run_spec D file (c :: cs) [].
Proof.
  intros IH n bpc idx out hs op old missing Hsmall Hrun Hmiss Hr Hw Hold.
  destruct (Z.le_gt_cases n 0) as [Hn|Hn].
  { pose proof (run_spec_done D file (c :: cs) [] n bpc idx out hs op old missing
                  Hn Hrun Hmiss Hr Hw Hold) as Hdone.
    by destruct (write_blocks _ _ _). }
  rewrite write_blocks_step. rewrite (proj2 (Z.ltb_lt _ _)) by lia.
  rewrite drain_step_eq; [|done|apply read_check_ok; lia].
  unfold file_read. rewrite (proj2 (Z.ltb_ge _ _)) by lia. rewrite take_nil. simpl.
  unfold open_rb. simpl. rewrite decide_False by apply chunk_names_free.
  inversion Hrun as [|i c' cs' Hsome Hrest]; subst. rewrite Hsome.
  unfold opening. simpl.
  match goal with |- context [write_blocks n file (?self, mkWorld D out ?hs' ?op')] =>
    pose proof (IH c n bpc (idx + 1) out hs' op' old
                  (idx + 1 + Z.of_nat (length (c :: cs))) Hsmall Hrest) as Hnext end.
  simpl in *.
  destruct (write_blocks n file _) as [[] s'|e s']; apply Hnext; try done; try lia.
  all: try by left.
  all: right; by apply elem_of_remove_first.
Qed.

Lemma run_spec_unread cs u : run_spec D file cs [] → run_spec D file cs u.
Proof.
  intros Hnil. destruct u as [|x u]; [done|].
  intros n bpc idx out hs op old missing Hsmall Hrun Hmiss Hr Hw Hold.
  destruct (Z.le_gt_cases n 0) as [Hn|Hn].
  { pose proof (run_spec_done D file cs (x :: u) n bpc idx out hs op old missing
                  Hn Hrun Hmiss Hr Hw Hold) as Hdone.
    by destruct (write_blocks _ _ _). }
  rewrite write_blocks_step. rewrite (proj2 (Z.ltb_lt _ _)) by lia.
  rewrite drain_step_eq; [|done|apply read_check_ok; lia].
  unfold file_read. rewrite (proj2 (Z.ltb_ge _ _)) by lia.
  destruct (Z.to_nat n) as [|k] eqn:Hk; [lia|]. simpl.
  unfold file_write. simpl. rewrite bool_decide_eq_true_2 by done. rewrite Hold. simpl.
  unfold set_outdir. simpl.
  destruct (Z.le_gt_cases n (Z.of_nat (length (x :: u)))) as [Hfit|Hmore]; simpl in *.
  - (* the unread part of the chunk suffices *)
    assert (Hlen : length (take k u) = k) by (rewrite length_take; lia).
    match goal with |- context [write_blocks ?n' file (?self, mkWorld D ?out' hs op)] =>
      pose proof (run_spec_done D file cs (drop k u) n' bpc idx out' hs op
                    (old ++ x :: take k u) missing) as Hdone end.
    simpl in Hdone. rewrite lookup_insert_eq in Hdone.
    destruct (write_blocks _ file _) as [[] s'|e s']; [|exfalso; apply Hdone; try done; lia].
    destruct Hdone as (_ & Hread & Hw' & Hfiles & Hsub & Hhdr); try done; [lia|].
    replace (Z.to_nat _) with 0%nat in * by lia. simpl in *.
    rewrite length_app. split; [lia|].
    rewrite drop_app_le by lia. split; [done|]. split; [done|].
    rewrite take_app_le by lia. rewrite Hfiles, app_nil_r. by rewrite insert_insert_eq.
  - (* it does not: the loop goes on with an empty unread part *)
    rewrite take_ge, drop_ge by lia.
    match goal with |- context [write_blocks ?n' file (?self, mkWorld D ?out' hs op)] =>
      pose proof (Hnil n' bpc idx out' hs op (old ++ x :: u) missing
                    ltac:(simpl; lia) Hrun Hmiss Hr Hw)
        as Hgo end.
    simpl in Hgo. rewrite lookup_insert_eq in Hgo. specialize (Hgo eq_refl).
    assert (Hnat : Z.to_nat (n - Z.of_nat (S (length u))) = (k - length u)%nat) by lia.
    rewrite Hnat in Hgo.
    destruct (write_blocks _ file _) as [[] s'|e s'].
    + destruct Hgo as (Hle & Hread & Hw' & Hfiles & Hsub & Hhdr).
      rewrite length_app. split; [lia|].
      rewrite drop_app_ge by lia. split; [done|]. split; [done|].
      rewrite take_app_ge by lia.
      rewrite Hfiles, insert_insert_eq. rewrite <- app_assoc. done.
    + destruct Hgo as (Hlt & He & Hfiles & Hsub & Hhdr).
      rewrite length_app. split; [lia|]. split; [done|].
      rewrite Hfiles, insert_insert_eq. by rewrite <- app_assoc.
Qed.

Lemma run_spec_all cs : ∀ u, run_spec D file cs u.
Proof.
  induction cs as [|c cs IH]; intros u; apply run_spec_unread.
  - apply run_spec_end.
  - by apply run_spec_next.
Qed.

End OneDirectory.

Lemma write_n_bytes_spec D n path avail missing s :
  (∀ j, chunk_name j ∉ subdirs D) →
  reading D avail missing s →
  writable (outdir (snd s)) path →
  n < 2 ^ 63 - 33 →
  match write_n_bytes n path s with
  | Ok _ s' =>
      n ≤ Z.of_nat (length avail) ∧
      reading D (drop (Z.to_nat n) avail) missing s' ∧
      files (outdir (snd s')) = <[path := take (Z.to_nat n) avail]> (files (outdir (snd s))) ∧
      subdirs (outdir (snd s')) = subdirs (outdir (snd s)) ∧
      header_file (outdir (snd s')) = header_file (outdir (snd s))
  | Raise e s' =>
      Z.of_nat (length avail) < n ∧
      e = FileNotFoundError (chunk_name missing) ∧
      files (outdir (snd s')) = <[path := avail]> (files (outdir (snd s))) ∧
      subdirs (outdir (snd s')) = subdirs (outdir (snd s)) ∧
      header_file (outdir (snd s')) = header_file (outdir (snd s))
  end.
Proof.
  intros Hfree (cs & Hcr & Hch & Hin & Hr & Hrun & -> & ->) [Hnodir Hparent] Hsmall.
  destruct s as [[bpc idx cr ch u] [D' out hs op]]. simpl in *. subst cr ch D'.
  unfold write_n_bytes, bind, get_self, sys, open_wb, finally; simpl.
  rewrite decide_False by done. rewrite Hparent. unfold opening, set_outdir. simpl.
  match goal with |- context [write_blocks n path (?self, mkWorld D ?out' ?hs' ?op')] =>
    pose proof (run_spec_all D Hfree path cs u n bpc idx out' hs' op' []
                  (idx + 1 + Z.of_nat (length cs)) Hsmall Hrun eq_refl) as Hgo end.
  simpl in Hgo. rewrite lookup_insert_eq in Hgo.
  destruct (write_blocks n path _) as [[] [self' w']|e [self' w']]; simpl in *.
  - destruct Hgo as (Hle & Hread & _ & Hfiles & Hsub & Hhdr); try done.
    { by right. } { by left. }
    split; [done|]. split; [|by rewrite Hfiles, insert_insert_eq].
    destruct Hread as (cs' & ? & ? & ? & ? & ? & ? & ?). exists cs'. simpl in *.
    repeat split; try done. by apply elem_of_remove_first.
  - destruct Hgo as (Hlt & He & Hfiles & Hsub & Hhdr); try done.
    { by right. } { by left. }
    split; [done|]. split; [done|]. by rewrite Hfiles, insert_insert_eq.
Qed.

(** A length that [read] refuses: the file has been created, and the
    first [read] raises. *)
Lemma write_n_bytes_too_long n path s :
  can_read (fst s) = true →
  is_Some (chunk (fst s)) →
  writable (outdir (snd s)) path →
  2 ^ 63 - 33 ≤ n →
  ∃ s', write_n_bytes n path s = Raise OverflowError s' ∧
        files (outdir (snd s')) = <[path := []]> (files (outdir (snd s))) ∧
        subdirs (outdir (snd s')) = subdirs (outdir (snd s)) ∧
        header_file (outdir (snd s')) = header_file (outdir (snd s)).
Proof.
  destruct s as [[bpc idx cr ch u] [D out hs op]]. simpl.
  intros -> [c ->] [Hnodir Hparent] Hbig.
  unfold write_n_bytes, bind, get_self, sys, open_wb, finally; simpl.
  rewrite decide_False by done. rewrite Hparent.
  rewrite write_blocks_step. rewrite (proj2 (Z.ltb_lt _ _)) by lia.
  unfold drain_step, chunk_read, bind, get_self. simpl.
  rewrite read_check_too_long by done. by eexists.
Qed.

End DechunkerSpec.

(** ** What the decoder reconstructs *)

Lemma reconstruct_spec D missing total fps : ∀ avail s,
  (∀ j, chunk_name j ∉ subdirs D) →
  reading D avail missing s →
  (∀ name, name ∈ map fst fps → writable (outdir (snd s)) name) →
  match reconstruct (json_positions fps) (JInt total) s with
  | Ok _ s' =>
      carve (file_lengths fps total) avail (files (outdir (snd s)))
        = (files (outdir (snd s')), Complete) ∧
      subdirs (outdir (snd s')) = subdirs (outdir (snd s)) ∧
      header_file (outdir (snd s')) = header_file (outdir (snd s)) ∧
      ∃ avail', reading D avail' missing s'
  | Raise e s' =>
      ∃ how,
        carve (file_lengths fps total) avail (files (outdir (snd s)))
          = (files (outdir (snd s')), how) ∧
        subdirs (outdir (snd s')) = subdirs (outdir (snd s)) ∧
        header_file (outdir (snd s')) = header_file (outdir (snd s)) ∧
        caught_for how missing = Some e
  end.
Proof.
  induction fps as [|[name off] rest IH]; intros avail s Hfree Hread Hwr.
  { simpl. repeat split; try done. by exists avail. }
  cbn [json_positions map reconstruct file_lengths carve fst snd].
  set (ends := match rest with [] => total | next :: _ => snd next end).
  assert (Hends : py_sub (match map (λ kv, (fst kv, JInt (snd kv))) rest with
                          | [] => JInt total | next :: _ => snd next end) (JInt off)
                  = Some (ends - off)).
  { subst ends. by destruct rest as [|[? ?] ?]. }
  rewrite Hends. unfold bind.
  destruct (Z.leb_spec (2 ^ 63 - 33) (ends - off)) as [Hbig|Hsmall].
  { destruct (write_n_bytes_too_long (ends - off) name s)
      as (s1 & -> & Hfiles1 & Hsub1 & Hhdr1); try done.
    - by destruct Hread as (? & ? & _).
    - destruct Hread as (? & _ & -> & _). by eexists.
    - apply Hwr. simpl. by left.
    - exists TooLong. by rewrite Hfiles1. }
  pose proof (write_n_bytes_spec D (ends - off) name avail missing s Hfree Hread) as Hone.
  destruct (Dechunker.write_n_bytes (ends - off) name s) as [[] s1|e s1].
  - destruct Hone as (Hle & Hread1 & Hfiles1 & Hsub1 & Hhdr1); [|done|].
    { apply Hwr. simpl. by left. }
    rewrite (proj2 (Z.leb_le _ _)) by done.
    specialize (IH (drop (Z.to_nat (ends - off)) avail) s1 Hfree Hread1).
    rewrite Hfiles1 in IH. rewrite Hsub1, Hhdr1 in IH.
    fold (json_positions rest).
    destruct (reconstruct (json_positions rest) (JInt total) s1) as [[] s2|e s2]; apply IH.
    all: intros x Hx; destruct (Hwr x) as [? Hp]; [simpl; by right|].
    all: split; [by rewrite Hsub1|].
    all: unfold parent_exists in *; by rewrite Hsub1.
  - destruct Hone as (Hlt & He & Hfiles1 & Hsub1 & Hhdr1); [|done|].
    { apply Hwr. simpl. by left. }
    rewrite (proj2 (Z.leb_gt _ _)) by done. exists RanOut. rewrite Hfiles1, He. done.
Qed.


(** [decode] on a well-formed header, chunk files from index 0 up to a
    first missing one, and an output directory in which every file can be
    opened. *)
Lemma decode_spec w bpc kvs total fps c0 cs :
  header_file (indir w) = header_record bpc kvs total →
  sorted_items kvs = Some (json_positions fps) →
  (∀ j, chunk_name j ∉ subdirs (indir w)) →
  chunk_run (files (indir w)) 0 (c0 :: cs) →
  (∀ name, name ∈ map fst fps → writable (outdir w) name) →
  ∃ w',
    decode w =
      Returned (caught_for
                  (snd (carve (file_lengths fps total) (c0 ++ concat cs) (files (outdir w))))
                  (1 + Z.of_nat (length cs))) w' ∧
    files (outdir w') =
      fst (carve (file_lengths fps total) (c0 ++ concat cs) (files (outdir w))) ∧
    subdirs (outdir w') = subdirs (outdir w) ∧
    header_file (outdir w') = header_file (outdir w) ∧
    (snd (carve (file_lengths fps total) (c0 ++ concat cs) (files (outdir w))) = Complete →
     ∃ i, Reading (chunk_name i) ∈ handles w').
Proof.
  intros Hh Hsorted Hfree Hrun Hwr.
  unfold decode. rewrite Hh. unfold header_record, read_header, getitem. simpl.
  rewrite Hsorted.
  unfold Dechunker.init, Dechunker.switch_to_next_chunk, bind, get_self, update, sys, ret;
    simpl.
  unfold open_rb. simpl. rewrite decide_False by apply Hfree.
  inversion Hrun as [|i c cs' Hsome Hrest]; subst.
  change (-1 + 1) with 0. rewrite Hsome. simpl.
  match goal with |- context [reconstruct _ _ ?s0] =>
    assert (Hread : reading (indir w) (c0 ++ concat cs) (1 + Z.of_nat (length cs)) s0)
  end.
  { exists cs. simpl. repeat split; try done. by left. }
  pose proof (reconstruct_spec (indir w) _ total fps _ _ Hfree Hread Hwr) as Hrec.
  simpl in Hrec.
  destruct (reconstruct (json_positions fps) (JInt total) _) as [[] s'|e s'].
  - destruct Hrec as (Hcarve & Hsub & Hhdr & avail' & cs' & _ & _ & _ & Hopen & _).
    rewrite Hcarve. simpl. eexists. repeat split; try done. by eexists.
  - destruct Hrec as (how & Hcarve & Hsub & Hhdr & Hhow). rewrite Hcarve. simpl.
    rewrite Hhow. eexists. repeat split; try done. intros ->. done.
Qed.

(** Every run of [decode] that reconstructs all its files returns with
    the file object of a chunk still open: nothing calls [close]. *)
Lemma decode_success_leaves_chunk_open w bpc kvs total fps c0 cs m :
  header_file (indir w) = header_record bpc kvs total →
  sorted_items kvs = Some (json_positions fps) →
  (∀ j, chunk_name j ∉ subdirs (indir w)) →
  chunk_run (files (indir w)) 0 (c0 :: cs) →
  (∀ name, name ∈ map fst fps → writable (outdir w) name) →
  carve (file_lengths fps total) (c0 ++ concat cs) (files (outdir w)) = (m, Complete) →
  ∃ w' i, decode w = Returned None w' ∧ Reading (chunk_name i) ∈ handles w'.
Proof.
  intros Hh Hsorted Hfree Hrun Hwr Hcarve.
  destruct (decode_spec w bpc kvs total fps c0 cs Hh Hsorted Hfree Hrun Hwr)
    as (w' & Hdec & _ & _ & _ & Hopen).
  rewrite Hcarve in Hdec, Hopen. destruct (Hopen eq_refl) as [i Hi].
  by exists w', i.
Qed.

(** Without [chunk-0] the decoder cannot even be constructed, and the
    exception leaves [decode]. *)
Lemma decode_without_first_chunk w bpc kvs total sorted :
  header_file (indir w) = header_record bpc kvs total →
  sorted_items kvs = Some sorted →
  chunk_name 0 ∉ subdirs (indir w) →
  files (indir w) !! chunk_name 0 = None →
  ∃ w', decode w = Raised (FileNotFoundError (chunk_name 0)) w' ∧ outdir w' = outdir w.
Proof.
  intros Hh Hsorted Hfree Hnone.
  unfold decode. rewrite Hh. unfold header_record, read_header, getitem. simpl.
  rewrite Hsorted.
  unfold Dechunker.init, Dechunker.switch_to_next_chunk, bind, get_self, update, sys, ret;
    simpl.
  unfold open_rb. simpl. change (-1 + 1) with 0.
  rewrite decide_False by done. rewrite Hnone, missing_error_chunk_name. simpl. by eexists.
Qed.

(** [write_n_bytes] on a path whose directory does not exist: the [open]
    fails and the output directory is left as it was. *)
Lemma write_n_bytes_missing_parent n path s :
  Dechunker.can_read (fst s) = true →
  path ∉ subdirs (outdir (snd s)) →
  parent_exists (outdir (snd s)) path = false →
  Dechunker.write_n_bytes n path s = Raise (missing_error (outdir (snd s)) path) s.
Proof.
  destruct s as [self w]. simpl. intros Hcr Hnodir Hparent.
  unfold Dechunker.write_n_bytes, bind, get_self, sys, open_wb; simpl.
  rewrite Hcr. simpl. rewrite decide_False by done. by rewrite Hparent.
Qed.





(** ** Round trip *)

Lemma chunk_run_ext m m' i cs :
  (∀ j, i ≤ j → m !! chunk_name j = m' !! chunk_name j) →
  chunk_run m i cs → chunk_run m' i cs.
Proof.
  intros Hext Hrun. induction Hrun as [i Hnone|i c cs Hsome _ IH].
  - constructor. rewrite <- Hext by lia. done.
  - constructor; [rewrite <- Hext by lia; done|].
    apply IH. intros j Hj. apply Hext. lia.
Qed.

(** A directory is finite: from any index on, the chunk files stop. *)
Lemma chunk_run_exists_sized (k : nat) : ∀ (m : gmap string bytes) i,
  (size m ≤ k)%nat → ∃ cs, chunk_run m i cs.
Proof.
  induction k as [|k IH]; intros m i Hk.
  - exists []. constructor. assert (m = ∅) as -> by (apply map_size_empty_iff; lia).
    apply lookup_empty.
  - destruct (m !! chunk_name i) as [c|] eqn:Hc; [|exists []; by constructor].
    destruct (IH (delete (chunk_name i) m) (i + 1)) as [cs Hcs].
    { rewrite map_size_delete_Some by done.
      assert (size m ≠ 0%nat) by (intros Hz; apply map_size_empty_iff in Hz;
                                  rewrite Hz, lookup_empty in Hc; done).
      lia. }
    exists (c :: cs). constructor; [done|].
    eapply chunk_run_ext; [|exact Hcs].
    intros j Hj. apply lookup_delete_ne. intros Heq. apply chunk_name_inj in Heq. lia.
Qed.

Lemma chunk_run_prepend m l : ∀ i cs,
  (∀ j c, l !! j = Some c → m !! chunk_name (i + Z.of_nat j) = Some c) →
  chunk_run m (i + Z.of_nat (length l)) cs →
  chunk_run m i (l ++ cs).
Proof.
  induction l as [|c l IH]; intros i cs Hl Hrun; simpl in *.
  - by rewrite Z.add_0_r in Hrun.
  - constructor.
    + specialize (Hl 0%nat c eq_refl). by rewrite Z.add_0_r in Hl.
    + apply IH.
      * intros j c' Hj. specialize (Hl (S j) c' Hj).
        by replace (i + 1 + Z.of_nat j) with (i + Z.of_nat (S j)) by lia.
      * by replace (i + 1 + Z.of_nat (length l)) with (i + Z.of_nat (S (length l))) by lia.
Qed.

(** The chunk files of a session form a run from index 0; chunk files
    left by an earlier session may follow. *)
Lemma on_disk_chunk_run bpc m full cur :
  on_disk bpc m full cur → ∃ extra, chunk_run m 0 ((full ++ [cur]) ++ extra).
Proof.
  intros (_ & _ & Hdisk & Hlast).
  destruct (chunk_run_exists_sized (size m) m (Z.of_nat (length (full ++ [cur]))))
    as [extra Hextra]; [done|].
  exists extra. apply chunk_run_prepend; [|done].
  intros j c Hj. simpl. apply lookup_app_Some in Hj as [Hj|[Hge Hj]].
  - by apply Hdisk.
  - destruct (j - length full)%nat eqn:Hd; simpl in Hj; [|done].
    injection Hj as <-. by assert (j = length full) as -> by lia.
Qed.

Lemma sort_by_offset_sorted l :
  Sorted (λ a b, offset_of a ≤ offset_of b) l → sort_by_offset l = l.
Proof.
  unfold sort_by_offset.
  induction 1 as [|x l Hs IH Hhd]; simpl; [done|]. rewrite IH.
  destruct Hhd as [|y l Hxy]; simpl; [done|].
  by rewrite (proj2 (Z.leb_le _ _)).
Qed.

Lemma offsets_from_Sorted entries : ∀ off,
  Sorted (λ a b, offset_of a ≤ offset_of b) (json_positions (offsets_from off entries)).
Proof.
  induction entries as [|e entries IH]; intros off; simpl; [constructor|].
  constructor; [apply IH|].
  destruct entries as [|e' entries]; simpl; constructor.
  unfold offset_of. simpl. lia.
Qed.

Lemma sorted_items_offsets off entries :
  sorted_items (json_positions (offsets_from off entries))
  = Some (json_positions (offsets_from off entries)).
Proof.
  unfold sorted_items. destruct (_ <=? _)%nat; [done|].
  assert (forallb (λ kv, bool_decide (is_Some (as_int kv.2)))
            (json_positions (offsets_from off entries)) = true) as ->.
  { apply forallb_forall. intros x Hx. apply bool_decide_eq_true.
    unfold json_positions in Hx. apply in_map_iff in Hx as (kv & <- & _). by eexists. }
  f_equal. apply sort_by_offset_sorted, offsets_from_Sorted.
Qed.

Lemma file_lengths_offsets entries : ∀ off,
  file_lengths (offsets_from off entries)
    (off + Z.of_nat (length (concat (map snd entries))))
  = map (λ e, (fst e, Z.of_nat (length (snd e)))) entries.
Proof.
  induction entries as [|e entries IH]; intros off; simpl; [done|].
  rewrite length_app, Nat2Z.inj_add, Z.add_assoc, IH. f_equal. f_equal.
  destruct entries as [|e' entries]; simpl; lia.
Qed.

Lemma carve_exact entries : ∀ extra m,
  Forall (λ e, Z.of_nat (length (snd e)) < 2 ^ 63 - 33) entries →
  carve (map (λ e, (fst e, Z.of_nat (length (snd e)))) entries)
    (concat (map snd entries) ++ extra) m
  = (restored entries m, Complete).
Proof.
  unfold restored.
  induction entries as [|e entries IH]; intros extra m Hsizes; simpl; [done|].
  apply Forall_cons in Hsizes as [Hsize Hsizes].
  rewrite (proj2 (Z.leb_gt (2 ^ 63 - 33) _)) by done.
  rewrite !length_app, (proj2 (Z.leb_le _ _)) by lia.
  rewrite Nat2Z.id, <- app_assoc, take_app_length, drop_app_length. by apply IH.
Qed.

Lemma lookup_restored_notin entries : ∀ m name,
  name ∉ map fst entries → restored entries m !! name = m !! name.
Proof.
  unfold restored.
  induction entries as [|e entries IH]; intros m name Hnot; simpl; [done|].
  simpl in Hnot. apply not_elem_of_cons in Hnot as [Hne Hnot].
  rewrite IH by done. by rewrite lookup_insert_ne.
Qed.

Lemma lookup_restored_in entries : ∀ m name data,
  NoDup (map fst entries) → (name, data) ∈ entries →
  restored entries m !! name = Some data.
Proof.
  induction entries as [|e entries IH]; intros m name data Hnd Hin; simpl.
  { by apply elem_of_nil in Hin. }
  simpl in Hnd. apply NoDup_cons in Hnd as [Hfresh Hnd].
  apply elem_of_cons in Hin as [<-|Hin].
  - unfold restored. simpl. fold (restored entries (<[name := data]> m)).
    rewrite lookup_restored_notin by done. by rewrite lookup_insert_eq.
  - unfold restored. simpl. by apply IH.
Qed.

(** Whenever [decode] can open its output files, it reproduces the files
    that [encode] was given: same names, same bytes; it touches nothing
    else in the output directory.  The capacity and the sizes of the
    files are sizes that [read] accepts, and [header] is no directory. *)
Theorem encode_then_decode mb names w target :
  0 < mb < 2 ^ 43 →
  (∀ j, chunk_name j ∉ subdirs (outdir w)) →
  "header" ∉ subdirs (outdir w) →
  NoDup names →
  (∀ name, name ∈ names → is_Some (files (indir w) !! name) ∧ name ∉ subdirs (indir w)) →
  (∀ name data, name ∈ names → files (indir w) !! name = Some data →
                Z.of_nat (length data) < 2 ^ 63 - 33) →
  (∀ name, name ∈ names → writable target name) →
  ∃ w1 w2,
    encode mb names w = Returned None w1 ∧
    decode (mkWorld (outdir w1) target [] []) = Returned None w2 ∧
    (∀ name, name ∈ names → files (outdir w2) !! name = files (indir w) !! name) ∧
    (∀ name, name ∉ names → files (outdir w2) !! name = files target !! name).
Proof.
  intros Hmb Hfree Hhdir Hnd Hpresent Hsizes Hwr.
  destruct (encode_succeeds mb names w Hmb Hfree Hhdir Hnd Hpresent) as [w1 Henc].
  destruct (encode_spec mb names w w1 (proj1 Hmb) Henc)
    as (entries & full & cur & Hnames & Hall & Hdisk & Hcat & Hhdr & Hsub & _).
  assert (Hshort : Forall (λ e, Z.of_nat (length (snd e)) < 2 ^ 63 - 33) entries).
  { rewrite Forall_forall in Hall. apply Forall_forall. intros [name data] Hin.
    apply (Hsizes name data); [|by apply (Hall _ Hin)].
    rewrite <- Hnames. apply list_elem_of_fmap. by exists (name, data). }
  destruct (on_disk_chunk_run _ _ _ _ Hdisk) as [extra Hrun].
  destruct (full ++ [cur]) as [|c0 cs] eqn:Hchunks; [by destruct full|].
  assert (Hstream : c0 ++ concat (cs ++ extra) = concat (map snd entries) ++ concat extra).
  { rewrite <- Hcat. change (c0 ++ concat (cs ++ extra)) with (concat ((c0 :: cs) ++ extra)).
    rewrite <- Hchunks, !concat_app. simpl. by rewrite app_nil_r. }
  destruct (decode_spec (mkWorld (outdir w1) target [] []) (mb * 1024 * 1024)
              (json_positions (offsets_from 0 entries))
              (Z.of_nat (length (concat full ++ cur)))
              (offsets_from 0 entries) c0 (cs ++ extra))
    as (w2 & Hdec & Hfiles & _); simpl.
  - done.
  - apply sorted_items_offsets.
  - intros j. rewrite Hsub. apply Hfree.
  - done.
  - intros name Hin. apply Hwr. rewrite <- Hnames.
    clear -Hin. revert Hin. generalize 0. induction entries as [|e entries IH]; intros off; simpl; [done|].
    rewrite !elem_of_cons. intros [->|Hin]; [by left|right; by eapply IH].
  - simpl in Hdec, Hfiles. rewrite Hstream, Hcat in Hdec, Hfiles.
    pose proof (file_lengths_offsets entries 0) as Hfl. rewrite Z.add_0_l in Hfl.
    rewrite Hfl, carve_exact in Hdec, Hfiles by done. simpl in *.
    exists w1, w2. split; [done|]. split; [done|]. rewrite Hfiles. split.
    + intros name Hin. rewrite <- Hnames in Hin, Hnd.
      apply list_elem_of_fmap in Hin as ([name' data] & -> & Hin). simpl.
      rewrite Forall_forall in Hall. specialize (Hall _ Hin). simpl in Hall.
      rewrite Hall. by apply lookup_restored_in.
    + intros name Hnot. apply lookup_restored_notin. by rewrite Hnames.
Qed.

(** ** The header is written last *)

Lemma close_keeps_world s :
  post (Chunker.close s)
    (λ s', indir (snd s') = indir (snd s) ∧ outdir (snd s') = outdir (snd s) ∧
           opened (snd s') = opened (snd s)).
Proof.
  destruct s as [[bpc idx bi fp cw ch tcb] w].
  unfold Chunker.close, bind, update, get_self, sys, raise; simpl.
  by destruct ch.
Qed.

Lemma write_header_file_keeps s :
  match Chunker.write_header_file s with
  | Ok _ s' =>
      indir (snd s') = indir (snd s) ∧
      subdirs (outdir (snd s')) = subdirs (outdir (snd s)) ∧
      files (outdir (snd s')) = files (outdir (snd s)) ∧
      header_file (outdir (snd s')) = Some (JsonText (Chunker.header_of (fst s))) ∧
      opened (snd s') = Writing "header" :: opened (snd s)
  | Raise _ s' => s' = s
  end.
Proof.
  destruct s as [[bpc idx bi fp cw ch tcb] w].
  unfold Chunker.write_header_file, bind, get_self, sys, raise, open_header; simpl.
  destruct cw; [done|]. by destruct (decide _).
Qed.

Lemma encode_header_last mb names w :
  match encode mb names w with
  | Returned None w' =>
      ∃ s0 s1 s2 s3,
        Chunker.init mb w = Ok tt s0 ∧
        for_each Chunker.read_from_path names s0 = Ok tt s1 ∧
        Chunker.close s1 = Ok tt s2 ∧
        Chunker.write_header_file s2 = Ok tt s3 ∧
        w' = snd s3 ∧
        header_file (outdir (snd s2)) = header_file (outdir w) ∧
        (∃ log, opened (snd s2) = log ++ opened w ∧
                Forall (λ p, ∃ j, p = chunk_name j) (written log)) ∧
        opened w' = Writing "header" :: opened (snd s2) ∧
        files (outdir w') = files (outdir (snd s2)) ∧
        (∃ h, header_file (outdir w') = Some (JsonText h)) ∧
        indir w' = indir w ∧ subdirs (outdir w') = subdirs (outdir w)
  | Returned (Some _) w' | Raised _ w' =>
      indir w' = indir w ∧ subdirs (outdir w') = subdirs (outdir w) ∧
      header_file (outdir w') = header_file (outdir w) ∧
      ∃ log, opened w' = log ++ opened w ∧
             Forall (λ p, ∃ j, p = chunk_name j) (written log)
  | Unmodelled => False
  end.
Proof.
  unfold encode, Chunker.init.
  match goal with |- context [Chunker.switch_to_next_chunk ?s0] =>
    pose proof (switch_to_next_chunk_stays s0) as H0;
    pose proof (switch_to_next_chunk_opens_chunks s0) as L0;
    destruct (Chunker.switch_to_next_chunk s0) as [[] s|e s] eqn:Hinit end;
    simpl in H0, L0.
  2: { by destruct H0. }
  pose proof (for_each_stays names s) as H1.
  pose proof (for_each_opens_chunks names s) as L1.
  assert (Hfe : ∀ s1, stays s s1 → opens_chunks s s1 →
            indir (snd s1) = indir w ∧ subdirs (outdir (snd s1)) = subdirs (outdir w) ∧
            header_file (outdir (snd s1)) = header_file (outdir w) ∧
            ∃ log, opened (snd s1) = log ++ opened w ∧
                   Forall (λ p, ∃ j, p = chunk_name j) (written log)).
  { intros s1 Hs Hl. pose proof (stays_trans _ _ _ H0 Hs) as []. simpl in *.
    repeat (split; [done|]). exact (opens_chunks_trans _ _ _ L0 Hl). }
  destruct (for_each Chunker.read_from_path names s) as [[] s1|e s1] eqn:Hrun;
    simpl in H1, L1.
  - destruct (Hfe _ H1 L1) as (Hi & Hs & Hh & Hlog).
    pose proof (close_keeps_world s1) as Hc.
    destruct (Chunker.close s1) as [[] s2|e s2] eqn:Hclose; simpl in Hc;
      destruct Hc as (Hci & Hco & Hcl).
    + pose proof (write_header_file_keeps s2) as Hw.
      destruct (Chunker.write_header_file s2) as [[] s3|e s3] eqn:Hhdr.
      * destruct Hw as (Hwi & Hws & Hwf & Hwh & Hwl).
        exists s, s1, s2, s3. repeat (split; [done|]).
        split; [by rewrite Hco|]. split; [by rewrite Hcl|].
        split; [done|]. split; [done|]. split; [by eexists|].
        by rewrite Hwi, Hws, Hci, Hco.
      * subst s3. by rewrite Hci, Hco, Hcl.
    + by rewrite Hci, Hco, Hcl.
  - destruct (Hfe _ H1 L1) as (Hi & Hs & Hh & Hlog).
    pose proof (close_keeps_world s1) as Hc.
    destruct (Chunker.close s1) as [[] s2|e2 s2]; simpl in Hc;
      destruct Hc as (Hci & Hco & Hcl).
    all: by rewrite Hci, Hco, Hcl.
Qed.

(** X1: The header file is the last thing [encode] writes, and only a run
    without error writes it.  A run without error goes through the four
    stages of the session, and [write_header_file] is the last of them:
    when it is called the header file is still what it was before the
    run and the files opened for writing so far are chunk files; the
    call opens [header], the most recent of all files opened, and
    changes no other file.  A run that fails leaves the header file as
    it was and has opened, for writing, chunk files only.  No run
    changes the input tree or makes a directory. *)
Theorem encode_writes_header_last mb names w :
  match encode mb names w with
  | Returned None w' =>
      ∃ s0 s1 s2 s3,
        Chunker.init mb w = Ok tt s0 ∧
        for_each Chunker.read_from_path names s0 = Ok tt s1 ∧
        Chunker.close s1 = Ok tt s2 ∧
        Chunker.write_header_file s2 = Ok tt s3 ∧
        w' = snd s3 ∧
        header_file (outdir (snd s2)) = header_file (outdir w) ∧
        (∃ log, opened (snd s2) = log ++ opened w ∧
                Forall (λ p, ∃ j, p = chunk_name j) (written log)) ∧
        opened w' = Writing "header" :: opened (snd s2) ∧
        files (outdir w') = files (outdir (snd s2)) ∧
        (∃ h, header_file (outdir w') = Some (JsonText h)) ∧
        indir w' = indir w ∧ subdirs (outdir w') = subdirs (outdir w)
  | Returned (Some _) w' | Raised _ w' =>
      indir w' = indir w ∧ subdirs (outdir w') = subdirs (outdir w) ∧
      header_file (outdir w') = header_file (outdir w) ∧
      ∃ log, opened w' = log ++ opened w ∧
             Forall (λ p, ∃ j, p = chunk_name j) (written log)
  | Unmodelled => False
  end.
Proof. apply encode_header_last. Qed.

(** ** The files [encode] holds open *)


(** X2: However a run of [encode] ends, it leaves no file open: the chunk
    files, the input files and the header file it opened are all closed.
    The capacity is taken as not negative. *)
Theorem encode_closes_every_file mb names w :
  0 ≤ mb →
  handles w = [] →
  match encode mb names w with
  | Returned _ w' | Raised _ w' => handles w' = []
  | Unmodelled => False
  end.
Proof.
  intros _ Hhs. unfold encode.
  destruct (decide (chunk_name 0 ∈ subdirs (outdir w))) as [Hdir|Hfree].
  { unfold Chunker.init, Chunker.switch_to_next_chunk, bind, get_self, update, sys, ret,
      open_wb; simpl.
    by rewrite decide_True. }
  rewrite init_eq by done.
  match goal with |- context [for_each _ _ ?s0] => set (s := s0) end.
  assert (Hneat : neat s).
  { eexists. split; [done|]. simpl. by rewrite Hhs. }
  pose proof (for_each_neat names s Hneat) as Hrun.
  destruct (for_each Chunker.read_from_path names s) as [[] s1|e s1].
  - assert (Ht : tidy s1) by (destruct Hrun as (c & ? & ?); exists c; auto).
    destruct (close_tidy s1 Ht) as (s2 & -> & Hcl & Hcw).
    destruct (Chunker.write_header_file s2) as [[] s3|e s3] eqn:Hw.
    + by rewrite (write_header_file_handles _ _ Hw).
    + pose proof (write_header_file_keeps s2) as Hk. rewrite Hw in Hk. by subst s3.
  - by destruct (close_tidy s1 Hrun) as (s2 & -> & Hcl & _).
Qed.

Lemma encode_closes_every_file_witness :
  match encode 1 ["a"; "b"; "a"] (mkWorld two_files empty_dir [] []) with
  | Returned _ w' | Raised _ w' => handles w' = []
  | Unmodelled => False
  end.
Proof.
  apply (encode_closes_every_file 1 ["a"; "b"; "a"] (mkWorld two_files empty_dir [] [])).
  - lia.
  - reflexivity.
Defined.

(** ** What [encode] stores *)

(** X3: Given distinct names of files of the input tree and an output
    directory in which neither a chunk name nor [header] is a
    directory, [encode] with a positive capacity below 2^43 MiB (a
    chunk of fewer than 2^63 bytes, a size that [read] accepts) returns
    [False]; the chunk files, joined in index order, are the input files
    joined in the order of the enumeration; and the header records for
    every name the offset at which its bytes start in that stream, in
    the same order, and the length of the stream. *)
Theorem encode_stores_the_files_in_order mb names w :
  0 < mb < 2 ^ 43 →
  (∀ j, chunk_name j ∉ subdirs (outdir w)) →
  "header" ∉ subdirs (outdir w) →
  NoDup names →
  (∀ name, name ∈ names → is_Some (files (indir w) !! name) ∧ name ∉ subdirs (indir w)) →
  ∃ w' entries full cur,
    encode mb names w = Returned None w' ∧
    map fst entries = names ∧
    Forall (λ e, files (indir w) !! fst e = Some (snd e)) entries ∧
    on_disk (mb * 1024 * 1024) (files (outdir w')) full cur ∧
    concat full ++ cur = concat (map snd entries) ∧
    header_file (outdir w') =
      header_record (mb * 1024 * 1024) (json_positions (offsets_from 0 entries))
        (Z.of_nat (length (concat (map snd entries)))).
Proof.
  intros Hmb Hfree Hhdir Hnd Hpresent.
  destruct (encode_succeeds mb names w Hmb Hfree Hhdir Hnd Hpresent) as [w' Henc].
  destruct (encode_spec mb names w w' (proj1 Hmb) Henc)
    as (entries & full & cur & Hnames & Hall & Hdisk & Hcat & Hhdr & _).
  exists w', entries, full, cur. rewrite <- Hcat. by repeat (split; [done|]).
Qed.

Lemma encode_stores_the_files_in_order_witness :
  ∃ w' entries full cur,
    encode 1 ["a"; "b"] (mkWorld two_files empty_dir [] []) = Returned None w' ∧
    map fst entries = ["a"; "b"] ∧
    Forall (λ e, files (indir (mkWorld two_files empty_dir [] [])) !! fst e = Some (snd e))
      entries ∧
    on_disk (1 * 1024 * 1024) (files (outdir w')) full cur ∧
    concat full ++ cur = concat (map snd entries) ∧
    header_file (outdir w') =
      header_record (1 * 1024 * 1024) (json_positions (offsets_from 0 entries))
        (Z.of_nat (length (concat (map snd entries)))).
Proof.
  apply (encode_stores_the_files_in_order 1 ["a"; "b"] (mkWorld two_files empty_dir [] [])).
  - lia.
  - intros j. apply not_elem_of_empty.
  - apply not_elem_of_empty.
  - repeat (apply NoDup_cons_2;
            [rewrite ?elem_of_cons, elem_of_nil; intros H; decompose [or] H; done|]).
    apply NoDup_nil_2.
  - intros name Hin. split; [|apply not_elem_of_empty].
    apply elem_of_cons in Hin as [->|Hin]; [by eexists|].
    apply elem_of_cons in Hin as [->|Hin]; [by eexists|].
    by apply elem_of_nil in Hin.
Defined.

(** ** Capacity zero *)

Section ZeroCapacity.
Import Chunker.

Lemma read_from_path_zero name fp idx c D out hs op s' :
  read_from_path name (mkChunker 0 idx 0 fp true (Some c) 0, mkWorld D out hs op)
    = Ok tt s' →
  s' = (mkChunker 0 idx 0 (fp ++ [(name, 0)]) true (Some c) 0,
        mkWorld D out hs (Reading name :: op)).
Proof.
  destruct (dict_mem name fp) eqn:Hmem.
  { by rewrite read_from_path_duplicate. }
  rewrite read_from_path_fresh by done. simpl.
  unfold open_rb. simpl. destruct (decide _); [done|].
  destruct (files D !! name) as [data|]; [|done].
  unfold finally. rewrite read_blocks_step.
  change (file_read (0 - 0) data) with ([] : bytes, data).
  intros [= <-]. rewrite dict_set_fresh.
  2: { unfold dict_mem in Hmem. by destruct (dict_get name fp). }
  unfold file_close, set_handles, opening, set_file_positions.
  cbn [indir outdir handles opened]. by rewrite remove_first_head.
Qed.

Lemma for_each_zero names : ∀ fp idx c D out hs op s',
  for_each read_from_path names (mkChunker 0 idx 0 fp true (Some c) 0, mkWorld D out hs op)
    = Ok tt s' →
  fst s' = mkChunker 0 idx 0 (fp ++ map (λ name, (name, 0)) names) true (Some c) 0 ∧
  outdir (snd s') = out.
Proof.
  induction names as [|name names IH]; intros fp idx c D out hs op s'; simpl.
  { intros [= <-]. by rewrite app_nil_r. }
  unfold bind.
  destruct (read_from_path name _) as [[] s1|e s1] eqn:Hone; [|done].
  apply read_from_path_zero in Hone. subst s1. intros Hrest.
  apply IH in Hrest. by rewrite <- app_assoc in Hrest.
Qed.

End ZeroCapacity.

(** X4: With capacity zero every read asks for no bytes, so no input file is
    copied: an [encode] that returns [False] has created [chunk-0],
    empty, and nothing else, and its header places every name at offset
    zero of a stream of no bytes. *)
Theorem encode_with_capacity_zero names w w' :
  encode 0 names w = Returned None w' →
  files (outdir w') = <[chunk_name 0 := []]> (files (outdir w)) ∧
  header_file (outdir w') = header_record 0 (map (λ name, (name, JInt 0)) names) 0.
Proof.
  unfold encode.
  destruct (decide (chunk_name 0 ∈ subdirs (outdir w))) as [Hdir|Hfree].
  { unfold Chunker.init, Chunker.switch_to_next_chunk, bind, get_self, update, sys, ret,
      open_wb; simpl.
    by rewrite decide_True. }
  rewrite init_eq by done. change (0 * 1024 * 1024) with 0.
  unfold opening, set_outdir. cbn [indir outdir handles opened].
  destruct (for_each _ _ _) as [[] [self1 w1]|e s1] eqn:Hrun.
  2: { by destruct (Chunker.close s1). }
  apply for_each_zero in Hrun as [Hself Hout]. simpl in Hself, Hout. subst self1.
  unfold Chunker.close, Chunker.write_header_file, bind, update, get_self, sys,
    open_header; simpl.
  destruct (decide _); [done|].
  intros [= <-]. simpl. rewrite Hout. simpl. split; [done|].
  unfold header_record, Chunker.header_of. simpl. by rewrite map_map.
Qed.

Lemma encode_with_capacity_zero_witness :
  files (outdir (mkWorld two_files
                   (mkDir {[ "chunk-0" := [] ]} ∅
                      (header_record 0 [("a", JInt 0); ("b", JInt 0)] 0))
                   [] [Writing "header"; Reading "b"; Reading "a"; Writing "chunk-0"]))
    = <[chunk_name 0 := []]> (files (outdir (mkWorld two_files empty_dir [] []))) ∧
  header_file (outdir (mkWorld two_files
                   (mkDir {[ "chunk-0" := [] ]} ∅
                      (header_record 0 [("a", JInt 0); ("b", JInt 0)] 0))
                   [] [Writing "header"; Reading "b"; Reading "a"; Writing "chunk-0"]))
    = header_record 0 (map (λ name, (name, JInt 0)) ["a"; "b"]) 0.
Proof.
  apply (encode_with_capacity_zero ["a"; "b"] (mkWorld two_files empty_dir [] [])).
  vm_compute. reflexivity.
Defined.

(** ** The two guards of a session *)

(** X5: Once [close] has run, the session takes no more files: every
    [read_from_path] raises and changes nothing. *)
Theorem closed_session_takes_no_file name s s' :
  Chunker.close s = Ok tt s' →
  Chunker.read_from_path name s' =
  Raise (Exception "Already closed! Cannot chunk more files.") s'.
Proof.
  destruct s as [[bpc idx bi fp cw ch tcb] w].
  unfold Chunker.close, bind, update, get_self, sys, raise; simpl.
  destruct ch as [c|]; [|done]. intros [= <-].
  by apply read_from_path_closed.
Qed.

Lemma closed_session_takes_no_file_witness :
  Chunker.read_from_path "a"
    (Chunker.mkChunker 1048576 0 0 [] false (Some "chunk-0") 0,
     mkWorld two_files (mkDir {[ "chunk-0" := [] ]} ∅ None) [] [Writing "chunk-0"])
  = Raise (Exception "Already closed! Cannot chunk more files.")
      (Chunker.mkChunker 1048576 0 0 [] false (Some "chunk-0") 0,
       mkWorld two_files (mkDir {[ "chunk-0" := [] ]} ∅ None) [] [Writing "chunk-0"]).
Proof.
  apply (closed_session_takes_no_file "a"
           (Chunker.mkChunker 1048576 0 0 [] true (Some "chunk-0") 0,
            mkWorld two_files (mkDir {[ "chunk-0" := [] ]} ∅ None)
              [Writing "chunk-0"] [Writing "chunk-0"])).
  reflexivity.
Defined.

(** X6: Until [close] has run, no header can be written: on a session that
    is open, whatever files it has taken, [write_header_file] raises and
    changes nothing.  The capacity is taken as not negative. *)
Theorem open_session_writes_no_header mb names w s0 s :
  0 ≤ mb →
  Chunker.init mb w = Ok tt s0 →
  for_each Chunker.read_from_path names s0 = Ok tt s →
  Chunker.write_header_file s = Raise (Exception "Not closed! Cannot write headers.") s.
Proof.
  intros _ Hinit Hrun. destruct (init_stays _ _ _ Hinit) as [Hcw _].
  pose proof (for_each_stays names s0) as Hst. rewrite Hrun in Hst. simpl in Hst.
  pose proof (stays_can_write _ _ Hst) as Hopen. rewrite Hcw in Hopen.
  destruct s as [self w1]. simpl in Hopen.
  unfold Chunker.write_header_file, bind, get_self, raise; simpl.
  by rewrite Hopen.
Qed.

Lemma open_session_writes_no_header_witness :
  Chunker.write_header_file
    (Chunker.mkChunker 1048576 0 2 [("a", 0)] true (Some "chunk-0") 2,
     mkWorld two_files (mkDir {[ "chunk-0" := [Byte.x01; Byte.x02] ]} ∅ None)
       [Writing "chunk-0"] [Reading "a"; Writing "chunk-0"])
  = Raise (Exception "Not closed! Cannot write headers.")
      (Chunker.mkChunker 1048576 0 2 [("a", 0)] true (Some "chunk-0") 2,
       mkWorld two_files (mkDir {[ "chunk-0" := [Byte.x01; Byte.x02] ]} ∅ None)
         [Writing "chunk-0"] [Reading "a"; Writing "chunk-0"]).
Proof.
  apply (open_session_writes_no_header 1 ["a"] (mkWorld two_files empty_dir [] [])
           (Chunker.mkChunker 1048576 0 0 [] true (Some "chunk-0") 0,
            mkWorld two_files (mkDir {[ "chunk-0" := [] ]} ∅ None)
              [Writing "chunk-0"] [Writing "chunk-0"])).
  - lia.
  - vm_compute. reflexivity.
  - vm_compute. reflexivity.
Defined.

(** ** What [decode] leaves alone *)

Section DechunkerFrame.
Import Dechunker.

Lemma keeps_refl paths s : keeps paths s s.
Proof. by repeat split. Qed.

Lemma keeps_trans paths s1 s2 s3 :
  keeps paths s1 s2 → keeps paths s2 s3 → keeps paths s1 s3.
Proof.
  intros (Hi & Hs & Hh & Hf) (Hi' & Hs' & Hh' & Hf').
  split; [congruence|]. split; [congruence|]. split; [congruence|].
  intros x Hx. by rewrite Hf', Hf.
Qed.

Lemma keeps_mono paths paths' s s' :
  paths ⊆ paths' → keeps paths s s' → keeps paths' s s'.
Proof.
  intros Hsub (Hi & Hs & Hh & Hf). repeat split; try done.
  intros x Hx. apply Hf. intros Hin. apply Hx. by apply Hsub.
Qed.

Lemma switch_to_next_chunk_keeps s : post (switch_to_next_chunk s) (keeps [] s).
Proof.
  destruct s as [[bpc idx cr ch un] w].
  unfold switch_to_next_chunk, bind, get_self, update, sys, ret, open_rb; simpl.
  destruct ch as [c|]; simpl.
  all: destruct (decide _); simpl; [by repeat split|].
  all: destruct (files (indir w) !! chunk_name (idx + 1)); simpl; by repeat split.
Qed.

Lemma drain_step_keeps n file s : post (drain_step n file s) (keeps [file] s).
Proof.
  destruct s as [[bpc idx cr ch un] w].
  unfold drain_step, chunk_read, bind, get_self, raise; simpl.
  destruct ch as [c|]; simpl; [|by repeat split].
  destruct (read_check n); [by repeat split|].
  destruct (bool_decide _); [|by repeat split].
  destruct (file_read n un) as [b rest]. destruct b as [|x b].
  - match goal with |- context [switch_to_next_chunk ?t] =>
      pose proof (switch_to_next_chunk_keeps t) as Hsw;
      destruct (switch_to_next_chunk t) as [[] t'|e t'] end; simpl in *.
    all: eapply keeps_mono; [|exact Hsw]; intros y Hy; by apply elem_of_nil in Hy.
  - unfold sys, file_write, ret; simpl.
    destruct (bool_decide _); simpl; [|by repeat split].
    repeat split; try done. intros y Hy. simpl.
    rewrite lookup_insert_ne; [done|]. intros ->. apply Hy. by left.
Qed.

Lemma write_blocks_keeps file s : ∀ n, post (write_blocks n file s) (keeps [file] s).
Proof.
  induction (later_well_founded s) as [s _ IH]. intros n.
  rewrite write_blocks_step. destruct (0 <? n); [|apply keeps_refl].
  pose proof (drain_step_keeps n file s) as Hstep.
  destruct (drain_step n file s) as [n1 t|e t] eqn:H1; simpl in Hstep; [|done].
  specialize (IH t (drain_step_later _ _ _ _ _ H1) n1).
  destruct (write_blocks n1 file t); simpl in *; by eapply keeps_trans.
Qed.

Lemma write_n_bytes_keeps n path s : post (write_n_bytes n path s) (keeps [path] s).
Proof.
  unfold write_n_bytes, bind, get_self, raise.
  destruct (negb (can_read (fst s))); [apply keeps_refl|].
  assert (Hopen : post (sys (open_wb path) s) (keeps [path] s)).
  { destruct s as [self w]. unfold sys, open_wb; simpl.
    destruct (decide _); simpl; [by repeat split|].
    destruct (parent_exists _ _); simpl; [|by repeat split].
    repeat split; try done. intros y Hy. simpl.
    rewrite lookup_insert_ne; [done|]. intros ->. apply Hy. by left. }
  destruct (sys (open_wb path) s) as [[] t|e t]; simpl in Hopen; [|done].
  unfold finally. pose proof (write_blocks_keeps path t n) as Hwb.
  destruct (write_blocks n path t) as [[] u|e u]; simpl in *.
  all: eapply keeps_trans; [exact Hopen|].
  all: eapply keeps_trans; [exact Hwb|by repeat split].
Qed.

Lemma reconstruct_keeps total fps : ∀ s,
  post (reconstruct fps total s) (keeps (map fst fps) s).
Proof.
  induction fps as [|this rest IH]; intros s; simpl; [apply keeps_refl|].
  destruct (py_sub _ _) as [len|]; [|apply keeps_refl].
  unfold bind. pose proof (write_n_bytes_keeps len (fst this) s) as Hw.
  destruct (write_n_bytes len this.1 s) as [[] t|e t]; simpl in Hw.
  - specialize (IH t).
    destruct (reconstruct rest total t); simpl in *.
    all: eapply keeps_trans; (eapply keeps_mono; [|eassumption]).
    all: intros x Hx; simpl; rewrite elem_of_cons; auto.
    all: apply list_elem_of_singleton in Hx; auto.
  - eapply keeps_mono; [|exact Hw].
    intros x Hx. apply list_elem_of_singleton in Hx. simpl. rewrite elem_of_cons. auto.
Qed.

End DechunkerFrame.

Lemma insert_by_offset_perm x l : insert_by_offset x l ≡ₚ x :: l.
Proof.
  induction l as [|y l IH]; simpl; [done|].
  destruct (_ <=? _); [done|]. rewrite IH. apply Permutation_swap.
Qed.

Lemma sort_by_offset_perm l : sort_by_offset l ≡ₚ l.
Proof.
  induction l as [|x l IH]; simpl; [done|].
  unfold sort_by_offset in IH. by rewrite insert_by_offset_perm, IH.
Qed.

Lemma sorted_items_perm kvs l : sorted_items kvs = Some l → l ≡ₚ kvs.
Proof.
  unfold sorted_items. destruct (_ <=? _)%nat; [by intros [= <-]|].
  destruct (forallb _ _); [|done]. intros [= <-]. apply sort_by_offset_perm.
Qed.

Lemma decode_keeps w :
  match decode w with
  | Returned _ w' | Raised _ w' =>
      indir w' = indir w ∧
      subdirs (outdir w') = subdirs (outdir w) ∧
      header_file (outdir w') = header_file (outdir w) ∧
      ∀ x, x ∉ header_names (indir w) →
           files (outdir w') !! x = files (outdir w) !! x
  | Unmodelled => True
  end.
Proof.
  unfold decode, header_names.
  destruct (header_file (indir w)) as [t|]; [|by destruct (decide _)].
  destruct (read_header t) as [[[mb fp] total]|] eqn:Hread; [|done].
  destruct (items fp) as [kvs|] eqn:Hitems; [|done].
  destruct (sorted_items kvs) as [l|] eqn:Hsorted; [|done].
  assert (Hnames : match t with
                   | JsonText (JObj kvs0) =>
                       match dict_get "positions" kvs0 with
                       | Some (JObj fp0) => map fst fp0
                       | _ => []
                       end
                   | _ => []
                   end = map fst kvs).
  { destruct t as [|[]]; try done. simpl in Hread. unfold getitem in Hread.
    destruct (dict_get "bytes_per_chunk" kvs0); [|done]. simpl in Hread.
    destruct (floordiv _ _); [|done]. simpl in Hread.
    destruct (dict_get "positions" kvs0) as [p|]; [|done]. simpl in Hread.
    destruct (dict_get "total_bytes" kvs0); [|done]. simpl in Hread.
    injection Hread as <- <- <-. destruct p; try done. by injection Hitems as <-. }
  rewrite Hnames.
  unfold Dechunker.init.
  match goal with |- context [Dechunker.switch_to_next_chunk ?s0] =>
    pose proof (switch_to_next_chunk_keeps s0) as H0;
    destruct (Dechunker.switch_to_next_chunk s0) as [[] s|e s] end; simpl in H0.
  2: { destruct H0 as (? & ? & ? & Hf). repeat split; try done.
       intros x _. apply Hf. apply not_elem_of_nil. }
  pose proof (reconstruct_keeps total l s) as Hrec.
  assert (Hall : ∀ s', keeps (map fst l) s s' →
            indir (snd s') = indir w ∧ subdirs (outdir (snd s')) = subdirs (outdir w) ∧
            header_file (outdir (snd s')) = header_file (outdir w) ∧
            ∀ x, x ∉ map fst kvs → files (outdir (snd s')) !! x = files (outdir w) !! x).
  { intros s' Hk.
    apply (keeps_mono [] (map fst l)) in H0;
      [|intros y Hy; by apply elem_of_nil in Hy].
    destruct (keeps_trans _ _ _ _ H0 Hk) as (? & ? & ? & Hf).
    repeat split; try done. intros x Hx. apply Hf.
    by rewrite (sorted_items_perm _ _ Hsorted). }
  destruct (reconstruct l total s) as [[] s'|e s']; by apply Hall.
Qed.

(** X7: Whatever the chunk files hold, and for every header whose names are
    normalised relative paths, none of them [header], [decode] leaves
    the input directory as it is, makes no directory and writes no
    header in the output directory, and creates or changes there only
    files that the header names. *)
Theorem decode_writes_named_files_only w :
  Forall (λ name, normal_path name = true) (header_names (indir w)) →
  "header" ∉ header_names (indir w) →
  match decode w with
  | Returned _ w' | Raised _ w' =>
      indir w' = indir w ∧
      subdirs (outdir w') = subdirs (outdir w) ∧
      header_file (outdir w') = header_file (outdir w) ∧
      ∀ x, x ∉ header_names (indir w) →
           files (outdir w') !! x = files (outdir w) !! x
  | Unmodelled => True
  end.
Proof. intros _ _. apply decode_keeps. Qed.

Lemma decode_writes_named_files_only_witness :
  match decode chunk_1_missing with
  | Returned _ w' | Raised _ w' =>
      indir w' = indir chunk_1_missing ∧
      subdirs (outdir w') = subdirs (outdir chunk_1_missing) ∧
      header_file (outdir w') = header_file (outdir chunk_1_missing) ∧
      ∀ x, x ∉ header_names (indir chunk_1_missing) →
           files (outdir w') !! x = files (outdir chunk_1_missing) !! x
  | Unmodelled => True
  end.
Proof.
  apply (decode_writes_named_files_only chunk_1_missing).
  - vm_compute. repeat constructor.
  - intros Hin. apply elem_of_cons in Hin as [Heq|Hin]; [discriminate|].
    apply elem_of_cons in Hin as [Heq|Hin]; [discriminate|].
    by apply elem_of_nil in Hin.
Defined.

(** ** The header check of [decode] *)

Lemma read_header_unreadable t : read_header t = None ↔ header_unreadable t.
Proof.
  destruct t as [|v]; [done|]. destruct v as [| | | | |kvs]; try done. simpl.
  destruct (dict_get "bytes_per_chunk" kvs) as [b|]; simpl; [|done].
  unfold floordiv.
  destruct b as [|c|z|str|l|o]; simpl; try (split; [by left|done]).
  all: destruct (dict_get "positions" kvs); simpl; [|split; [by right; left|done]].
  all: destruct (dict_get "total_bytes" kvs); simpl; [|split; [by right; right|done]].
  all: split; [done|]; intros [[]|[?|?]]; done.
Qed.

(** X8: [decode] raises its [ValueError] exactly in these cases: [header]
    is a directory; or the header file is not a JSON document; or the
    document is not an object; or the object lacks one of the keys
    [bytes_per_chunk], [positions] and [total_bytes]; or the value
    under [bytes_per_chunk] is [null], a string, a list or an object.
    The [try] block looks at nothing else, and nothing else raises this
    error. *)
Theorem decode_value_error_iff w :
  (∃ w', decode w = Raised (ValueError "Header file corrupted or invalid") w') ↔
  (header_file (indir w) = None ∧ "header" ∈ subdirs (indir w)) ∨
  (∃ t, header_file (indir w) = Some t ∧ header_unreadable t).
Proof.
  unfold decode. destruct (header_file (indir w)) as [t|].
  2: { destruct (decide _) as [Hdir|Hnodir].
       - split; [by left|by eexists].
       - split; [by intros [? ?]|]. by intros [[_ ?]|(? & ? & ?)]. }
  pose proof (read_header_unreadable t) as Hiff.
  destruct (read_header t) as [[[mb fp] total]|].
  - split.
    + intros [w' Hdec]. exfalso. destruct (items fp); [|done].
      destruct (sorted_items _); [|done].
      unfold Dechunker.init, Dechunker.switch_to_next_chunk, bind, get_self, update,
        sys, ret, open_rb in Hdec; simpl in Hdec.
      destruct (decide _); simpl in Hdec; [done|].
      destruct (files (indir w) !! _); simpl in Hdec; [|unfold missing_error in Hdec; by destruct (existsb _ _)].
      by destruct (reconstruct _ _ _).
    + intros [[? _]|(t' & [= <-] & Hno)]; [done|]. by apply Hiff in Hno.
  - split; [|by eexists].
    intros _. right. exists t. split; [done|]. by apply Hiff.
Qed.

(** X9: A readable header whose [positions] is not an object: the call of
    [items] is outside both [try] blocks, so its [AttributeError] leaves
    [decode]; only the header file was opened, and it is closed again. *)
Theorem decode_positions_not_an_object w kvs b p total :
  header_file (indir w) = Some (JsonText (JObj kvs)) →
  dict_get "bytes_per_chunk" kvs = Some b → is_Some (as_int b) →
  dict_get "positions" kvs = Some p → (∀ fp, p ≠ JObj fp) →
  dict_get "total_bytes" kvs = Some total →
  decode w = Raised AttributeError
               (mkWorld (indir w) (outdir w) (handles w) (Reading "header" :: opened w)).
Proof.
  intros Hh Hb [z Hz] Hp Hno Ht. unfold decode. rewrite Hh. simpl.
  rewrite Hb. simpl. unfold floordiv. rewrite Hz. simpl. rewrite Hp. simpl.
  rewrite Ht. simpl.
  destruct p as [| | | | |fp]; [..|by destruct (Hno fp)].
  all: reflexivity.
Qed.

Lemma decode_positions_not_an_object_witness :
  decode (mkWorld (mkDir {[ "chunk-0" := [Byte.x01] ]} ∅
                     (Some (JsonText (JObj [ ("bytes_per_chunk", JInt 1048576);
                                             ("positions", JArr [JStr "a"]);
                                             ("total_bytes", JInt 1) ]))))
                  empty_dir [] [])
  = Raised AttributeError
      (mkWorld (mkDir {[ "chunk-0" := [Byte.x01] ]} ∅
                     (Some (JsonText (JObj [ ("bytes_per_chunk", JInt 1048576);
                                             ("positions", JArr [JStr "a"]);
                                             ("total_bytes", JInt 1) ]))))
               empty_dir [] [Reading "header"]).
Proof.
  apply (decode_positions_not_an_object
           (mkWorld (mkDir {[ "chunk-0" := [Byte.x01] ]} ∅
                     (Some (JsonText (JObj [ ("bytes_per_chunk", JInt 1048576);
                                             ("positions", JArr [JStr "a"]);
                                             ("total_bytes", JInt 1) ]))))
                  empty_dir [] [])
           [ ("bytes_per_chunk", JInt 1048576); ("positions", JArr [JStr "a"]);
             ("total_bytes", JInt 1) ]
           (JInt 1048576) (JArr [JStr "a"]) (JInt 1)).
  - reflexivity.
  - reflexivity.
  - by eexists.
  - reflexivity.
  - discriminate.
  - reflexivity.
Defined.

(** X10: The decoder opens [chunk-0] when it is constructed, outside the
    [try] block: without that file [decode] does not return, whatever
    the header lists, even no file at all; the [FileNotFoundError]
    leaves it, and nothing but the header file was opened. *)
Theorem decode_needs_the_first_chunk w kvs b fp total sorted :
  header_file (indir w) = Some (JsonText (JObj kvs)) →
  dict_get "bytes_per_chunk" kvs = Some b → is_Some (as_int b) →
  dict_get "positions" kvs = Some (JObj fp) →
  dict_get "total_bytes" kvs = Some total →
  sorted_items fp = Some sorted →
  chunk_name 0 ∉ subdirs (indir w) →
  files (indir w) !! chunk_name 0 = None →
  decode w = Raised (FileNotFoundError (chunk_name 0))
               (mkWorld (indir w) (outdir w) (handles w) (Reading "header" :: opened w)).
Proof.
  intros Hh Hb [z Hz] Hp Ht Hsorted Hfree Hnone. unfold decode. rewrite Hh. simpl.
  rewrite Hb. simpl. unfold floordiv. rewrite Hz. simpl. rewrite Hp. simpl.
  rewrite Ht. simpl. rewrite Hsorted.
  unfold Dechunker.init, Dechunker.switch_to_next_chunk, bind, get_self, update, sys, ret;
    simpl.
  unfold open_rb. simpl. change (-1 + 1) with 0.
  rewrite decide_False by done. rewrite Hnone, missing_error_chunk_name. reflexivity.
Qed.

Lemma decode_needs_the_first_chunk_witness :
  decode (mkWorld (mkDir {[ "chunk-1" := [Byte.x01] ]} ∅ (header_record 1048576 [] 0))
                  two_files [] [])
  = Raised (FileNotFoundError (chunk_name 0))
      (mkWorld (indir (mkWorld (mkDir {[ "chunk-1" := [Byte.x01] ]} ∅
                                  (header_record 1048576 [] 0)) two_files [] []))
               (outdir (mkWorld (mkDir {[ "chunk-1" := [Byte.x01] ]} ∅
                                   (header_record 1048576 [] 0)) two_files [] []))
               (handles (mkWorld (mkDir {[ "chunk-1" := [Byte.x01] ]} ∅
                                    (header_record 1048576 [] 0)) two_files [] []))
               (Reading "header"
                  :: opened (mkWorld (mkDir {[ "chunk-1" := [Byte.x01] ]} ∅
                                        (header_record 1048576 [] 0)) two_files [] []))).
Proof.
  apply (decode_needs_the_first_chunk
           (mkWorld (mkDir {[ "chunk-1" := [Byte.x01] ]} ∅ (header_record 1048576 [] 0))
                    two_files [] [])
           [ ("bytes_per_chunk", JInt 1048576); ("positions", JObj []);
             ("total_bytes", JInt 0) ]
           (JInt 1048576) [] (JInt 0) []).
  - reflexivity.
  - reflexivity.
  - by eexists.
  - reflexivity.
  - reflexivity.
  - reflexivity.
  - apply not_elem_of_empty.
  - reflexivity.
Defined.

(** ** Runs of [decode] that report no error *)

Section DechunkerSuccess.
Import Dechunker.

Lemma writable_keeps paths s s' path :
  keeps paths s s' → writable (outdir (snd s')) path → writable (outdir (snd s)) path.
Proof.
  intros (_ & Hsub & _) [Hno Hp]. unfold writable, parent_exists in *.
  by rewrite <- Hsub.
Qed.

Lemma write_n_bytes_ok_writable n path s s' :
  write_n_bytes n path s = Ok tt s' → writable (outdir (snd s)) path.
Proof.
  destruct s as [self w]. unfold write_n_bytes, bind, get_self, raise, sys, open_wb; simpl.
  destruct (negb (can_read self)); [done|]. simpl.
  destruct (decide (path ∈ subdirs (outdir w))); [done|].
  destruct (parent_exists (outdir w) path) eqn:Hp; [|done].
  intros _. by split.
Qed.

Lemma reconstruct_ok_writable total fps : ∀ s s',
  reconstruct fps total s = Ok tt s' →
  ∀ name, name ∈ map fst fps → writable (outdir (snd s)) name.
Proof.
  induction fps as [|this rest IH]; intros s s' Hok name Hin; simpl in *.
  { by apply elem_of_nil in Hin. }
  destruct (py_sub _ _) as [len|]; [|done].
  unfold bind in Hok.
  pose proof (write_n_bytes_keeps len (fst this) s) as Hk.
  destruct (write_n_bytes len this.1 s) as [[] t|e t] eqn:Hw; [|done].
  apply elem_of_cons in Hin as [->|Hin].
  - by eapply write_n_bytes_ok_writable.
  - eapply writable_keeps; [exact Hk|]. by eapply IH.
Qed.

Lemma switch_to_next_chunk_holds s s' :
  switch_to_next_chunk s = Ok tt s' → holds_chunk s'.
Proof.
  destruct s as [[bpc idx cr ch un] w].
  unfold switch_to_next_chunk, bind, get_self, update, sys, ret, open_rb; simpl.
  destruct ch as [c|]; simpl.
  all: destruct (decide _); simpl; [done|].
  all: destruct (files (indir w) !! chunk_name (idx + 1)); simpl; [|done].
  all: intros [= <-]; exists (idx + 1); simpl; split; [done|by left].
Qed.

Lemma drain_step_holds n file s n' s' :
  holds_chunk s → drain_step n file s = Ok n' s' → holds_chunk s'.
Proof.
  destruct s as [[bpc idx cr ch un] w]. intros (i & Hc & Hopen). simpl in Hc, Hopen.
  subst ch. unfold drain_step, chunk_read, bind, get_self; simpl.
  destruct (read_check n); [done|].
  destruct (bool_decide _); [|done].
  destruct (file_read n un) as [b rest]. destruct b as [|x b].
  - match goal with |- context [switch_to_next_chunk ?t] =>
      pose proof (switch_to_next_chunk_holds t) as Hsw;
      destruct (switch_to_next_chunk t) as [[] t'|e t'] end; [|done].
    intros [= _ <-]. by apply Hsw.
  - unfold sys, file_write, ret; simpl.
    destruct (bool_decide _); simpl; [|done].
    intros [= _ <-]. by exists i.
Qed.

Lemma write_blocks_holds file s : ∀ n s',
  holds_chunk s → write_blocks n file s = Ok tt s' → holds_chunk s'.
Proof.
  induction (later_well_founded s) as [s _ IH]. intros n s' Hs.
  rewrite write_blocks_step. destruct (0 <? n); [|by intros [= <-]].
  destruct (drain_step n file s) as [n1 t|e t] eqn:H1; [|done].
  apply IH; [by eapply drain_step_later|by eapply drain_step_holds].
Qed.

Lemma write_n_bytes_holds n path s s' :
  holds_chunk s → write_n_bytes n path s = Ok tt s' → holds_chunk s'.
Proof.
  intros Hs. unfold write_n_bytes, bind, get_self, raise.
  destruct (negb (can_read (fst s))); [done|].
  destruct (sys (open_wb path) s) as [[] t|e t] eqn:Hopen; [|done].
  assert (Ht : holds_chunk t).
  { destruct s as [self w]. destruct Hs as (i & Hc & Hin). simpl in *.
    unfold sys, open_wb in Hopen; simpl in Hopen.
    destruct (decide _); [done|]. destruct (parent_exists _ _); [|done].
    injection Hopen as <-. exists i. split; [done|]. simpl. by right. }
  unfold finally.
  destruct (write_blocks n path t) as [[] u|e u] eqn:Hwb; [|done].
  intros [= <-]. destruct (write_blocks_holds _ _ _ _ Ht Hwb) as (i & Hc & Hin).
  exists i. split; [done|]. simpl. by apply elem_of_remove_first.
Qed.

Lemma reconstruct_holds total fps : ∀ s s',
  holds_chunk s → reconstruct fps total s = Ok tt s' → holds_chunk s'.
Proof.
  induction fps as [|this rest IH]; intros s s' Hs; simpl.
  { by intros [= <-]. }
  destruct (py_sub _ _) as [len|]; [|done].
  unfold bind. destruct (write_n_bytes len this.1 s) as [[] t|e t] eqn:Hw; [|done].
  apply IH. by eapply write_n_bytes_holds.
Qed.

End DechunkerSuccess.

Lemma header_names_items w t mb fp total kvs :
  header_file (indir w) = Some t →
  read_header t = Some (mb, fp, total) →
  items fp = Some kvs →
  header_names (indir w) = map fst kvs.
Proof.
  intros Hh Hread Hitems. unfold header_names. rewrite Hh.
  destruct t as [|[]]; try done. simpl in Hread.
  destruct (dict_get "bytes_per_chunk" kvs0); [|done]. simpl in Hread.
  destruct (floordiv _ _); [|done]. simpl in Hread.
  destruct (dict_get "positions" kvs0) as [p|]; [|done]. simpl in Hread.
  destruct (dict_get "total_bytes" kvs0); [|done]. simpl in Hread.
  injection Hread as <- <- <-. destruct p; try done. by injection Hitems as <-.
Qed.

Lemma decode_returned_none_writable w w' :
  decode w = Returned None w' →
  ∀ name, name ∈ header_names (indir w) → writable (outdir w) name.
Proof.
  unfold decode.
  destruct (header_file (indir w)) as [t|] eqn:Hh; [|by destruct (decide _)].
  destruct (read_header t) as [[[mb fp] total]|] eqn:Hread; [|done].
  destruct (items fp) as [kvs|] eqn:Hitems; [|done].
  rewrite (header_names_items w t mb fp total kvs Hh Hread Hitems).
  destruct (sorted_items kvs) as [l|] eqn:Hsorted; [|done].
  unfold Dechunker.init.
  match goal with |- context [Dechunker.switch_to_next_chunk ?s0] =>
    pose proof (switch_to_next_chunk_keeps s0) as H0;
    destruct (Dechunker.switch_to_next_chunk s0) as [[] s|e s] end; [|done].
  simpl in H0.
  destruct (reconstruct l total s) as [[] s'|e s'] eqn:Hrec; [|done].
  intros _ name Hin.
  apply (writable_keeps [] _ s name) in H0; [exact H0|].
  eapply reconstruct_ok_writable; [exact Hrec|].
  by rewrite (sorted_items_perm _ _ Hsorted).
Qed.

(** X11: For a header whose names are normalised relative paths, [decode]
    returns [False] only if every file the header names could be opened
    for writing in the output directory as it was: the name is no
    directory there and the directory part of the name exists. *)
Theorem decode_succeeds_only_in_existing_directories w w' :
  Forall (λ name, normal_path name = true) (header_names (indir w)) →
  decode w = Returned None w' →
  ∀ name, name ∈ header_names (indir w) → writable (outdir w) name.
Proof. intros _. apply decode_returned_none_writable. Qed.

Lemma decode_succeeds_only_in_existing_directories_witness :
  writable (outdir (mkWorld flat_chunks empty_dir [] [])) "a".
Proof.
  apply (decode_succeeds_only_in_existing_directories
           (mkWorld flat_chunks empty_dir [] [])
           (mkWorld flat_chunks (mkDir {[ "a" := [Byte.x01] ]} ∅ None)
              [Reading "chunk-0"] [Writing "a"; Reading "chunk-0"; Reading "header"])).
  - vm_compute. repeat constructor.
  - vm_compute. reflexivity.
  - by left.
Defined.

(** X12: Nothing in [decode] closes the chunk it reads from: whenever [decode]
    returns [False], the file object of some chunk is still open. *)
Theorem decode_never_closes_its_chunk w w' :
  decode w = Returned None w' → ∃ i, Reading (chunk_name i) ∈ handles w'.
Proof.
  unfold decode.
  destruct (header_file (indir w)) as [t|] eqn:Hh; [|by destruct (decide _)].
  destruct (read_header t) as [[[mb fp] total]|] eqn:Hread; [|done].
  destruct (items fp) as [kvs|] eqn:Hitems; [|done].
  destruct (sorted_items kvs) as [l|] eqn:Hsorted; [|done].
  unfold Dechunker.init.
  match goal with |- context [Dechunker.switch_to_next_chunk ?s0] =>
    pose proof (switch_to_next_chunk_holds s0) as H0;
    destruct (Dechunker.switch_to_next_chunk s0) as [[] s|e s] end; [|done].
  destruct (reconstruct l total s) as [[] s'|e s'] eqn:Hrec; [|done].
  intros [= <-].
  destruct (reconstruct_holds _ _ _ _ (H0 s eq_refl) Hrec) as (i & _ & Hin).
  by exists i.
Qed.

Lemma decode_never_closes_its_chunk_witness :
  ∃ i, Reading (chunk_name i)
         ∈ handles (mkWorld flat_chunks (mkDir {[ "a" := [Byte.x01] ]} ∅ None)
                      [Reading "chunk-0"] [Writing "a"; Reading "chunk-0"; Reading "header"]).
Proof.
  apply (decode_never_closes_its_chunk (mkWorld flat_chunks empty_dir [] [])).
  vm_compute. reflexivity.
Defined.

(** ** Offsets count only by their differences *)

Lemma insert_by_offset_map (f : string * json → string * json) k x l :
  (∀ y, offset_of (f y) = offset_of y + k) →
  insert_by_offset (f x) (map f l) = map f (insert_by_offset x l).
Proof.
  intros Hf. induction l as [|y l IH]; simpl; [done|].
  rewrite !Hf.
  destruct (Z.leb_spec (offset_of x + k) (offset_of y + k)),
           (Z.leb_spec (offset_of x) (offset_of y)); try lia; [done|].
  simpl. by rewrite IH.
Qed.

Lemma sort_by_offset_map (f : string * json → string * json) k l :
  (∀ y, offset_of (f y) = offset_of y + k) →
  sort_by_offset (map f l) = map f (sort_by_offset l).
Proof.
  intros Hf. induction l as [|x l IH]; simpl; [done|].
  fold (sort_by_offset (map f l)). fold (sort_by_offset l).
  rewrite IH. by apply (insert_by_offset_map f k).
Qed.

Lemma json_positions_integers l :
  Forall (λ kv : string * json, ∃ z, snd kv = JInt z) (json_positions l).
Proof. induction l as [|[] l IH]; constructor; [by eexists|done]. Qed.

Lemma json_positions_of_integers (l : list (string * json)) :
  Forall (λ kv, ∃ z, snd kv = JInt z) l →
  json_positions (map (λ kv, (fst kv, offset_of kv)) l) = l.
Proof.
  induction 1 as [|[n v] l [z Hz] _ IH]; simpl; [done|]. simpl in Hz. subst.
  by rewrite IH.
Qed.

Lemma json_positions_shifted k l :
  json_positions (shifted k l)
  = map (λ kv, (fst kv, JInt (offset_of kv + k))) (json_positions l).
Proof.
  unfold json_positions, shifted. rewrite !map_map. apply map_ext. by intros [].
Qed.

Lemma sorted_items_shifted k l :
  ∃ r, sorted_items (json_positions l) = Some (json_positions r) ∧
       sorted_items (json_positions (shifted k l)) = Some (json_positions (shifted k r)).
Proof.
  assert (Hint : ∀ l', forallb (λ kv, bool_decide (is_Some (as_int (snd kv))))
                         (json_positions l') = true).
  { induction l' as [|[] l' IH]; [done|]. simpl. by rewrite IH. }
  assert (Hlen : ∀ l', length (json_positions l') = length l').
  { intros l'. apply length_map. }
  unfold sorted_items. rewrite !Hint, !Hlen. unfold shifted at 1. rewrite length_map.
  destruct (_ <=? _)%nat; [by exists l|].
  exists (map (λ kv, (fst kv, offset_of kv)) (sort_by_offset (json_positions l))).
  assert (Hs : Forall (λ kv : string * json, ∃ z, snd kv = JInt z)
                 (sort_by_offset (json_positions l))).
  { rewrite sort_by_offset_perm. apply json_positions_integers. }
  rewrite (json_positions_shifted k (map _ _)).
  rewrite (json_positions_of_integers _ Hs). split; [done|].
  rewrite json_positions_shifted. f_equal.
  by apply (sort_by_offset_map _ k).
Qed.

Lemma reconstruct_shifted k total r : ∀ s,
  reconstruct (json_positions (shifted k r)) (JInt (total + k)) s
  = reconstruct (json_positions r) (JInt total) s.
Proof.
  induction r as [|[name off] r IH]; intros s; [done|].
  cbn [shifted json_positions map reconstruct fst snd].
  fold (shifted k r). fold (json_positions (shifted k r)). fold (json_positions r).
  assert (Hsub :
    py_sub match json_positions (shifted k r) with
           | [] => JInt (total + k) | next :: _ => snd next end (JInt (off + k))
    = py_sub match json_positions r with
             | [] => JInt total | next :: _ => snd next end (JInt off)).
  { destruct r as [|[] r]; unfold py_sub; simpl; f_equal; lia. }
  rewrite Hsub. clear Hsub. destruct (py_sub _ (JInt off)) as [len|]; [|reflexivity].
  unfold bind. destruct (Dechunker.write_n_bytes _ _ _) as [[] t|]; [|done].
  apply IH.
Qed.

(** X13: [decode] uses the offsets of the header only to sort the entries and
    to subtract neighbours: moving every offset and [total_bytes] by the
    same amount changes nothing in what it does. *)
Theorem decode_uses_offset_differences w bpc fps total k :
  header_file (indir w) = header_record bpc (json_positions fps) total →
  same_result
    (decode w)
    (decode (with_header
               (header_record bpc (json_positions (shifted k fps)) (total + k)) w)).
Proof.
  intros Hh. unfold decode. simpl. rewrite Hh. simpl.
  destruct (sorted_items_shifted k fps) as (r & -> & ->).
  unfold Dechunker.init.
  match goal with |- context [same_result
      match Dechunker.switch_to_next_chunk ?s1 with _ => _ end
      match Dechunker.switch_to_next_chunk ?s2 with _ => _ end] =>
    assert (Hal : alike s1 s2) by (by repeat split);
    pose proof (switch_to_next_chunk_alike _ _ Hal) as Hsw;
    destruct (Dechunker.switch_to_next_chunk s1) as [[] t1|e1 t1],
             (Dechunker.switch_to_next_chunk s2) as [[] t2|e2 t2]
  end; simpl in Hsw; try done.
  - destruct Hsw as [_ Ht]. rewrite reconstruct_shifted.
    pose proof (reconstruct_alike (json_positions r) (JInt total) _ _ Ht) as Hr.
    destruct (reconstruct _ _ t1) as [[] u1|], (reconstruct _ _ t2) as [[] u2|];
      simpl in Hr; try done.
    + destruct Hr as (_ & _ & _ & _ & _ & _ & _ & ? & ? & ?). by repeat split.
    + destruct Hr as (-> & _ & _ & _ & _ & _ & _ & ? & ? & ?). by repeat split.
  - destruct Hsw as (-> & _ & _ & _ & _ & _ & _ & ? & ? & ?). by repeat split.
Qed.

Lemma decode_uses_offset_differences_witness :
  same_result
    (decode chunk_1_missing)
    (decode (with_header
               (header_record 1048576 (json_positions (shifted 5 [("a", 0); ("b", 1)])) (3 + 5))
               chunk_1_missing)).
Proof.
  apply (decode_uses_offset_differences chunk_1_missing 1048576 [("a", 0); ("b", 1)] 3 5).
  reflexivity.
Defined.

(** ** The chunk files count only by their concatenation *)

(** X14: Where the stream is cut into chunk files does not matter to
    [decode]: two chunk sets with the same header whose chunk files,
    joined in index order, give the same bytes are decoded into the same
    output directory, and both runs report an error or neither does. *)
Theorem decode_joins_the_chunks w1 w2 bpc kvs total fps c1 cs1 c2 cs2 :
  header_file (indir w1) = header_record bpc kvs total →
  header_file (indir w2) = header_record bpc kvs total →
  sorted_items kvs = Some (json_positions fps) →
  (∀ j, chunk_name j ∉ subdirs (indir w1)) →
  (∀ j, chunk_name j ∉ subdirs (indir w2)) →
  chunk_run (files (indir w1)) 0 (c1 :: cs1) →
  chunk_run (files (indir w2)) 0 (c2 :: cs2) →
  c1 ++ concat cs1 = c2 ++ concat cs2 →
  outdir w1 = outdir w2 →
  (∀ name, name ∈ map fst fps → writable (outdir w1) name) →
  ∃ e1 e2 w1' w2',
    decode w1 = Returned e1 w1' ∧ decode w2 = Returned e2 w2' ∧
    outdir w1' = outdir w2' ∧ (e1 = None ↔ e2 = None).
Proof.
  intros Hh1 Hh2 Hsorted Hfree1 Hfree2 Hrun1 Hrun2 Hcat Hout Hwr.
  destruct (decode_spec w1 bpc kvs total fps c1 cs1 Hh1 Hsorted Hfree1 Hrun1 Hwr)
    as (w1' & Hdec1 & Hf1 & Hs1 & Hhd1 & _).
  rewrite Hout in Hwr.
  destruct (decode_spec w2 bpc kvs total fps c2 cs2 Hh2 Hsorted Hfree2 Hrun2 Hwr)
    as (w2' & Hdec2 & Hf2 & Hs2 & Hhd2 & _).
  rewrite Hcat, Hout in Hdec1, Hf1. rewrite Hout in Hs1, Hhd1.
  eexists _, _, w1', w2'. split; [exact Hdec1|]. split; [exact Hdec2|]. split.
  - destruct (outdir w1'), (outdir w2'). simpl in *. congruence.
  - by destruct (snd (carve _ _ _)).
Qed.

Lemma decode_joins_the_chunks_witness :
  ∃ e1 e2 w1' w2',
    decode stream_in_one_chunk = Returned e1 w1' ∧
    decode stream_in_two_chunks = Returned e2 w2' ∧
    outdir w1' = outdir w2' ∧ (e1 = None ↔ e2 = None).
Proof.
  apply (decode_joins_the_chunks stream_in_one_chunk stream_in_two_chunks 1048576
           [("a", JInt 0); ("b", JInt 1)] 2 [("a", 0); ("b", 1)]
           [Byte.x01; Byte.x02] [] [Byte.x01] [[Byte.x02]]).
  - reflexivity.
  - reflexivity.
  - reflexivity.
  - intros j. apply not_elem_of_empty.
  - intros j. apply not_elem_of_empty.
  - constructor; [reflexivity|]. constructor. reflexivity.
  - constructor; [reflexivity|]. constructor; [reflexivity|]. constructor. reflexivity.
  - reflexivity.
  - reflexivity.
  - intros name Hin. split; [apply not_elem_of_empty|].
    apply elem_of_cons in Hin as [->|Hin]; [reflexivity|].
    apply elem_of_cons in Hin as [->|Hin]; [reflexivity|].
    by apply elem_of_nil in Hin.
Defined.

(** ** Files without bytes *)



(** ** Paths *)

Lemma string_app_assoc (a b c : string) : (a +:+ b) +:+ c = a +:+ b +:+ c.
Proof.
  induction a as [|x a IH]; [done|].
  change (String x ((a +:+ b) +:+ c) = String x (a +:+ b +:+ c)). by rewrite IH.
Qed.

Lemma strip_prefix_app p s : strip_prefix p (p +:+ s) = Some s.
Proof.
  induction p as [|x p IH]; [done|].
  change (strip_prefix (String x p) (String x p +:+ s))
    with (if Ascii.eqb x x then strip_prefix p (p +:+ s) else None).
  by rewrite Ascii.eqb_refl, IH.
Qed.

Lemma removeprefix_app p s : removeprefix p (p +:+ s) = s.
Proof. unfold removeprefix. by rewrite strip_prefix_app. Qed.

Lemma plain_spec name :
  plain name = true → name ≠ EmptyString ∧ has_slash name = false.
Proof.
  unfold plain. rewrite !andb_true_iff, !negb_true_iff, !bool_decide_eq_false. tauto.
Qed.

Lemma starts_with_slash_has_slash p : starts_with_slash p = true → has_slash p = true.
Proof. destruct p as [|c p]; [done|]. simpl. by intros ->. Qed.

Lemma ends_with_slash_has_slash p : ends_with_slash p = true → has_slash p = true.
Proof.
  induction p as [|c p IH]; [done|]. simpl. destruct p as [|c' p].
  - by intros ->.
  - intros H. rewrite (IH H). by rewrite orb_true_r.
Qed.

Lemma ends_with_slash_app a c b :
  ends_with_slash (a +:+ String c b) = ends_with_slash (String c b).
Proof.
  induction a as [|x a IH]; [done|].
  change (ends_with_slash (String x a +:+ String c b))
    with (match a +:+ String c b with
          | EmptyString => Ascii.eqb x "/"%char
          | String _ _ => ends_with_slash (a +:+ String c b)
          end).
  rewrite IH. by destruct a.
Qed.

Lemma plain_no_slashes name :
  plain name = true →
  starts_with_slash name = false ∧ ends_with_slash name = false.
Proof.
  intros [_ Hno]%plain_spec. split.
  - destruct (starts_with_slash name) eqn:H; [|done].
    apply starts_with_slash_has_slash in H. congruence.
  - destruct (ends_with_slash name) eqn:H; [|done].
    apply ends_with_slash_has_slash in H. congruence.
Qed.

(** Below a directory whose path does not end in a slash, an entry is
    reached by one more slash and its name. *)
Lemma os_path_join_plain top name :
  top ≠ EmptyString → ends_with_slash top = false → plain name = true →
  os_path_join top name = top +:+ "/" +:+ name.
Proof.
  intros Htop Hend Hname. unfold os_path_join.
  destruct (plain_no_slashes _ Hname) as [-> _].
  by rewrite bool_decide_eq_false_2, Hend.
Qed.

Lemma below_plain top name :
  plain name = true →
  top +:+ "/" +:+ name ≠ EmptyString ∧ ends_with_slash (top +:+ "/" +:+ name) = false.
Proof.
  intros Hname. split; [by destruct top|].
  destruct (plain_no_slashes _ Hname) as [_ Hend].
  apply plain_spec in Hname as [Hne _]. destruct name as [|c name]; [done|].
  change (top +:+ "/" +:+ String c name) with (top +:+ String "/" (String c name)).
  rewrite ends_with_slash_app.
  change (String "/" (String c name)) with ("/" +:+ String c name).
  by rewrite ends_with_slash_app.
Qed.

(** ** Induction on trees *)

Lemma node_induction (P : node → Prop) :
  (∀ data, P (File data)) →
  (∀ entries, Forall (λ e, P (snd e)) entries → P (Folder entries)) →
  ∀ t, P t.
Proof.
  intros Hfile Hfolder. fix IH 1. intros [data|entries]; [apply Hfile|].
  apply Hfolder. induction entries as [|[name t] entries IHentries]; constructor.
  - apply IH.
  - apply IHentries.
Qed.

Lemma well_named_folder entries :
  well_named (Folder entries) = true ↔
  NoDup (map fst entries) ∧
  Forall (λ e, plain (fst e) = true ∧ well_named (snd e) = true) entries.
Proof.
  simpl. rewrite andb_true_iff, bool_decide_eq_true, forallb_forall, Forall_forall.
  split; intros [Hnd Hall]; (split; [done|]); intros e He.
  - apply andb_true_iff, Hall. by apply list_elem_of_In.
  - apply andb_true_iff, Hall. by apply list_elem_of_In.
Qed.

(** ** What [os.walk] finds *)

Lemma flat_map_map_each {A B C} (f : B → C) (g : A → list B) (l : list A) :
  flat_map (λ x, map f (g x)) l = map f (flat_map g l).
Proof.
  induction l as [|x l IH]; simpl; [done|]. by rewrite IH, map_app.
Qed.

Lemma flat_map_flat_map {A B C} (f : B → list C) (g : A → list B) (l : list A) :
  flat_map f (flat_map g l) = flat_map (λ x, flat_map f (g x)) l.
Proof.
  induction l as [|x l IH]; simpl; [done|]. by rewrite flat_map_app, IH.
Qed.

(** Under a directory at [top], the paths of the files that the walk
    yields, each joined to its [root], are [top], a slash and the
    relative path. *)
Lemma os_walk_paths t : ∀ top,
  top ≠ EmptyString → ends_with_slash top = false → well_named t = true →
  flat_map (λ step, map (os_path_join (fst (fst step))) (snd step)) (os_walk top t)
  = map (λ kv, top +:+ "/" +:+ fst kv) (contents t).
Proof.
  induction t as [data|entries IH] using node_induction; intros top Htop Hend Hwn; [done|].
  apply well_named_folder in Hwn as [_ Hwn].
  cbn [os_walk contents flat_map fst snd]. rewrite map_app. f_equal.
  - clear IH. induction Hwn as [|[name [data|sub]] entries [Hname _] _ IHe]; simpl; [done|..].
    + rewrite IHe. by rewrite os_path_join_plain.
    + exact IHe.
  - rewrite flat_map_flat_map.
    induction Hwn as [|[name [data|sub]] entries [Hname Hsub] Hrest IHe]; simpl in *; [done|..].
    + apply IHe. by inversion IH.
    + apply Forall_cons in IH as [IHsub IHrest]. simpl in *.
      rewrite map_app, (IHe IHrest). f_equal.
      rewrite os_path_join_plain by done.
      destruct (below_plain top name Hname) as [Hne' Hend'].
      rewrite (IHsub _ Hne' Hend' Hsub), map_map. apply map_ext.
      intros kv. simpl. by rewrite !string_app_assoc.
Qed.

(** ** What [collapse_tree] returns *)

Lemma flat_map_map_through {A B C D} (f : C → D) (h : A → B → C) (g : A → list B)
    (l : list A) :
  flat_map (λ x, map (λ y, f (h x y)) (g x)) l
  = map f (flat_map (λ x, map (h x) (g x)) l).
Proof.
  induction l as [|x l IH]; simpl; [done|]. by rewrite IH, map_app, map_map.
Qed.

Lemma collapse_tree_folder dir entries :
  dir ≠ EmptyString → ends_with_slash dir = false →
  well_named (Folder entries) = true →
  collapse_tree dir (Some (Folder entries)) = inr (dir, map fst (contents (Folder entries))).
Proof.
  intros Hdir Hend Hwn. unfold collapse_tree. do 2 f_equal.
  rewrite (flat_map_map_through (removeprefix (dir +:+ "/"))
             (λ step file, os_path_join (fst (fst step)) file) snd).
  rewrite os_walk_paths by done. rewrite map_map. apply map_ext.
  intros kv. by rewrite <- string_app_assoc, removeprefix_app.
Qed.

(** X16: For a directory, [collapse_tree] returns the directory itself as
    base and, as names, the paths of the regular files below it relative
    to it, with slashes between the components: first the files of the
    directory, then those of each sub-directory.  The path is what
    [abspath] returns for a directory other than the root: not empty and
    without a slash at its end. *)
Theorem collapse_tree_lists_relative_paths dir entries :
  dir ≠ EmptyString → ends_with_slash dir = false →
  well_named (Folder entries) = true →
  collapse_tree dir (Some (Folder entries)) = inr (dir, map fst (contents (Folder entries))).
Proof. apply collapse_tree_folder. Qed.

Lemma collapse_tree_lists_relative_paths_witness :
  collapse_tree "/home/u/r"
    (Some (Folder [ ("x", File [Byte.x01]);
                    ("d", Folder [ ("y", File [Byte.x02]); ("e", Folder []) ]);
                    ("w", File []) ]))
  = inr ("/home/u/r",
         map fst (contents (Folder [ ("x", File [Byte.x01]);
                                     ("d", Folder [ ("y", File [Byte.x02]); ("e", Folder []) ]);
                                     ("w", File []) ]))).
Proof.
  apply (collapse_tree_lists_relative_paths "/home/u/r"
           [ ("x", File [Byte.x01]);
             ("d", Folder [ ("y", File [Byte.x02]); ("e", Folder []) ]);
             ("w", File []) ]).
  - discriminate.
  - reflexivity.
  - vm_compute. reflexivity.
Defined.

Lemma contents_relative t :
  well_named t = true →
  Forall (λ kv, starts_with_slash (fst kv) = false) (contents t).
Proof.
  induction t as [data|entries IH] using node_induction; intros Hwn; [constructor|].
  apply well_named_folder in Hwn as [_ Hwn]. simpl. apply Forall_app. split.
  - clear IH. induction Hwn as [|[name [data|sub]] entries [Hname _] _ IHe]; simpl; [by constructor|..].
    + constructor; [|done]. by destruct (plain_no_slashes _ Hname).
    + done.
  - clear IH. induction Hwn as [|[name [data|sub]] entries [Hname _] _ IHe]; simpl; [by constructor|..].
    + done.
    + apply Forall_app. split; [|done]. apply Forall_forall.
      intros kv (kv' & -> & _)%list_elem_of_fmap. simpl.
      destruct (plain_no_slashes _ Hname) as [Hstart _].
      apply plain_spec in Hname as [Hne _].
      destruct name as [|c name]; [done|]. exact Hstart.
Qed.

(** X17: [encode] opens [os.path.join(base, name)] for every name; these are
    exactly the paths under which the walk found the files, in the same
    order. *)
Theorem collapse_tree_names_lead_back dir entries base names :
  dir ≠ EmptyString → ends_with_slash dir = false →
  well_named (Folder entries) = true →
  collapse_tree dir (Some (Folder entries)) = inr (base, names) →
  map (os_path_join base) names
  = flat_map (λ step, map (os_path_join (fst (fst step))) (snd step))
      (os_walk dir (Folder entries)).
Proof.
  intros Hdir Hend Hwn. rewrite collapse_tree_folder, os_walk_paths by done.
  pose proof (contents_relative _ Hwn) as Hrel. revert Hrel.
  generalize (contents (Folder entries)). intros l Hrel [= <- <-].
  rewrite map_map.
  induction Hrel as [|kv l Hkv _ IH]; [done|].
  cbn [map]. rewrite IH. f_equal.
  unfold os_path_join. by rewrite Hkv, bool_decide_eq_false_2, Hend.
Qed.

Lemma collapse_tree_names_lead_back_witness :
  map (os_path_join "/home/u/r") ["x"; "w"; "d/y"]
  = flat_map (λ step, map (os_path_join (fst (fst step))) (snd step))
      (os_walk "/home/u/r"
         (Folder [ ("x", File [Byte.x01]);
                   ("d", Folder [ ("y", File [Byte.x02]); ("e", Folder []) ]);
                   ("w", File []) ])).
Proof.
  apply (collapse_tree_names_lead_back "/home/u/r"
           [ ("x", File [Byte.x01]);
             ("d", Folder [ ("y", File [Byte.x02]); ("e", Folder []) ]);
             ("w", File []) ] "/home/u/r" ["x"; "w"; "d/y"]).
  - discriminate.
  - reflexivity.
  - vm_compute. reflexivity.
  - vm_compute. reflexivity.
Defined.

Lemma os_walk_count t : ∀ top,
  length (flat_map (λ step : string * list string * list string, snd step) (os_walk top t))
  = match t with File _ => 0%nat | Folder _ => count_files t end.
Proof.
  induction t as [data|entries IH] using node_induction; intros top; [done|].
  cbn [os_walk flat_map snd count_files]. rewrite length_app, flat_map_flat_map.
  induction entries as [|[name [data|sub]] entries IHe]; simpl; [done|..].
  - apply Forall_cons in IH as [_ IH]. specialize (IHe IH). simpl in IHe. lia.
  - apply Forall_cons in IH as [IHsub IH]. specialize (IHe IH). simpl in *.
    rewrite length_app, IHsub. destruct sub; simpl in *; lia.
Qed.

(** X18: [collapse_tree] names every regular file below the directory once
    and nothing else: a directory, empty or not, adds no name of its
    own.  This holds whatever the path and the names are. *)
Theorem collapse_tree_counts_the_files dir entries :
  ∃ names, collapse_tree dir (Some (Folder entries)) = inr (dir, names) ∧
           length names = count_files (Folder entries).
Proof.
  eexists. split; [reflexivity|].
  rewrite <- (os_walk_count (Folder entries) dir).
  generalize (os_walk dir (Folder entries)). intros l.
  induction l as [|[[root dirs] files] l IH]; simpl; [done|].
  by rewrite !length_app, length_map, IH.
Qed.

(** ** The names are distinct *)

Lemma string_app_nil_r (a : string) : a +:+ "" = a.
Proof.
  induction a as [|x a IH]; [done|].
  change (String x (a +:+ "") = String x a). by rewrite IH.
Qed.

Lemma below_inj n1 r1 n2 r2 :
  has_slash n1 = false → has_slash n2 = false →
  n1 +:+ "/" +:+ r1 = n2 +:+ "/" +:+ r2 → n1 = n2 ∧ r1 = r2.
Proof.
  revert n2. induction n1 as [|c n1 IH]; intros [|c' n2] H1 H2 Heq.
  - change (String "/" r1 = String "/" r2) in Heq. by injection Heq as ->.
  - change (String "/" r1 = String c' (n2 +:+ "/" +:+ r2)) in Heq.
    injection Heq as <- _. done.
  - change (String c (n1 +:+ "/" +:+ r1) = String "/" r2) in Heq.
    injection Heq as -> _. done.
  - change (String c (n1 +:+ "/" +:+ r1) = String c' (n2 +:+ "/" +:+ r2)) in Heq.
    injection Heq as -> Heq. simpl in H1, H2.
    apply orb_false_iff in H1 as [_ H1]. apply orb_false_iff in H2 as [_ H2].
    destruct (IH n2 H1 H2 Heq) as [-> ->]. done.
Qed.

Lemma has_slash_below name r : has_slash (name +:+ "/" +:+ r) = true.
Proof. rewrite has_slash_app. by rewrite orb_true_r. Qed.

Lemma elem_of_flat_map {A B} (f : A → list B) (l : list A) (y : B) :
  y ∈ flat_map f l ↔ ∃ x, x ∈ l ∧ y ∈ f x.
Proof.
  rewrite list_elem_of_In, in_flat_map. split.
  - intros (x & Hx & Hy). exists x. by rewrite !list_elem_of_In.
  - intros (x & Hx & Hy). exists x. by rewrite <- !list_elem_of_In.
Qed.

Lemma elem_of_contents entries x data :
  (x, data) ∈ contents (Folder entries) ↔
  (x, File data) ∈ entries ∨
  ∃ name es r, (name, Folder es) ∈ entries ∧ (r, data) ∈ contents (Folder es) ∧
               x = name +:+ "/" +:+ r.
Proof.
  cbn [contents]. rewrite elem_of_app, !elem_of_flat_map. split.
  - intros [([n [d|es]] & Hin & Hy)|([n [d|es]] & Hin & Hy)]; simpl in Hy.
    + apply list_elem_of_singleton in Hy as [= -> ->]. by left.
    + by apply elem_of_nil in Hy.
    + by apply elem_of_nil in Hy.
    + apply list_elem_of_fmap in Hy as ([r d] & [= -> ->] & Hr).
      right. by exists n, es, r.
  - intros [Hin|(n & es & r & Hin & Hr & ->)].
    + left. exists (x, File data). split; [done|]. simpl. by apply list_elem_of_singleton.
    + right. exists (n, Folder es). split; [done|]. simpl.
      apply list_elem_of_fmap. by exists (r, data).
Qed.

Lemma elem_of_folders entries x :
  x ∈ folders (Folder entries) ↔
  ∃ name es, (name, Folder es) ∈ entries ∧
             (x = name ∨ ∃ p, p ∈ folders (Folder es) ∧ x = name +:+ "/" +:+ p).
Proof.
  cbn [folders]. rewrite elem_of_flat_map. split.
  - intros ([n [d|es]] & Hin & Hy); simpl in Hy; [by apply elem_of_nil in Hy|].
    exists n, es. split; [done|].
    apply elem_of_cons in Hy as [->|Hy]; [by left|].
    apply list_elem_of_fmap in Hy as (p & -> & Hp). right. by exists p.
  - intros (n & es & Hin & Hx). exists (n, Folder es). split; [done|]. simpl.
    apply elem_of_cons. destruct Hx as [->|(p & Hp & ->)]; [by left|right].
    apply list_elem_of_fmap. by exists p.
Qed.

Lemma entry_unique (entries : list (string * node)) name t1 t2 :
  NoDup (map fst entries) → (name, t1) ∈ entries → (name, t2) ∈ entries → t1 = t2.
Proof.
  induction entries as [|[n t] entries IH]; simpl; intros Hnd H1 H2.
  { by apply elem_of_nil in H1. }
  apply NoDup_cons in Hnd as [Hfresh Hnd].
  apply elem_of_cons in H1 as [[= -> ->]|H1], H2 as [[= <-]|H2]; try done.
  - destruct Hfresh. apply list_elem_of_fmap. by exists (n, t2).
  - subst. destruct Hfresh. apply list_elem_of_fmap. by exists (name, t1).
  - by apply IH.
Qed.

Lemma well_named_entry entries name t :
  well_named (Folder entries) = true → (name, t) ∈ entries →
  plain name = true ∧ well_named t = true.
Proof.
  intros [_ Hall]%well_named_folder Hin. rewrite Forall_forall in Hall.
  exact (Hall _ Hin).
Qed.

Lemma contents_functional t : ∀ x d1 d2,
  well_named t = true → (x, d1) ∈ contents t → (x, d2) ∈ contents t → d1 = d2.
Proof.
  induction t as [data|entries IH] using node_induction; intros x d1 d2 Hwn H1 H2.
  { by apply elem_of_nil in H1. }
  pose proof (proj1 (well_named_folder _) Hwn) as [Hnd _].
  rewrite Forall_forall in IH.
  apply elem_of_contents in H1 as [H1|(n1 & es1 & r1 & Hin1 & Hr1 & ->)],
        H2 as [H2|(n2 & es2 & r2 & Hin2 & Hr2 & Heq)].
  - pose proof (entry_unique _ _ _ _ Hnd H1 H2) as [= ->]. done.
  - destruct (well_named_entry _ _ _ Hwn H1) as [[_ Hno]%plain_spec _].
    subst x. by rewrite has_slash_below in Hno.
  - destruct (well_named_entry _ _ _ Hwn H2) as [[_ Hno]%plain_spec _].
    by rewrite has_slash_below in Hno.
  - destruct (well_named_entry _ _ _ Hwn Hin1) as [[_ Hno1]%plain_spec Hwn1].
    destruct (well_named_entry _ _ _ Hwn Hin2) as [[_ Hno2]%plain_spec _].
    destruct (below_inj _ _ _ _ Hno1 Hno2 Heq) as [-> ->].
    pose proof (entry_unique _ _ _ _ Hnd Hin1 Hin2) as [= ->].
    exact (IH _ Hin1 _ _ _ Hwn1 Hr1 Hr2).
Qed.

Lemma map_below_NoDup name (l : list (string * bytes)) :
  NoDup (map fst l) → NoDup (map fst (map (λ kv, (name +:+ "/" +:+ fst kv, snd kv)) l)).
Proof.
  rewrite map_map. simpl. intros Hnd.
  rewrite <- (map_map fst (λ r, name +:+ "/" +:+ r)).
  assert (Hinj : Inj (=) (=) (λ r, name +:+ "/" +:+ r)).
  { intros r1 r2 Heq. apply String.app_inj in Heq.
    change (String "/" r1 = String "/" r2) in Heq. by injection Heq. }
  by apply (NoDup_fmap_2 (λ r, name +:+ "/" +:+ r)).
Qed.

Lemma contents_NoDup t : well_named t = true → NoDup (map fst (contents t)).
Proof.
  induction t as [data|entries IH] using node_induction; intros Hwn; [apply NoDup_nil_2|].
  apply well_named_folder in Hwn as [Hnd Hall].
  induction entries as [|[name [d|es]] entries IHe].
  - apply NoDup_nil_2.
  - apply Forall_cons in IH as [_ IH], Hall as [[Hname _] Hall].
    simpl in Hnd. apply NoDup_cons in Hnd as [Hfresh Hnd].
    assert (Hwn' : well_named (Folder entries) = true).
    { apply well_named_folder. by split. }
    specialize (IHe IH Hnd Hall).
    cbn [contents flat_map fst snd app map] in *.
    apply NoDup_cons_2; [|exact IHe].
    intros ([x d'] & Hx & Hin)%list_elem_of_fmap. simpl in Hx. subst x.
    change (flat_map _ entries ++ flat_map _ entries) with (contents (Folder entries)) in Hin.
    apply elem_of_contents in Hin as [Hin|(n & es & r & _ & _ & Heq)].
    + apply Hfresh. apply list_elem_of_fmap. by exists (name, File d').
    + apply plain_spec in Hname as [_ Hno]. by rewrite Heq, has_slash_below in Hno.
  - apply Forall_cons in IH as [IHsub IH], Hall as [[Hname Hsub] Hall].
    simpl in Hnd. apply NoDup_cons in Hnd as [Hfresh Hnd].
    assert (Hwn' : well_named (Folder entries) = true).
    { apply well_named_folder. by split. }
    specialize (IHe IH Hnd Hall). simpl in IHsub.
    cbn [contents flat_map fst snd app] in *.
    change (flat_map (λ e : string * node, match e.2 with
                       | File data => [(e.1, data)] | Folder _ => [] end) entries)
      with (flat_map (λ e : string * node, match snd e with
                       | File data => [(fst e, data)] | Folder _ => [] end) entries).
    match goal with |- NoDup (map fst (?a ++ ?b ++ ?c)) =>
      assert (Hperm : a ++ b ++ c ≡ₚ b ++ (a ++ c))
        by (rewrite !app_assoc; apply Permutation_app_tail, Permutation_app_comm)
    end.
    rewrite Hperm, map_app. apply NoDup_app. split; [|split].
    + apply map_below_NoDup. by apply IHsub.
    + intros x ([x' d1] & -> & ([r d1'] & [= -> ->] & Hr)%list_elem_of_fmap)%list_elem_of_fmap.
      intros ([x d2] & Hx & Hin)%list_elem_of_fmap. simpl in Hx. subst x.
      change (flat_map _ entries ++ flat_map _ entries) with (contents (Folder entries)) in Hin.
      apply elem_of_contents in Hin as [Hin|(n & es' & r' & Hin & _ & Heq)].
      * destruct (well_named_entry _ _ _ Hwn' Hin) as [[_ Hno]%plain_spec _].
        by rewrite has_slash_below in Hno.
      * destruct (well_named_entry _ _ _ Hwn' Hin) as [[_ Hno']%plain_spec _].
        apply plain_spec in Hname as [_ Hno].
        destruct (below_inj _ _ _ _ Hno Hno' Heq) as [-> _].
        apply Hfresh. apply list_elem_of_fmap. by exists (n, Folder es').
    + exact IHe.
Qed.

(** X19: No two names that [collapse_tree] returns for a directory are the
    same, so [encode] on them never meets a name twice. *)
Theorem collapse_tree_names_distinct dir entries base names :
  dir ≠ EmptyString → ends_with_slash dir = false →
  well_named (Folder entries) = true →
  collapse_tree dir (Some (Folder entries)) = inr (base, names) →
  NoDup names.
Proof.
  intros Hdir Hend Hwn. rewrite collapse_tree_folder by done. intros [= _ <-].
  exact (contents_NoDup (Folder entries) Hwn).
Qed.

Lemma collapse_tree_names_distinct_witness : NoDup ["x"; "w"; "d/y"].
Proof.
  apply (collapse_tree_names_distinct "/home/u/r"
           [ ("x", File [Byte.x01]);
             ("d", Folder [ ("y", File [Byte.x02]); ("e", Folder []) ]);
             ("w", File []) ] "/home/u/r" ["x"; "w"; "d/y"]).
  - discriminate.
  - reflexivity.
  - vm_compute. reflexivity.
  - vm_compute. reflexivity.
Defined.

(** ** A path that is a file *)

Lemma cut_after_last_slash_below parent base :
  has_slash base = false →
  cut_after_last_slash (parent +:+ "/" +:+ base) = (parent +:+ "/", base).
Proof.
  intros Hbase. induction parent as [|c parent IH].
  - change ("" +:+ "/" +:+ base) with (String "/" base). simpl. by rewrite Hbase.
  - change (String c parent +:+ "/" +:+ base) with (String c (parent +:+ "/" +:+ base)).
    cbn [cut_after_last_slash]. by rewrite has_slash_below, IH.
Qed.

Lemma all_slashes_app a b : all_slashes (a +:+ b) = all_slashes a && all_slashes b.
Proof.
  induction a as [|c a IH]; [done|].
  change (String c a +:+ b) with (String c (a +:+ b)). simpl.
  by rewrite IH, andb_assoc.
Qed.

Lemma all_slashes_ends p :
  p ≠ EmptyString → all_slashes p = true → ends_with_slash p = true.
Proof.
  induction p as [|c p IH]; [done|]. intros _. simpl.
  intros [Hc Hp]%andb_true_iff. destruct p as [|c' p]; [done|]. by apply IH.
Qed.

Lemma rstrip_slashes_below parent :
  ends_with_slash parent = false → rstrip_slashes (parent +:+ "/") = parent.
Proof.
  induction parent as [|c parent IH]; [done|].
  change (String c parent +:+ "/") with (String c (parent +:+ "/")).
  intros Hend. cbn [rstrip_slashes]. rewrite all_slashes_app.
  destruct parent as [|c' parent].
  - simpl in *. by rewrite Hend.
  - destruct (Ascii.eqb c "/" && (all_slashes (String c' parent) && all_slashes "/")) eqn:Hall.
    + apply andb_true_iff in Hall as [_ [Hall _]%andb_true_iff].
      apply all_slashes_ends in Hall; [|done]. simpl in Hend. simpl in Hall. congruence.
    + f_equal. by apply IH.
Qed.

(** X20: For the path of a regular file, [collapse_tree] returns its
    directory as base and its last component as the only name, and the
    two joined give the path back. *)
Theorem collapse_tree_of_a_file parent name data :
  ends_with_slash parent = false → plain name = true →
  ∃ base,
    collapse_tree (parent +:+ "/" +:+ name) (Some (File data)) = inr (base, [name]) ∧
    base = (if bool_decide (parent = EmptyString) then "/" else parent) ∧
    os_path_join base name = parent +:+ "/" +:+ name.
Proof.
  intros Hend Hname. eexists. split; [|split; [reflexivity|]].
  - unfold collapse_tree, os_path_split.
    apply plain_spec in Hname as [_ Hno].
    rewrite cut_after_last_slash_below by done. cbn [fst snd]. do 2 f_equal.
    destruct parent as [|c parent]; [reflexivity|].
    rewrite !bool_decide_eq_false_2 by done.
    destruct (all_slashes (String c parent +:+ "/")) eqn:Hall.
    + rewrite all_slashes_app in Hall. apply andb_true_iff in Hall as [Hall _].
      apply all_slashes_ends in Hall; [congruence|done].
    + cbn [negb andb]. by rewrite rstrip_slashes_below.
  - destruct (plain_no_slashes _ Hname) as [Hstart _].
    unfold os_path_join. rewrite Hstart.
    destruct parent as [|c parent]; [reflexivity|].
    rewrite !bool_decide_eq_false_2 by done. by rewrite Hend.
Qed.

Lemma collapse_tree_of_a_file_witness :
  ∃ base,
    collapse_tree ("/home/u" +:+ "/" +:+ "x.bin") (Some (File [Byte.x01]))
      = inr (base, ["x.bin"]) ∧
    base = (if bool_decide ("/home/u" = EmptyString) then "/" else "/home/u") ∧
    os_path_join base "x.bin" = "/home/u" +:+ "/" +:+ "x.bin".
Proof.
  apply (collapse_tree_of_a_file "/home/u" "x.bin" [Byte.x01]).
  - reflexivity.
  - reflexivity.
Defined.

(** ** Trees in the sessions *)

Lemma contents_not_folders t : ∀ x,
  well_named t = true → x ∈ map fst (contents t) → x ∉ folders t.
Proof.
  induction t as [data|entries IH] using node_induction; intros x Hwn Hin Hfold.
  { by apply elem_of_nil in Hfold. }
  pose proof (proj1 (well_named_folder _) Hwn) as [Hnd _].
  rewrite Forall_forall in IH.
  apply list_elem_of_fmap in Hin as ([x' d] & -> & Hin). simpl in Hfold.
  apply elem_of_contents in Hin as [Hin|(n & es & r & Hin & Hr & ->)];
    apply elem_of_folders in Hfold as (n' & es' & Hin' & [Heq|(p & Hp & Heq)]).
  - subst n'. by pose proof (entry_unique _ _ _ _ Hnd Hin Hin').
  - destruct (well_named_entry _ _ _ Hwn Hin) as [[_ Hno]%plain_spec _].
    subst x'. by rewrite has_slash_below in Hno.
  - destruct (well_named_entry _ _ _ Hwn Hin') as [[_ Hno]%plain_spec _].
    subst n'. by rewrite has_slash_below in Hno.
  - destruct (well_named_entry _ _ _ Hwn Hin) as [[_ Hno]%plain_spec Hwn1].
    destruct (well_named_entry _ _ _ Hwn Hin') as [[_ Hno']%plain_spec _].
    destruct (below_inj _ _ _ _ Hno Hno' Heq) as [-> ->].
    pose proof (entry_unique _ _ _ _ Hnd Hin Hin') as [= ->].
    apply (IH _ Hin p Hwn1); [|done]. apply list_elem_of_fmap. by exists (p, d).
Qed.

Lemma dirname_app a b : has_slash b = true → dirname (a +:+ b) = a +:+ dirname b.
Proof.
  intros Hb. induction a as [|c a IH]; [done|].
  change (String c a +:+ b) with (String c (a +:+ b)). cbn [dirname].
  rewrite has_slash_app, Hb, orb_true_r. by rewrite IH.
Qed.

Lemma dirname_below name r :
  dirname (name +:+ "/" +:+ r)
  = name +:+ (if has_slash r then "/" +:+ dirname r else EmptyString).
Proof.
  rewrite dirname_app by done. reflexivity.
Qed.

Lemma contents_parents t : ∀ x,
  well_named t = true → x ∈ map fst (contents t) →
  has_slash x = false ∨ dirname x ∈ folders t.
Proof.
  induction t as [data|entries IH] using node_induction; intros x Hwn Hin.
  { by apply elem_of_nil in Hin. }
  rewrite Forall_forall in IH.
  apply list_elem_of_fmap in Hin as ([x' d] & -> & Hin). simpl.
  apply elem_of_contents in Hin as [Hin|(n & es & r & Hin & Hr & ->)].
  - left. by destruct (well_named_entry _ _ _ Hwn Hin) as [[_ Hno]%plain_spec _].
  - right. destruct (well_named_entry _ _ _ Hwn Hin) as [_ Hwn1].
    rewrite dirname_below. apply elem_of_folders. exists n, es. split; [done|].
    destruct (has_slash r) eqn:Hr'.
    + right. exists (dirname r). split; [|done].
      destruct (IH _ Hin r Hwn1) as [Hno|Hd]; [|congruence|done].
      apply list_elem_of_fmap. by exists (r, d).
    + left. apply string_app_nil_r.
Qed.

Lemma tree_dir_present t name :
  well_named t = true → name ∈ map fst (contents t) →
  is_Some (files (tree_dir t) !! name) ∧ name ∉ subdirs (tree_dir t).
Proof.
  intros Hwn Hin. split.
  - simpl. destruct (list_to_map (contents t) !! name) eqn:Hnone; [by eexists|].
    by apply not_elem_of_list_to_map in Hnone.
  - simpl. rewrite elem_of_list_to_set. by apply contents_not_folders.
Qed.

Lemma tree_names_writable t target name :
  well_named t = true → subdirs target = list_to_set (folders t) →
  name ∈ map fst (contents t) → writable target name.
Proof.
  intros Hwn Hsub Hin. split.
  - rewrite Hsub, elem_of_list_to_set. by apply contents_not_folders.
  - unfold parent_exists. destruct (contents_parents t name Hwn Hin) as [Hno|Hd].
    + by rewrite dirname_no_slash, bool_decide_eq_true_2.
    + rewrite (bool_decide_eq_true_2 (dirname name ∈ subdirs target)); [by rewrite orb_true_r|].
      by rewrite Hsub, elem_of_list_to_set.
Qed.

(** X21: Encoding never fails on a directory tree: with the names
    [collapse_tree] returns for it, a positive capacity below 2^43 MiB
    and an output directory in which neither a chunk name nor [header]
    is a directory, [encode] returns [False]. *)
Theorem encode_accepts_every_tree mb dir entries out base names :
  0 < mb < 2 ^ 43 →
  dir ≠ EmptyString → ends_with_slash dir = false →
  well_named (Folder entries) = true →
  (∀ j, chunk_name j ∉ subdirs out) →
  "header" ∉ subdirs out →
  collapse_tree dir (Some (Folder entries)) = inr (base, names) →
  ∃ w', encode mb names (mkWorld (tree_dir (Folder entries)) out [] []) = Returned None w'.
Proof.
  intros Hmb Hdir Hend Hwn Hfree Hhdir. rewrite collapse_tree_folder by done.
  intros [= _ <-].
  apply encode_succeeds; [done|done|done|exact (contents_NoDup (Folder entries) Hwn)|].
  intros name Hin. by apply (tree_dir_present (Folder entries)).
Qed.

Lemma encode_accepts_every_tree_witness :
  ∃ w', encode 1 ["x"; "w"; "d/y"]
          (mkWorld (tree_dir (Folder [ ("x", File [Byte.x01]);
                                       ("d", Folder [ ("y", File [Byte.x02]);
                                                      ("e", Folder []) ]);
                                       ("w", File []) ]))
                   empty_dir [] [])
        = Returned None w'.
Proof.
  apply (encode_accepts_every_tree 1 "/home/u/r"
           [ ("x", File [Byte.x01]);
             ("d", Folder [ ("y", File [Byte.x02]); ("e", Folder []) ]);
             ("w", File []) ] empty_dir "/home/u/r" ["x"; "w"; "d/y"]).
  - lia.
  - discriminate.
  - reflexivity.
  - vm_compute. reflexivity.
  - intros j. apply not_elem_of_empty.
  - apply not_elem_of_empty.
  - vm_compute. reflexivity.
Defined.

(** X22: A tree survives the round trip when the output directory of [decode]
    already holds its directories: every regular file of the tree is
    then written back under its relative path with its bytes.  The
    capacity is positive and below 2^43 MiB, every file has fewer than
    2^63 - 33 bytes (the sizes [read] accepts), and in the directory
    that receives the chunks neither a chunk name nor [header] is a
    directory. *)
Theorem tree_round_trip mb dir entries out target base names :
  0 < mb < 2 ^ 43 →
  dir ≠ EmptyString → ends_with_slash dir = false →
  well_named (Folder entries) = true →
  Forall (λ kv, Z.of_nat (length (snd kv)) < 2 ^ 63 - 33) (contents (Folder entries)) →
  (∀ j, chunk_name j ∉ subdirs out) →
  "header" ∉ subdirs out →
  subdirs target = list_to_set (folders (Folder entries)) →
  collapse_tree dir (Some (Folder entries)) = inr (base, names) →
  ∃ w1 w2,
    encode mb names (mkWorld (tree_dir (Folder entries)) out [] []) = Returned None w1 ∧
    decode (mkWorld (outdir w1) target [] []) = Returned None w2 ∧
    ∀ name data, (name, data) ∈ contents (Folder entries) →
                 files (outdir w2) !! name = Some data.
Proof.
  intros Hmb Hdir Hend Hwn Hsizes Hfree Hhdir Hsub. rewrite collapse_tree_folder by done.
  intros [= _ <-].
  destruct (encode_then_decode mb (map fst (contents (Folder entries)))
              (mkWorld (tree_dir (Folder entries)) out [] []) target)
    as (w1 & w2 & Henc & Hdec & Hsame & _); try done.
  - exact (contents_NoDup (Folder entries) Hwn).
  - intros name Hin. by apply (tree_dir_present (Folder entries)).
  - intros name data Hin Hdata. simpl in Hdata.
    apply elem_of_list_to_map_2 in Hdata.
    rewrite Forall_forall in Hsizes. exact (Hsizes _ Hdata).
  - intros name Hin. by apply (tree_names_writable (Folder entries)).
  - exists w1, w2. split; [done|]. split; [done|].
    intros name data Hin. rewrite Hsame.
    + simpl. apply elem_of_list_to_map_1; [|done].
      exact (contents_NoDup (Folder entries) Hwn).
    + apply list_elem_of_fmap. by exists (name, data).
Qed.

Lemma tree_round_trip_witness :
  ∃ w1 w2,
    encode 1 ["x"; "w"; "d/y"] (mkWorld (tree_dir sample_tree) empty_dir [] [])
      = Returned None w1 ∧
    decode (mkWorld (outdir w1) (skeleton sample_tree) [] []) = Returned None w2 ∧
    ∀ name data, (name, data) ∈ contents sample_tree →
                 files (outdir w2) !! name = Some data.
Proof.
  apply (tree_round_trip 1 "/home/u/r"
           [ ("x", File [Byte.x01]);
             ("d", Folder [ ("y", File [Byte.x02]); ("e", Folder []) ]);
             ("w", File []) ] empty_dir (skeleton sample_tree) "/home/u/r" ["x"; "w"; "d/y"]).
  - lia.
  - discriminate.
  - reflexivity.
  - vm_compute. reflexivity.
  - repeat constructor; simpl; lia.
  - intros j. apply not_elem_of_empty.
  - apply not_elem_of_empty.
  - reflexivity.
  - vm_compute. reflexivity.
Defined.

(** ** The names are normalised *)

Lemma components_plain name : has_slash name = false → components name = [name].
Proof.
  induction name as [|c name IH]; [done|]. simpl.
  intros [Hc Hrest]%orb_false_iff. rewrite Hc, (IH Hrest). done.
Qed.

Lemma components_below name r :
  has_slash name = false → components (name +:+ "/" +:+ r) = name :: components r.
Proof.
  induction name as [|c name IH]; [done|].
  change (String c name +:+ "/" +:+ r) with (String c (name +:+ "/" +:+ r)). simpl.
  intros [Hc Hrest]%orb_false_iff. by rewrite Hc, (IH Hrest).
Qed.

Lemma contents_normal t :
  well_named t = true → Forall (λ kv, normal_path (fst kv) = true) (contents t).
Proof.
  induction t as [data|entries IH] using node_induction; intros Hwn; [constructor|].
  rewrite Forall_forall in IH. apply Forall_forall. intros [x d] Hin. simpl.
  apply elem_of_contents in Hin as [Hin|(n & es & r & Hin & Hr & ->)].
  - destruct (well_named_entry _ _ _ Hwn Hin) as [Hname _].
    unfold normal_path. rewrite components_plain by (by destruct (plain_spec _ Hname)).
    simpl. by rewrite Hname.
  - destruct (well_named_entry _ _ _ Hwn Hin) as [Hname Hwn1].
    unfold normal_path. rewrite components_below by (by destruct (plain_spec _ Hname)).
    simpl. rewrite Hname. simpl.
    pose proof (IH _ Hin Hwn1) as Hsub. rewrite Forall_forall in Hsub.
    exact (Hsub _ Hr).
Qed.

(** X23: Every name that [collapse_tree] returns for a directory other than
    the root is a normalised relative path: its components are names of
    directory entries, so joined to any directory it names a place below
    it. *)
Theorem collapse_tree_names_normal dir entries base names :
  dir ≠ EmptyString → ends_with_slash dir = false →
  well_named (Folder entries) = true →
  collapse_tree dir (Some (Folder entries)) = inr (base, names) →
  Forall (λ name, normal_path name = true) names.
Proof.
  intros Hdir Hend Hwn. rewrite collapse_tree_folder by done. intros [= _ <-].
  apply Forall_fmap. exact (contents_normal (Folder entries) Hwn).
Qed.

Lemma collapse_tree_names_normal_witness :
  Forall (λ name, normal_path name = true) ["x"; "w"; "d/y"].
Proof.
  apply (collapse_tree_names_normal "/home/u/r"
           [ ("x", File [Byte.x01]);
             ("d", Folder [ ("y", File [Byte.x02]); ("e", Folder []) ]);
             ("w", File []) ] "/home/u/r" ["x"; "w"; "d/y"]).
  - discriminate.
  - reflexivity.
  - vm_compute. reflexivity.
  - vm_compute. reflexivity.
Defined.

(** ** The root directory *)

Lemma strip_prefix_root name s :
  plain name = true → strip_prefix "//" ("/" +:+ name +:+ s) = None.
Proof.
  intros Hname. destruct (plain_no_slashes _ Hname) as [Hstart _].
  apply plain_spec in Hname as [Hne _]. destruct name as [|c name]; [done|].
  simpl in Hstart. change ("/" +:+ String c name +:+ s) with (String "/" (String c (name +:+ s))).
  change (strip_prefix "//" (String "/" (String c (name +:+ s))))
    with (if Ascii.eqb "/" c then Some (name +:+ s) else None).
  by rewrite Ascii.eqb_sym, Hstart.
Qed.

Lemma removeprefix_root name s :
  plain name = true → removeprefix "//" ("/" +:+ name +:+ s) = "/" +:+ name +:+ s.
Proof. intros Hname. unfold removeprefix. by rewrite strip_prefix_root. Qed.

Lemma os_path_join_root name : plain name = true → os_path_join "/" name = "/" +:+ name.
Proof.
  intros Hname. destruct (plain_no_slashes _ Hname) as [Hstart _].
  unfold os_path_join. by rewrite Hstart.
Qed.

Lemma removeprefix_root_file name :
  plain name = true → removeprefix "//" (os_path_join "/" name) = "/" +:+ name.
Proof.
  intros Hname. rewrite os_path_join_root by done.
  pose proof (removeprefix_root name "" Hname) as Hr.
  by rewrite string_app_nil_r in Hr.
Qed.

(** X24: For the root directory the prefix that [collapse_tree] removes is
    two slashes, which no path of the walk starts with: the names it
    returns are the absolute paths of the files. *)
Theorem collapse_tree_of_the_root entries :
  well_named (Folder entries) = true →
  collapse_tree "/" (Some (Folder entries))
  = inr ("/", map (λ kv, "/" +:+ fst kv) (contents (Folder entries))).
Proof.
  intros Hwn. unfold collapse_tree. do 2 f_equal.
  change ("/" +:+ "/") with "//".
  apply well_named_folder in Hwn as [_ Hwn].
  cbn [os_walk contents flat_map fst snd]. rewrite map_app. f_equal.
  - induction Hwn as [|[name [data|sub]] entries [Hname _] _ IHe]; simpl; [done|..].
    + rewrite IHe. f_equal. simpl in Hname.
      by rewrite removeprefix_root_file.
    + exact IHe.
  - rewrite flat_map_flat_map.
    induction Hwn as [|[name [data|sub]] entries [Hname Hsub] _ IHe];
      cbn [flat_map fst snd app map]; [done|..].
    + exact IHe.
    + rewrite map_app, IHe. f_equal. cbn [fst snd] in Hname, Hsub.
      destruct (plain_no_slashes _ Hname) as [_ Hend].
      rewrite os_path_join_root by done.
      assert (Htop : "/" +:+ name ≠ EmptyString ∧ ends_with_slash ("/" +:+ name) = false).
      { split; [done|]. apply plain_spec in Hname as [Hne _].
        destruct name as [|c name]; [done|].
        rewrite (ends_with_slash_app "/" c name). exact Hend. }
      destruct Htop as [Hne Hend'].
      rewrite (flat_map_map_through (removeprefix "//")
                 (λ step, os_path_join (fst (fst step))) snd).
      rewrite (os_walk_paths _ _ Hne Hend' Hsub), !map_map. apply map_ext.
      intros kv. simpl. rewrite string_app_assoc.
      by rewrite (removeprefix_root name _ Hname).
Qed.

Lemma collapse_tree_of_the_root_witness :
  collapse_tree "/"
    (Some (Folder [ ("x", File [Byte.x01]);
                    ("d", Folder [ ("y", File [Byte.x02]); ("e", Folder []) ]);
                    ("w", File []) ]))
  = inr ("/", map (λ kv, "/" +:+ fst kv)
                (contents (Folder [ ("x", File [Byte.x01]);
                                    ("d", Folder [ ("y", File [Byte.x02]); ("e", Folder []) ]);
                                    ("w", File []) ]))).
Proof.
  apply (collapse_tree_of_the_root
           [ ("x", File [Byte.x01]);
             ("d", Folder [ ("y", File [Byte.x02]); ("e", Folder []) ]);
             ("w", File []) ]).
  vm_compute. reflexivity.
Defined.

(** ** Names below a directory that is not there *)

Lemma offsets_from_names entries : ∀ off, map fst (offsets_from off entries) = map fst entries.
Proof. induction entries as [|e entries IH]; intros off; simpl; [done|]. by rewrite IH. Qed.

Lemma encode_header_names mb names w w' :
  0 < mb → encode mb names w = Returned None w' → header_names (outdir w') = names.
Proof.
  intros Hmb Henc.
  destruct (encode_spec mb names w w' Hmb Henc)
    as (entries & full & cur & Hnames & _ & _ & _ & Hhdr & _).
  unfold header_names. rewrite Hhdr. simpl.
  rewrite map_map, <- Hnames. exact (offsets_from_names entries 0).
Qed.

(** X25: What [encode] wrote cannot be decoded into a directory that lacks
    the directory of one of the names: [decode] does not return
    [False].  The names are normalised relative paths, as
    [collapse_tree] returns them. *)
Theorem nested_name_needs_its_directory mb names w w1 target name w2 :
  0 < mb →
  Forall (λ name, normal_path name = true) names →
  encode mb names w = Returned None w1 →
  name ∈ names →
  parent_exists target name = false →
  decode (mkWorld (outdir w1) target [] []) ≠ Returned None w2.
Proof.
  intros Hmb _ Henc Hin Hparent Hdec.
  destruct (decode_returned_none_writable _ _ Hdec name) as [_ Hp];
    [|simpl in Hp; congruence].
  simpl. by rewrite (encode_header_names mb names w w1).
Qed.

Lemma nested_name_needs_its_directory_witness :
  decode (mkWorld (outdir (mkWorld nested_tree nested_chunks []
                             [Writing "header"; Reading "d/c"; Writing "chunk-0"]))
                  empty_dir [] [])
  ≠ Returned None (mkWorld nested_chunks empty_dir [] []).
Proof.
  apply (nested_name_needs_its_directory 1 ["d/c"] (mkWorld nested_tree empty_dir [] [])
           (mkWorld nested_tree nested_chunks []
              [Writing "header"; Reading "d/c"; Writing "chunk-0"])
           empty_dir "d/c").
  - lia.
  - vm_compute. repeat constructor.
  - vm_compute. reflexivity.
  - by left.
  - reflexivity.
Defined.

(** ** Round trip, and what it leaves alone *)

(** X26: What [encode] stored, [decode] restores: for distinct, normalised
    names, none of them [header], of files of the input tree, each of
    fewer than 2^63 - 33 bytes, a positive capacity below 2^43 MiB, an
    output directory without directories under the chunk names and
    under [header], and a target in which every name can be opened,
    both return [False]; afterwards the target holds every named file
    with the bytes it has in the input tree, its other files are as
    they were, and so are its directories and its header file. *)
Theorem decode_restores_the_encoded_files mb names w target :
  0 < mb < 2 ^ 43 →
  Forall (λ name, normal_path name = true) names →
  "header" ∉ names →
  (∀ j, chunk_name j ∉ subdirs (outdir w)) →
  "header" ∉ subdirs (outdir w) →
  NoDup names →
  (∀ name, name ∈ names → is_Some (files (indir w) !! name) ∧ name ∉ subdirs (indir w)) →
  (∀ name data, name ∈ names → files (indir w) !! name = Some data →
                Z.of_nat (length data) < 2 ^ 63 - 33) →
  (∀ name, name ∈ names → writable target name) →
  ∃ w1 w2,
    encode mb names w = Returned None w1 ∧
    decode (mkWorld (outdir w1) target [] []) = Returned None w2 ∧
    (∀ name, name ∈ names → files (outdir w2) !! name = files (indir w) !! name) ∧
    (∀ name, name ∉ names → files (outdir w2) !! name = files target !! name) ∧
    subdirs (outdir w2) = subdirs target ∧
    header_file (outdir w2) = header_file target.
Proof.
  intros Hmb _ _ Hfree Hhdir Hnd Hpresent Hsizes Hwr.
  destruct (encode_then_decode mb names w target Hmb Hfree Hhdir Hnd Hpresent Hsizes Hwr)
    as (w1 & w2 & Henc & Hdec & Hsame & Hother).
  exists w1, w2. repeat (split; [done|]).
  pose proof (decode_keeps (mkWorld (outdir w1) target [] [])) as Hk.
  rewrite Hdec in Hk. by destruct Hk as (_ & ? & ? & _).
Qed.

Lemma decode_restores_the_encoded_files_witness :
  ∃ w1 w2,
    encode 1 ["a"; "b"] (mkWorld two_files empty_dir [] []) = Returned None w1 ∧
    decode (mkWorld (outdir w1) empty_dir [] []) = Returned None w2 ∧
    (∀ name, name ∈ ["a"; "b"] →
             files (outdir w2) !! name
             = files (indir (mkWorld two_files empty_dir [] [])) !! name) ∧
    (∀ name, name ∉ ["a"; "b"] → files (outdir w2) !! name = files empty_dir !! name) ∧
    subdirs (outdir w2) = subdirs empty_dir ∧
    header_file (outdir w2) = header_file empty_dir.
Proof.
  apply (decode_restores_the_encoded_files 1 ["a"; "b"]
           (mkWorld two_files empty_dir [] []) empty_dir).
  - lia.
  - vm_compute. repeat constructor.
  - intros Hin. apply elem_of_cons in Hin as [Heq|Hin]; [discriminate|].
    apply elem_of_cons in Hin as [Heq|Hin]; [discriminate|].
    by apply elem_of_nil in Hin.
  - intros j. apply not_elem_of_empty.
  - apply not_elem_of_empty.
  - repeat (apply NoDup_cons_2;
            [rewrite ?elem_of_cons, elem_of_nil; intros H; decompose [or] H; done|]).
    apply NoDup_nil_2.
  - intros name Hin. split; [|apply not_elem_of_empty].
    apply elem_of_cons in Hin as [->|Hin]; [by eexists|].
    apply elem_of_cons in Hin as [->|Hin]; [by eexists|].
    by apply elem_of_nil in Hin.
  - intros name data Hin Hdata.
    apply elem_of_cons in Hin as [->|Hin]; [by injection Hdata as <-|].
    apply elem_of_cons in Hin as [->|Hin]; [by injection Hdata as <-|].
    by apply elem_of_nil in Hin.
  - intros name Hin. split; [apply not_elem_of_empty|].
    apply elem_of_cons in Hin as [->|Hin]; [reflexivity|].
    apply elem_of_cons in Hin as [->|Hin]; [reflexivity|].
    by apply elem_of_nil in Hin.
Defined.
